(** * Tiger: the rating optimisation and calibration engine

    A shallow embedding of [calculate_ratings.py]: the per-attempt search
    [rating_attempt] and the error-model calibration done in [main].

    Numbers.  The source computes with binary64 floats.  The embedding reads
    that arithmetic as exact arithmetic on rationals ([Q]); an operation
    whose source result is not a finite number (a division by zero, which
    gives NaN, an infinity or a [ZeroDivisionError]) and a failed lookup
    ([KeyError], [IndexError]) are the outcome [None].  Where the source
    goes on computing with NaN or an infinity, the embedding stops at
    [None]: a result [Some] describes a computation of the source in finite
    numbers, up to rounding, and [None] says that the source raises or
    leaves the finite numbers, not which of the two.  Two things are said
    apart from that reading: what numpy makes of a division by zero
    ([np_divide]), and the control of the search loop, which module [Search]
    gives for any arithmetic, NaN and the infinities included, and of which
    the embedding of [rating_attempt] is an instance.  Equalities between
    sums taken in different orders hold of the rationals only; none is
    claimed of the source.

    External functions.  [np.log], [scipy.stats.norm.cdf],
    [scipy.stats.t.cdf] and the draws of [numpy.random.Generator.normal] are
    library code; they are parameters of the development. *)

From Stdlib Require Import QArith Qminmax Qabs Qround ZArith Lia Lqa List Bool.
From stdpp Require Import gmap strings list sorting.

Local Open Scope Q_scope.

(** ** Arithmetic of the source *)

Module Num.

(** What a division of numpy leaves: a finite number, an infinity with its
    sign, or NaN. *)
Inductive float_value : Type :=
  | Finite (q : Q)
  | Infinity (negative : bool)
  | NaN.

(** [a / b] on numpy floats, for finite [a] and [b]: no exception; with a
    divisor [0.0], NaN for [0 / 0] and otherwise the infinity of the sign of
    [a]. *)
Definition np_divide (a b : Q) : float_value :=
  if Qeq_bool b 0 then
    if Qeq_bool a 0 then NaN else Infinity (negb (Qle_bool 0 a))
  else Finite (a / b).

(** [a / b] as far as the quotient is a finite number.  [None] is what is
    left of a division by zero: NaN or an infinity where numpy divides
    ([np_divide]), with which the source goes on computing, and a
    [ZeroDivisionError] where Python divides. *)
Definition fdiv (a b : Q) : option Q :=
  if Qeq_bool b 0 then None else Some (a / b).

(** [a < b] as a test. *)
Definition Qlt_bool (a b : Q) : bool := negb (Qle_bool b a).

(** [int(not b)] *)
Definition int_not (b : bool) : Q := if b then 0 else 1.

(** [np.sum], as an exact sum: the source rounds every partial sum. *)
Definition np_sum (l : list Q) : Q := fold_right Qplus 0 l.

(** [np.mean]: the sum over the length; NaN on an empty array. *)
Definition np_mean (l : list Q) : option Q :=
  fdiv (np_sum l) (inject_Z (Z.of_nat (length l))).

(** [np.subtract(np.array(l), m)] *)
Definition np_subtract_scalar (l : list Q) (m : Q) : list Q :=
  map (fun x => x - m) l.

(** [np.add(np.array(l1), np.array(l2))] on arrays of one length. *)
Definition np_add (l1 l2 : list Q) : list Q := zip_with Qplus l1 l2.

(** [np.zeros(n).tolist()] *)
Definition np_zeros (n : nat) : list Q := repeat 0 n.

(** [l[i] += x]; [IndexError] out of range. *)
Definition list_add_at (l : list Q) (i : nat) (x : Q) : option (list Q) :=
  v ← l !! i; Some (<[i := v + x]> l).

End Num.
Import Num.

(** ** The arguments of [rating_attempt] *)

Record attempt_args := {
  attempt : nat;
  teams_in_network : list nat;
  network_game_id_list : list nat;
  input_games_home_id : list string;
  input_games_away_id : list string;
  input_games_home_listid : list nat;
  input_games_away_listid : list nat;
  input_games_home_score : list Z;
  input_games_away_score : list Z;
  input_games_season : list Z;
  input_games_is_neutral_site : list bool;
  input_games_is_preseason : list bool;
  id_to_index : gmap string nat;
  id_to_all_index : gmap string nat;
  season_to_rank : Z;
  preseason_weight : Q;
  prior_season_weight : Q;
  prior_preseason_weight : Q;
  use_preseason_var : bool;
  game_network_edge_centrality : gmap (nat * nat * nat) Q;
  network_game_score_mean : Q;
  network_game_margin_stdev : Q;
  iterations_before_reset : nat;
  iterations_before_stop : nat;
  rating_adjustment_scale : Q
}.

(** ** The state of the search loop *)

(** The four values that are saved, restored and returned together. *)
Record rating_state := {
  team_off_ratings : list Q;
  team_def_ratings : list Q;
  team_ratings : list Q;
  home_advantage : Q
}.

(** What the first iteration stores for all later ones. *)
Record first_iteration_data := {
  total_team_weight : list Q;
  total_notneutral_weight : Q;
  home_actual_margin_list : list Q;
  gt_game_weight_list : list Q;
  home_actual_off_score_list : list Q;
  home_actual_def_score_list : list Q
}.

(** What every iteration accumulates over the games. *)
Record iteration_sums := {
  total_home_margin_error_weight : Q;
  home_predicted_margin_list : list Q;
  total_team_off_margin_error_weight : list Q;
  total_team_def_margin_error_weight : list Q;
  home_predicted_off_score_list : list Q;
  home_predicted_def_score_list : list Q
}.

Record attempt_state := {
  best : rating_state;
  best_abs_total_error : option Q;
  terminate_search : bool;
  first_iteration : bool;
  cur : rating_state;
  iterations_since_last_update : nat;
  stored : first_iteration_data;
  rng_draws : nat
}.

(** What the loop over the games reads and derives for one game before it
    predicts (lines 70-98). *)
Record game_reads := {
  cur_game_homeidx : nat;
  cur_game_awayidx : nat;
  cur_game_home_allidx : nat;
  cur_game_away_allidx : nat;
  cur_game_home_score : Z;
  cur_game_away_score : Z;
  cur_game_gt_weight_of : Q;
  cur_game_is_neutral_site : bool
}.

(** ** The weight of a game (lines 80-96) *)

Section Attempt.

(** [np.log] *)
Variable np_log : Q -> Q.
(** [stats.norm.cdf(x, loc, scale)] *)
Variable norm_cdf : Q -> Q -> Q -> Q.
(** [update_rng.normal(loc, scale)]: the draw number [k] of the generator
    seeded with [[attempt]]. *)
Variable rng_normal : nat -> nat -> Q -> Q -> Q.

(** The policy weight: the [if]/[elif]/[else] on the season.  The preseason
    flag of the game is read only when [use_preseason_var] is set. *)
Definition cur_game_weight (a : attempt_args) (cur_game_id : nat)
    (cur_game_season : Z) : option Q :=
  if (cur_game_season =? season_to_rank a)%Z then
    if use_preseason_var a then
      cur_game_is_preseason ← input_games_is_preseason a !! cur_game_id;
      Some (if cur_game_is_preseason : bool then preseason_weight a else 1)
    else Some 1
  else if (cur_game_season <? season_to_rank a)%Z then
    if use_preseason_var a then
      cur_game_is_preseason ← input_games_is_preseason a !! cur_game_id;
      Some (if cur_game_is_preseason : bool
            then prior_preseason_weight a else prior_season_weight a)
    else Some (prior_season_weight a)
  else Some 0.

(** The key of the centrality lookup:
    [(min(home_allidx, away_allidx), max(home_allidx, away_allidx), 0)]. *)
Definition centrality_key (home_allidx away_allidx : nat) : nat * nat * nat :=
  (Nat.min home_allidx away_allidx, Nat.max home_allidx away_allidx, 0%nat).

(** [cur_game_weight / np.log(1 / game_network_edge_centrality[key])] *)
Definition cur_game_gt_weight (a : attempt_args) (w : Q)
    (home_allidx away_allidx : nat) : option Q :=
  c ← game_network_edge_centrality a !! centrality_key home_allidx away_allidx;
  r ← fdiv 1 c;
  fdiv w (np_log r).

(** A [for] loop whose body can raise. *)
Fixpoint for_each {S X : Type} (body : S -> X -> option S) (l : list X) (s : S)
    : option S :=
  match l with
  | [] => Some s
  | x :: l' => s' ← body s x; for_each body l' s'
  end.

(** ** The loop over the games (lines 68-127) *)

(** Lines 70-98: the team indices, the score, the weight and the site. *)
Definition read_game (a : attempt_args) (cur_game_id : nat) : option game_reads :=
  cur_game_home_teamid ← input_games_home_id a !! cur_game_id;
  cur_game_away_teamid ← input_games_away_id a !! cur_game_id;
  homeidx ← id_to_index a !! cur_game_home_teamid;
  awayidx ← id_to_index a !! cur_game_away_teamid;
  home_allidx ← id_to_all_index a !! cur_game_home_teamid;
  away_allidx ← id_to_all_index a !! cur_game_away_teamid;
  home_score ← input_games_home_score a !! cur_game_id;
  away_score ← input_games_away_score a !! cur_game_id;
  cur_game_season ← input_games_season a !! cur_game_id;
  w ← cur_game_weight a cur_game_id cur_game_season;
  gt_weight ← cur_game_gt_weight a w home_allidx away_allidx;
  neutral ← input_games_is_neutral_site a !! cur_game_id;
  Some {| cur_game_homeidx := homeidx; cur_game_awayidx := awayidx;
          cur_game_home_allidx := home_allidx; cur_game_away_allidx := away_allidx;
          cur_game_home_score := home_score; cur_game_away_score := away_score;
          cur_game_gt_weight_of := gt_weight; cur_game_is_neutral_site := neutral |}.

(** Line 99 *)
Definition cur_game_predicted_off_score (a : attempt_args) (c : rating_state)
    (g : game_reads) : option Q :=
  off_home ← team_off_ratings c !! cur_game_homeidx g;
  def_away ← team_def_ratings c !! cur_game_awayidx g;
  Some (Qmax (off_home
              + (int_not (cur_game_is_neutral_site g) * home_advantage c / 2)
              - def_away + network_game_score_mean a) 0).

(** Line 100 *)
Definition cur_game_predicted_def_score (a : attempt_args) (c : rating_state)
    (g : game_reads) : option Q :=
  off_away ← team_off_ratings c !! cur_game_awayidx g;
  def_home ← team_def_ratings c !! cur_game_homeidx g;
  Some (Qmax (off_away
              - (int_not (cur_game_is_neutral_site g) * home_advantage c / 2)
              - def_home + network_game_score_mean a) 0).

(** Lines 105-113: what the first iteration stores. *)
Definition store_first (g : game_reads) (fid : first_iteration_data)
    : option first_iteration_data :=
  tw1 ← list_add_at (total_team_weight fid) (cur_game_homeidx g)
         (cur_game_gt_weight_of g);
  tw2 ← list_add_at tw1 (cur_game_awayidx g) (cur_game_gt_weight_of g);
  Some {| total_team_weight := tw2;
          total_notneutral_weight :=
            if cur_game_is_neutral_site g
            then total_notneutral_weight fid
            else total_notneutral_weight fid + cur_game_gt_weight_of g;
          home_actual_margin_list :=
            home_actual_margin_list fid
            ++ [inject_Z (cur_game_home_score g - cur_game_away_score g)];
          gt_game_weight_list :=
            gt_game_weight_list fid ++ [cur_game_gt_weight_of g];
          home_actual_off_score_list :=
            home_actual_off_score_list fid ++ [inject_Z (cur_game_home_score g)];
          home_actual_def_score_list :=
            home_actual_def_score_list fid ++ [inject_Z (cur_game_away_score g)] |}.

(** Lines 115-127: the predictions and the weighted errors of the game. *)
Definition add_errors (g : game_reads) (predicted_off predicted_def : Q)
    (sums : iteration_sums) : option iteration_sums :=
  let cur_game_predicted_margin := predicted_off - predicted_def in
  let cur_game_actual_margin :=
    inject_Z (cur_game_home_score g - cur_game_away_score g) in
  let cur_game_margin_error := cur_game_actual_margin - cur_game_predicted_margin in
  let cur_game_off_margin_error := inject_Z (cur_game_home_score g) - predicted_off in
  let cur_game_def_margin_error := inject_Z (cur_game_away_score g) - predicted_def in
  let gt := cur_game_gt_weight_of g in
  to1 ← list_add_at (total_team_off_margin_error_weight sums) (cur_game_homeidx g)
         (cur_game_off_margin_error * gt);
  td1 ← list_add_at (total_team_def_margin_error_weight sums) (cur_game_homeidx g)
         (- (cur_game_def_margin_error * gt));
  to2 ← list_add_at to1 (cur_game_awayidx g) (cur_game_def_margin_error * gt);
  td2 ← list_add_at td1 (cur_game_awayidx g) (- (cur_game_off_margin_error * gt));
  Some {| total_home_margin_error_weight :=
            if cur_game_is_neutral_site g
            then total_home_margin_error_weight sums
            else total_home_margin_error_weight sums + cur_game_margin_error * gt;
          home_predicted_margin_list :=
            home_predicted_margin_list sums ++ [cur_game_predicted_margin];
          total_team_off_margin_error_weight := to2;
          total_team_def_margin_error_weight := td2;
          home_predicted_off_score_list :=
            home_predicted_off_score_list sums ++ [predicted_off];
          home_predicted_def_score_list :=
            home_predicted_def_score_list sums ++ [predicted_def] |}.

(** The body of the loop for one game. *)
Definition game_body (a : attempt_args) (first : bool) (c : rating_state)
    (acc : iteration_sums * first_iteration_data) (cur_game_id : nat)
    : option (iteration_sums * first_iteration_data) :=
  g ← read_game a cur_game_id;
  predicted_off ← cur_game_predicted_off_score a c g;
  predicted_def ← cur_game_predicted_def_score a c g;
  fid' ← (if first then store_first g (snd acc) else Some (snd acc));
  sums' ← add_errors g predicted_off predicted_def (fst acc);
  Some (sums', fid').

(** The accumulators at the top of an iteration (lines 51-65). *)
Definition fresh_sums (a : attempt_args) : iteration_sums :=
  {| total_home_margin_error_weight := 0;
     home_predicted_margin_list := [];
     total_team_off_margin_error_weight := np_zeros (length (teams_in_network a));
     total_team_def_margin_error_weight := np_zeros (length (teams_in_network a));
     home_predicted_off_score_list := [];
     home_predicted_def_score_list := [] |}.

Definition fresh_stored (a : attempt_args) : first_iteration_data :=
  {| total_team_weight := np_zeros (length (teams_in_network a));
     total_notneutral_weight := 0;
     home_actual_margin_list := [];
     gt_game_weight_list := [];
     home_actual_off_score_list := [];
     home_actual_def_score_list := [] |}.

Definition game_loop (a : attempt_args) (s : attempt_state)
    : option (iteration_sums * first_iteration_data) :=
  for_each (game_body a (first_iteration s) (cur s)) (network_game_id_list a)
    (fresh_sums a, if first_iteration s then fresh_stored a else stored s).

(** ** The error of an iteration (lines 129-131) *)

(** [np.sum(np.multiply(w, np.absolute(np.subtract(cdf(actual), cdf(predicted)))))];
    the three arrays have one entry per game. *)
Definition cdf_abs_error (w actual predicted : list Q) (loc scale : Q) : Q :=
  np_sum (zip_with Qmult w
            (zip_with (fun x y => Qabs (norm_cdf x loc scale - norm_cdf y loc scale))
               actual predicted)).

Definition abs_total_error (a : attempt_args) (fid : first_iteration_data)
    (sums : iteration_sums) : Q :=
  cdf_abs_error (gt_game_weight_list fid) (home_actual_margin_list fid)
      (home_predicted_margin_list sums) 0 (network_game_margin_stdev a)
  + cdf_abs_error (gt_game_weight_list fid ++ gt_game_weight_list fid)
      (home_actual_off_score_list fid ++ home_actual_def_score_list fid)
      (home_predicted_off_score_list sums ++ home_predicted_def_score_list sums)
      (network_game_score_mean a) (network_game_margin_stdev a).

(** ** Saving, resetting and updating (lines 133-174) *)

(** Lines 160-162 for one team: two draws, for the offense and the defense. *)
Definition update_team (a : attempt_args) (fid : first_iteration_data)
    (sums : iteration_sums) (st : list Q * list Q * nat) (cur_teamidx : nat)
    : option (list Q * list Q * nat) :=
  let '(off, def, k) := st in
  off_err ← total_team_off_margin_error_weight sums !! cur_teamidx;
  tw ← total_team_weight fid !! cur_teamidx;
  off_mean ← fdiv off_err tw;
  off_loc ← fdiv off_mean (rating_adjustment_scale a);
  off_scale ← fdiv 1 (rating_adjustment_scale a);
  off' ← list_add_at off cur_teamidx (rng_normal (attempt a) k off_loc off_scale);
  def_err ← total_team_def_margin_error_weight sums !! cur_teamidx;
  tw' ← total_team_weight fid !! cur_teamidx;
  def_mean ← fdiv def_err tw';
  def_loc ← fdiv def_mean (rating_adjustment_scale a);
  def_scale ← fdiv 1 (rating_adjustment_scale a);
  def' ← list_add_at def cur_teamidx (rng_normal (attempt a) (S k) def_loc def_scale);
  Some (off', def', S (S k)).

(** Lines 160-169: the new current ratings and the number of draws used.
    [None] when a divisor is 0.  In the source a quotient of two Python
    numbers raises then (the two integers 0 of line 164 when no game is off
    a neutral site), and a quotient of numpy does not: for a team of total
    weight 0 it is NaN, which the centering spreads to the current offense
    and defense ratings of every team, and the loop goes on. *)
Definition update_ratings (a : attempt_args) (fid : first_iteration_data)
    (sums : iteration_sums) (c : rating_state) (k : nat)
    : option (rating_state * nat) :=
  '(off, def, k') ← for_each (update_team a fid sums)
                      (seq 0 (length (team_ratings c)))
                      (team_off_ratings c, team_def_ratings c, k);
  ha_mean ← fdiv (total_home_margin_error_weight sums) (total_notneutral_weight fid);
  ha_loc ← fdiv ha_mean (rating_adjustment_scale a);
  ha_scale ← fdiv 1 (rating_adjustment_scale a);
  let ha := home_advantage c + rng_normal (attempt a) k' ha_loc ha_scale in
  off_mean ← np_mean off;
  let off_centered := np_subtract_scalar off off_mean in
  def_mean ← np_mean def;
  let def_centered := np_subtract_scalar def def_mean in
  Some ({| team_off_ratings := off_centered;
           team_def_ratings := def_centered;
           team_ratings := np_add off_centered def_centered;
           home_advantage := ha |}, S k').

(** Lines 133-139: is this iteration the best so far?  A comparison with
    the initial [None] raises. *)
Definition update_best_stats (s : attempt_state) (err : Q) : option bool :=
  if first_iteration s then Some true
  else b ← best_abs_total_error s; Some (Qlt_bool err b).

(** Lines 141-156: save the current ratings as the best, or count the
    iteration and every [iterations_before_reset] of them go back to the
    best ratings. *)
Definition save_or_reset (a : attempt_args) (s : attempt_state) (err : Q)
    (fid : first_iteration_data) : option attempt_state :=
  improved ← update_best_stats s err;
  if improved : bool then
    Some {| best := cur s; best_abs_total_error := Some err;
            terminate_search := terminate_search s;
            first_iteration := first_iteration s;
            cur := cur s; iterations_since_last_update := 0;
            stored := fid; rng_draws := rng_draws s |}
  else
    let n := S (iterations_since_last_update s) in
    if (iterations_before_reset a =? 0)%nat then None
    else
      Some {| best := best s; best_abs_total_error := best_abs_total_error s;
              terminate_search := terminate_search s;
              first_iteration := first_iteration s;
              cur := if (n mod iterations_before_reset a =? 0)%nat
                     then best s else cur s;
              iterations_since_last_update := n;
              stored := fid; rng_draws := rng_draws s |}.

(** Lines 158-174: update the ratings or stop. *)
Definition update_or_stop (a : attempt_args) (sums : iteration_sums)
    (s : attempt_state) : option attempt_state :=
  if (iterations_since_last_update s <? iterations_before_stop a)%nat then
    '(c, k) ← update_ratings a (stored s) sums (cur s) (rng_draws s);
    Some {| best := best s; best_abs_total_error := best_abs_total_error s;
            terminate_search := terminate_search s; first_iteration := false;
            cur := c;
            iterations_since_last_update := iterations_since_last_update s;
            stored := stored s; rng_draws := k |}
  else
    Some {| best := best s; best_abs_total_error := best_abs_total_error s;
            terminate_search := true; first_iteration := false;
            cur := cur s;
            iterations_since_last_update := iterations_since_last_update s;
            stored := stored s; rng_draws := rng_draws s |}.

(** One pass through the body of the [while] loop (lines 51-174). *)
Definition iteration (a : attempt_args) (s : attempt_state) : option attempt_state :=
  '(sums, fid) ← game_loop a s;
  s1 ← save_or_reset a s (abs_total_error a fid sums) fid;
  update_or_stop a sums s1.

(** Lines 33-47 *)
Definition zero_ratings (a : attempt_args) : rating_state :=
  {| team_off_ratings := np_zeros (length (teams_in_network a));
     team_def_ratings := np_zeros (length (teams_in_network a));
     team_ratings := np_add (np_zeros (length (teams_in_network a)))
                            (np_zeros (length (teams_in_network a)));
     home_advantage := 0 |}.

Definition initial_state (a : attempt_args) : attempt_state :=
  {| best := zero_ratings a; best_abs_total_error := None;
     terminate_search := false; first_iteration := true;
     cur := zero_ratings a; iterations_since_last_update := 0;
     stored := fresh_stored a; rng_draws := 0 |}.

(** How a run of a loop can end in the embedding: with a value; with an
    iteration that raised or computed a number that is not finite, beyond
    which the embedding does not follow the source (the source goes on when
    the number is NaN or an infinity; [Search] has the loop for that case);
    or still running. *)
Inductive outcome (A : Type) : Type :=
  | Returned (x : A)
  | Failed
  | OutOfFuel.

(** [while not terminate_search: ...], at most [fuel] passes. *)
Fixpoint while_loop (fuel : nat) (a : attempt_args) (s : attempt_state)
    : outcome attempt_state :=
  if terminate_search s then Returned _ s
  else match fuel with
       | O => OutOfFuel _
       | S fuel' =>
           match iteration a s with
           | None => Failed _
           | Some s' => while_loop fuel' a s'
           end
       end.

(** [rating_attempt]: the loop from the initial state, then line 176.
    [Returned] is a run of the source in finite numbers; [Failed] is a run
    that raises or that leaves the finite numbers, after which the source
    still runs to the stop threshold. *)
Definition rating_attempt (fuel : nat) (a : attempt_args) : outcome rating_state :=
  match while_loop fuel a (initial_state a) with
  | Returned _ s => Returned _ (best s)
  | Failed _ => Failed _
  | OutOfFuel _ => OutOfFuel _
  end.

(** The states the loop passes through. *)
Inductive reachable (a : attempt_args) : attempt_state -> Prop :=
  | reachable_initial : reachable a (initial_state a)
  | reachable_iteration s s' :
      reachable a s -> terminate_search s = false ->
      iteration a s = Some s' -> reachable a s'.

(** A game that can be read and whose teams are among the [n] teams. *)
Definition game_ok (a : attempt_args) (n id : nat) : Prop :=
  exists g, read_game a id = Some g /\
            (cur_game_homeidx g < n)%nat /\ (cur_game_awayidx g < n)%nat.

(** The values of [stats.norm.cdf] are whole multiples of [1/N] between 0
    and 1. *)
Definition cdf_quantised (N : positive) : Prop :=
  forall x loc scale,
    exists k, (0 <= k <= Z.pos N)%Z /\ norm_cdf x loc scale == k # N.

End Attempt.

(** ** The calibration of the error model in [main] (lines 478-564) *)

(** What [main] has computed when line 478 is reached, besides the
    arguments it gave to the attempts: the seasons of the unplayed games,
    the index of every team in the network, the medians over the attempts,
    and, for the search of the tie bound, the fitted distribution of the
    margin errors and the two command line parameters. *)
Record calibration_args := {
  unplayed_games_season : list Z;
  teams_in_network_reverse : list (option nat);
  median_team_off_ratings : list Q;
  median_team_def_ratings : list Q;
  median_team_ratings : list Q;
  median_home_advantage : Q;
  use_normal : bool;
  prediction_error_stdev : Q;
  prediction_error_df : Q;
  tie_probability : Q;
  tie_cdf_search_interval : Q
}.

(** What the calibration reads for a game it includes (lines 493-499). *)
Record calibration_reads := {
  cal_homeidx : nat;
  cal_awayidx : nat;
  cal_home_score : Z;
  cal_away_score : Z;
  cal_is_neutral_site : bool
}.

(** The three samples of errors (lines 479-481). *)
Record error_samples := {
  prediction_errors : list Q;
  score_prediction_errors : list Q;
  total_score_prediction_errors : list Q
}.

(** Neither loop of the calibration assigns [cur_game_season]: its tests on
    the season read what the loops over the played games (lines 382-394) and
    then over the unplayed games (lines 395-407) left in the variable, the
    season of the last game they visited. *)
Definition cur_game_season_at_calibration (a : attempt_args)
    (m : calibration_args) : option Z :=
  match last (unplayed_games_season m) with
  | Some season => Some season
  | None => last (input_games_season a)
  end.

Section Calibration.

(** [stats.norm.cdf(x, loc, scale)] *)
Variable norm_cdf : Q -> Q -> Q -> Q.
(** [stats.t.cdf(x, df, loc, scale)] *)
Variable t_cdf : Q -> Q -> Q -> Q -> Q.

(** Lines 483-491: is the game part of the samples? *)
Definition include_game (a : attempt_args) (cur_game_season : Z)
    (cur_game_id : nat) : option bool :=
  include1 ←
    (if use_preseason_var a then
       cur_game_is_preseason ← input_games_is_preseason a !! cur_game_id;
       let include0 :=
         if (cur_game_is_preseason : bool) && Qeq_bool (preseason_weight a) 0
         then false else true in
       Some (if (cur_game_season <? season_to_rank a)%Z
                && Qeq_bool (prior_preseason_weight a) 0
                && cur_game_is_preseason
             then false else include0)
     else Some true);
  Some (if (cur_game_season <? season_to_rank a)%Z
           && Qeq_bool (prior_season_weight a) 0
        then false else include1).

(** Lines 540-546: the same test in the search of the tie bound, without
    the clause on [prior_preseason_weight]. *)
Definition include_game_tie (a : attempt_args) (cur_game_season : Z)
    (cur_game_id : nat) : option bool :=
  include1 ←
    (if use_preseason_var a then
       cur_game_is_preseason ← input_games_is_preseason a !! cur_game_id;
       Some (if (cur_game_is_preseason : bool) && Qeq_bool (preseason_weight a) 0
             then false else true)
     else Some true);
  Some (if (cur_game_season <? season_to_rank a)%Z
           && Qeq_bool (prior_season_weight a) 0
        then false else include1).

(** Lines 493-499 (and 548-554) *)
Definition read_calibration_game (a : attempt_args) (m : calibration_args)
    (cur_game_id : nat) : option calibration_reads :=
  cur_game_homeid ← input_games_home_listid a !! cur_game_id;
  cur_game_awayid ← input_games_away_listid a !! cur_game_id;
  homeidx ← mjoin (teams_in_network_reverse m !! cur_game_homeid);
  awayidx ← mjoin (teams_in_network_reverse m !! cur_game_awayid);
  home_score ← input_games_home_score a !! cur_game_id;
  away_score ← input_games_away_score a !! cur_game_id;
  neutral ← input_games_is_neutral_site a !! cur_game_id;
  Some {| cal_homeidx := homeidx; cal_awayidx := awayidx;
          cal_home_score := home_score; cal_away_score := away_score;
          cal_is_neutral_site := neutral |}.

(** Line 500 (and 555) *)
Definition cur_game_predicted_margin (m : calibration_args)
    (g : calibration_reads) : option Q :=
  rating_home ← median_team_ratings m !! cal_homeidx g;
  rating_away ← median_team_ratings m !! cal_awayidx g;
  Some (rating_home + (int_not (cal_is_neutral_site g) * median_home_advantage m)
        - rating_away).

(** Line 503 *)
Definition cur_game_predicted_home_score (a : attempt_args) (m : calibration_args)
    (g : calibration_reads) : option Q :=
  off_home ← median_team_off_ratings m !! cal_homeidx g;
  def_away ← median_team_def_ratings m !! cal_awayidx g;
  Some (off_home + (int_not (cal_is_neutral_site g) * median_home_advantage m / 2)
        - def_away + network_game_score_mean a).

(** Line 504 *)
Definition cur_game_predicted_away_score (a : attempt_args) (m : calibration_args)
    (g : calibration_reads) : option Q :=
  off_away ← median_team_off_ratings m !! cal_awayidx g;
  def_home ← median_team_def_ratings m !! cal_homeidx g;
  Some (off_away - (int_not (cal_is_neutral_site g) * median_home_advantage m / 2)
        + def_home + network_game_score_mean a).

(** Lines 483-511: the body of the loop that fills the samples. *)
Definition errors_body (a : attempt_args) (m : calibration_args)
    (cur_game_season : Z) (acc : error_samples) (cur_game_id : nat)
    : option error_samples :=
  include ← include_game a cur_game_season cur_game_id;
  if include : bool then
    g ← read_calibration_game a m cur_game_id;
    predicted_margin ← cur_game_predicted_margin m g;
    let cur_game_actual_margin := inject_Z (cal_home_score g - cal_away_score g) in
    let cur_prediction_error := predicted_margin - cur_game_actual_margin in
    predicted_home ← cur_game_predicted_home_score a m g;
    predicted_away ← cur_game_predicted_away_score a m g;
    let cur_home_prediction_error := predicted_home - inject_Z (cal_home_score g) in
    let cur_away_prediction_error := predicted_away - inject_Z (cal_away_score g) in
    let cur_total_prediction_error :=
      (predicted_home + predicted_away)
      - inject_Z (cal_home_score g + cal_away_score g) in
    Some {| prediction_errors := prediction_errors acc ++ [cur_prediction_error];
            score_prediction_errors :=
              score_prediction_errors acc
              ++ [cur_home_prediction_error; cur_away_prediction_error];
            total_score_prediction_errors :=
              total_score_prediction_errors acc ++ [cur_total_prediction_error] |}
  else Some acc.

(** Lines 479-511.  [None] also when [cur_game_season] is unbound. *)
Definition calibration_errors (a : attempt_args) (m : calibration_args)
    : option error_samples :=
  match network_game_id_list a with
  | [] => Some {| prediction_errors := []; score_prediction_errors := [];
                  total_score_prediction_errors := [] |}
  | ids =>
      cur_game_season ← cur_game_season_at_calibration a m;
      for_each (errors_body a m cur_game_season) ids
        {| prediction_errors := []; score_prediction_errors := [];
           total_score_prediction_errors := [] |}
  end.

(** The mass that the fitted distribution, centered at the predicted
    margin, puts on [[-bound, bound]]. *)
Definition tie_mass (m : calibration_args) (cur_cdf_bound predicted_margin : Q) : Q :=
  if use_normal m then
    norm_cdf cur_cdf_bound predicted_margin (prediction_error_stdev m)
    - norm_cdf (- cur_cdf_bound) predicted_margin (prediction_error_stdev m)
  else
    t_cdf cur_cdf_bound (prediction_error_df m) predicted_margin
      (prediction_error_stdev m)
    - t_cdf (- cur_cdf_bound) (prediction_error_df m) predicted_margin
        (prediction_error_stdev m).

(** Lines 556-559:
    [cur_tie_probability_sum + cdf(cur_cdf_bound) - cdf(-cur_cdf_bound)],
    with the distribution function of the fit centered at the predicted
    margin. *)
Definition tie_add (m : calibration_args)
    (cur_cdf_bound predicted_margin cur_tie_probability_sum : Q) : Q :=
  if use_normal m then
    cur_tie_probability_sum
    + norm_cdf cur_cdf_bound predicted_margin (prediction_error_stdev m)
    - norm_cdf (- cur_cdf_bound) predicted_margin (prediction_error_stdev m)
  else
    cur_tie_probability_sum
    + t_cdf cur_cdf_bound (prediction_error_df m) predicted_margin
        (prediction_error_stdev m)
    - t_cdf (- cur_cdf_bound) (prediction_error_df m) predicted_margin
        (prediction_error_stdev m).

(** Lines 540-560: the body of the loop over the games for one bound. *)
Definition tie_body (a : attempt_args) (m : calibration_args)
    (cur_game_season : Z) (cur_cdf_bound : Q) (acc : Q * nat) (cur_game_id : nat)
    : option (Q * nat) :=
  include ← include_game_tie a cur_game_season cur_game_id;
  if include : bool then
    g ← read_calibration_game a m cur_game_id;
    predicted_margin ← cur_game_predicted_margin m g;
    Some (tie_add m cur_cdf_bound predicted_margin (fst acc), S (snd acc))
  else Some acc.

(** Lines 537-561: the aggregate tie probability for one bound. *)
Definition cur_cdf_tie_probability (a : attempt_args) (m : calibration_args)
    (cur_game_season : Z) (cur_cdf_bound : Q) : option Q :=
  '(cur_tie_probability_sum, cur_tie_probability_n) ←
    for_each (tie_body a m cur_game_season cur_cdf_bound)
      (network_game_id_list a) (0, O);
  fdiv cur_tie_probability_sum (inject_Z (Z.of_nat cur_tie_probability_n)).

(** Lines 532-563: the search, at most [fuel] bounds.  It returns the
    previous and the current probability and the previous bound. *)
Fixpoint tie_search (fuel : nat) (a : attempt_args) (m : calibration_args)
    (cur_game_season : Z) (cur_probability cur_cdf_bound : Q)
    : outcome (Q * Q * Q) :=
  match fuel with
  | O => OutOfFuel _
  | S fuel' =>
      let prev_cdf_tie_probability := cur_probability in
      let prev_cdf_bound := cur_cdf_bound in
      let cur_cdf_bound := cur_cdf_bound + tie_cdf_search_interval m in
      match cur_cdf_tie_probability a m cur_game_season cur_cdf_bound with
      | None => Failed _
      | Some probability =>
          if Qle_bool (tie_probability m) probability
          then Returned _ (prev_cdf_tie_probability, probability, prev_cdf_bound)
          else tie_search fuel' a m cur_game_season probability cur_cdf_bound
      end
  end.

(** Line 564: the interpolation. *)
Definition interpolate (m : calibration_args) (prev_p cur_p prev_bound : Q)
    : option Q :=
  ratio ← fdiv (tie_probability m - prev_p) (cur_p - prev_p);
  Some (ratio * tie_cdf_search_interval m + prev_bound).

(** Lines 529-564, for a given fit of the margin errors: [main] gets here
    only when the fits of lines 512-521 have not raised
    ([main_tie_cdf_bound]). *)
Definition tie_cdf_bound (fuel : nat) (a : attempt_args) (m : calibration_args)
    (cur_game_season : Z) : outcome Q :=
  match tie_search fuel a m cur_game_season 0 0 with
  | Returned _ (prev_p, cur_p, prev_bound) =>
      match interpolate m prev_p cur_p prev_bound with
      | Some bound => Returned _ bound
      | None => Failed _
      end
  | Failed _ => Failed _
  | OutOfFuel _ => OutOfFuel _
  end.

(** The distribution functions of the fit do not decrease. *)
Definition cdfs_monotone (m : calibration_args) : Prop :=
  (forall x y loc, x <= y ->
     norm_cdf x loc (prediction_error_stdev m)
     <= norm_cdf y loc (prediction_error_stdev m)) /\
  (forall x y loc, x <= y ->
     t_cdf x (prediction_error_df m) loc (prediction_error_stdev m)
     <= t_cdf y (prediction_error_df m) loc (prediction_error_stdev m)).

End Calibration.

(** The bound of the search after [k] steps of [step]. *)
Fixpoint bound_at (step : Q) (k : nat) : Q :=
  match k with
  | O => 0
  | S k' => bound_at step k' + step
  end.

(** The predicted margin of a game that the search of the tie bound counts
    (lines 540-555): none when the test of lines 540-546 leaves the game
    out. *)
Definition eligible_margin (a : attempt_args) (m : calibration_args)
    (cur_game_season : Z) (cur_game_id : nat) : option (list Q) :=
  include ← include_game_tie a cur_game_season cur_game_id;
  if include : bool then
    g ← read_calibration_game a m cur_game_id;
    predicted_margin ← cur_game_predicted_margin m g;
    Some [predicted_margin]
  else Some [].

(** The predicted margins of the games that the search counts, in the order
    of the games. *)
Definition eligible_margins (a : attempt_args) (m : calibration_args)
    (cur_game_season : Z) : option (list Q) :=
  ls ← mapM (eligible_margin a m cur_game_season) (network_game_id_list a);
  Some (concat ls).

(** ** The fit of the error model and the tie bound in [main] (lines 512-564) *)

Section ErrorModel.

(** [stats.norm.cdf(x, loc, scale)] *)
Variable norm_cdf : Q -> Q -> Q -> Q.
(** [stats.t.cdf(x, df, loc, scale)] *)
Variable t_cdf : Q -> Q -> Q -> Q -> Q.
(** [np.std] of an array that is not empty. *)
Variable np_std : list Q -> Q.
(** [stats.t.fit(data, floc = 0, fscale = scale)[0]], the degrees of freedom
    of the fit; [None] when the call raises.  The scale is [None] when it is
    NaN. *)
Variable t_fit : list Q -> option Q -> option Q.

(** [np.std(l)]: NaN on an empty array. *)
Definition np_std_or_nan (l : list Q) : option Q :=
  match l with
  | [] => None
  | _ => Some (np_std l)
  end.

(** Lines 479-526: the three samples, their standard deviations and their
    fits, of which the search of the tie bound reads those of the margin
    errors.  The fields of the fit of [m] are not read: the result has them
    as lines 512-524 compute them.  [None] when the samples cannot be
    computed, when one of the three fits raises, or when the standard
    deviation of the margin errors is NaN. *)
Definition fit_prediction_errors (a : attempt_args) (m : calibration_args)
    : option calibration_args :=
  e ← calibration_errors a m;
  let prediction_error_stdev := np_std_or_nan (prediction_errors e) in
  prediction_error_df ← t_fit (prediction_errors e) prediction_error_stdev;
  let score_prediction_error_stdev := np_std_or_nan (score_prediction_errors e) in
  score_prediction_error_df ←
    t_fit (score_prediction_errors e) score_prediction_error_stdev;
  let total_score_prediction_error_stdev :=
    np_std_or_nan (total_score_prediction_errors e) in
  total_score_prediction_error_df ←
    t_fit (total_score_prediction_errors e) total_score_prediction_error_stdev;
  stdev ← prediction_error_stdev;
  Some {| unplayed_games_season := unplayed_games_season m;
          teams_in_network_reverse := teams_in_network_reverse m;
          median_team_off_ratings := median_team_off_ratings m;
          median_team_def_ratings := median_team_def_ratings m;
          median_team_ratings := median_team_ratings m;
          median_home_advantage := median_home_advantage m;
          use_normal := Qlt_bool 50 prediction_error_df;
          prediction_error_stdev := stdev;
          prediction_error_df := prediction_error_df;
          tie_probability := tie_probability m;
          tie_cdf_search_interval := tie_cdf_search_interval m |}.

(** Lines 479-564 of [main]: the samples, the fits, and the search of the
    tie bound with the fit of the margin errors and the season that the
    earlier loops left in [cur_game_season]. *)
Definition main_tie_cdf_bound (fuel : nat) (a : attempt_args)
    (m : calibration_args) : outcome Q :=
  match fit_prediction_errors a m with
  | None => Failed _
  | Some fitted =>
      match cur_game_season_at_calibration a m with
      | Some cur_game_season =>
          tie_cdf_bound norm_cdf t_cdf fuel a fitted cur_game_season
      | None =>
          (* no game at all: the search reads no season *)
          tie_cdf_bound norm_cdf t_cdf fuel a fitted 0
      end
  end.

End ErrorModel.

(** ** The search loop of [rating_attempt], whatever the arithmetic *)

(** The control of the [while] loop of [rating_attempt] (lines 50-58,
    133-158 and 170-176), with the computations on the numbers left as
    parameters: the pass over the games with the error it finds (lines
    51-131) and the update of the ratings (lines 160-169).  Nothing is
    assumed of the numbers: the errors can be binary64 values, NaN and the
    infinities included, with the test [abs_total_error <
    best_abs_total_error] as the source evaluates it.  A pass is [None] only
    when the source raises. *)
Module Search.

Section Loop.

(** The values of [abs_total_error]. *)
Variable error : Type.
(** [abs_total_error < best_abs_total_error] *)
Variable error_lt : error -> error -> bool.
(** The ratings that are saved, restored and returned together. *)
Variable ratings : Type.
(** What a pass over the games accumulates for the update. *)
Variable sums : Type.
(** What else the passes keep: the data of the first iteration and the
    state of the generator. *)
Variable store : Type.
(** Lines 51-131, given [first_iteration] and the current ratings. *)
Variable games_and_error :
  bool -> ratings -> store -> option (error * sums * store).
(** Lines 160-169 *)
Variable update_ratings : sums -> ratings -> store -> option (ratings * store).
Variable iterations_before_reset : nat.
Variable iterations_before_stop : nat.

Record loop_state := {
  loop_best : ratings;
  loop_best_abs_total_error : option error;
  loop_terminate_search : bool;
  loop_first_iteration : bool;
  loop_cur : ratings;
  loop_iterations_since_last_update : nat;
  loop_kept : store
}.

(** Lines 133-139 *)
Definition loop_update_best_stats (s : loop_state) (abs_total_error : error)
    : option bool :=
  if loop_first_iteration s then Some true
  else b ← loop_best_abs_total_error s; Some (error_lt abs_total_error b).

(** Lines 141-156 *)
Definition loop_save_or_reset (s : loop_state) (abs_total_error : error)
    (x : store) : option loop_state :=
  improved ← loop_update_best_stats s abs_total_error;
  if improved : bool then
    Some {| loop_best := loop_cur s;
            loop_best_abs_total_error := Some abs_total_error;
            loop_terminate_search := loop_terminate_search s;
            loop_first_iteration := loop_first_iteration s;
            loop_cur := loop_cur s;
            loop_iterations_since_last_update := 0;
            loop_kept := x |}
  else
    let n := S (loop_iterations_since_last_update s) in
    if (iterations_before_reset =? 0)%nat then None
    else
      Some {| loop_best := loop_best s;
              loop_best_abs_total_error := loop_best_abs_total_error s;
              loop_terminate_search := loop_terminate_search s;
              loop_first_iteration := loop_first_iteration s;
              loop_cur := if (n mod iterations_before_reset =? 0)%nat
                          then loop_best s else loop_cur s;
              loop_iterations_since_last_update := n;
              loop_kept := x |}.

(** Lines 158-174 *)
Definition loop_update_or_stop (sm : sums) (s : loop_state)
    : option loop_state :=
  if (loop_iterations_since_last_update s <? iterations_before_stop)%nat then
    '(c, x) ← update_ratings sm (loop_cur s) (loop_kept s);
    Some {| loop_best := loop_best s;
            loop_best_abs_total_error := loop_best_abs_total_error s;
            loop_terminate_search := loop_terminate_search s;
            loop_first_iteration := false;
            loop_cur := c;
            loop_iterations_since_last_update :=
              loop_iterations_since_last_update s;
            loop_kept := x |}
  else
    Some {| loop_best := loop_best s;
            loop_best_abs_total_error := loop_best_abs_total_error s;
            loop_terminate_search := true;
            loop_first_iteration := false;
            loop_cur := loop_cur s;
            loop_iterations_since_last_update :=
              loop_iterations_since_last_update s;
            loop_kept := loop_kept s |}.

(** The error that a pass from [s] finds for the current ratings of [s]. *)
Definition error_of (s : loop_state) : option error :=
  '(abs_total_error, _, _) ←
    games_and_error (loop_first_iteration s) (loop_cur s) (loop_kept s);
  Some abs_total_error.

(** One pass through the body of the [while] loop (lines 51-174). *)
Definition loop_iteration (s : loop_state) : option loop_state :=
  '(abs_total_error, sm, x) ←
    games_and_error (loop_first_iteration s) (loop_cur s) (loop_kept s);
  s1 ← loop_save_or_reset s abs_total_error x;
  loop_update_or_stop sm s1.

(** Lines 33-47, for the ratings [zero] of lines 33-35 and 42-44. *)
Definition loop_initial_state (zero : ratings) (x : store) : loop_state :=
  {| loop_best := zero; loop_best_abs_total_error := None;
     loop_terminate_search := false; loop_first_iteration := true;
     loop_cur := zero; loop_iterations_since_last_update := 0;
     loop_kept := x |}.

(** [while not terminate_search: ...], at most [fuel] passes. *)
Fixpoint loop_while_loop (fuel : nat) (s : loop_state) : outcome loop_state :=
  if loop_terminate_search s then Returned _ s
  else match fuel with
       | O => OutOfFuel _
       | S fuel' =>
           match loop_iteration s with
           | None => Failed _
           | Some s' => loop_while_loop fuel' s'
           end
       end.

(** The loop from the initial state, then line 176. *)
Definition loop_rating_attempt (fuel : nat) (zero : ratings) (x : store)
    : outcome ratings :=
  match loop_while_loop fuel (loop_initial_state zero x) with
  | Returned _ s => Returned _ (loop_best s)
  | Failed _ => Failed _
  | OutOfFuel _ => OutOfFuel _
  end.

(** The ratings that the passes of the loop from [s] start from, each with
    the error that its pass finds for it, in the order of the passes. *)
Fixpoint visited (fuel : nat) (s : loop_state) : list (ratings * error) :=
  if loop_terminate_search s then []
  else match fuel with
       | O => []
       | S fuel' =>
           match error_of s, loop_iteration s with
           | Some abs_total_error, Some s' =>
               (loop_cur s, abs_total_error) :: visited fuel' s'
           | _, _ => []
           end
       end.

(** The saved ratings are among the ratings [h] visited so far, with their
    error, and no ratings visited so far have a lower error. *)
Definition best_of (h : list (ratings * error)) (s : loop_state) : Prop :=
  exists k e,
    h !! k = Some (loop_best s, e) /\
    loop_best_abs_total_error s = Some e /\
    forall j r e', h !! j = Some (r, e') -> error_lt e' e = false.

(** The states the loop passes through from [s0]. *)
Inductive loop_reachable (s0 : loop_state) : loop_state -> Prop :=
  | loop_reachable_start : loop_reachable s0 s0
  | loop_reachable_iteration s s' :
      loop_reachable s0 s -> loop_terminate_search s = false ->
      loop_iteration s = Some s' -> loop_reachable s0 s'.

End Loop.

Arguments loop_best {error ratings store} _.
Arguments loop_best_abs_total_error {error ratings store} _.
Arguments loop_terminate_search {error ratings store} _.
Arguments loop_first_iteration {error ratings store} _.
Arguments loop_cur {error ratings store} _.
Arguments loop_iterations_since_last_update {error ratings store} _.
Arguments loop_kept {error ratings store} _.
Arguments loop_update_best_stats {error} error_lt {ratings store}
  s abs_total_error.
Arguments loop_save_or_reset {error} error_lt {ratings store}
  iterations_before_reset s abs_total_error x.
Arguments loop_update_or_stop {error ratings sums store} update_ratings
  iterations_before_stop sm s.
Arguments error_of {error ratings sums store} games_and_error s.
Arguments loop_iteration {error} error_lt {ratings sums store} games_and_error
  update_ratings iterations_before_reset iterations_before_stop s.
Arguments loop_initial_state {error ratings store} zero x.
Arguments loop_while_loop {error} error_lt {ratings sums store} games_and_error
  update_ratings iterations_before_reset iterations_before_stop fuel s.
Arguments loop_rating_attempt {error} error_lt {ratings sums store}
  games_and_error update_ratings iterations_before_reset iterations_before_stop
  fuel zero x.
Arguments visited {error} error_lt {ratings sums store} games_and_error
  update_ratings iterations_before_reset iterations_before_stop fuel s.
Arguments best_of {error} error_lt {ratings store} h s.
Arguments loop_reachable {error} error_lt {ratings sums store} games_and_error
  update_ratings iterations_before_reset iterations_before_stop s0 _.

End Search.

(** ** [rating_attempt] as an instance of the search loop *)

Section AttemptAsSearch.

Variable np_log : Q -> Q.
Variable norm_cdf : Q -> Q -> Q -> Q.
Variable rng_normal : nat -> nat -> Q -> Q -> Q.

(** Lines 51-131 in the arithmetic of the embedding: the pass over the
    games and its error; the store is the data of the first iteration and
    the number of draws. *)
Definition games_and_error (a : attempt_args) (first : bool) (c : rating_state)
    (x : first_iteration_data * nat)
    : option (Q * iteration_sums * (first_iteration_data * nat)) :=
  '(sums, fid) ← for_each (game_body np_log a first c) (network_game_id_list a)
                   (fresh_sums a, if first then fresh_stored a else fst x);
  Some (abs_total_error norm_cdf a fid sums, sums, (fid, snd x)).

(** Lines 160-169 in the arithmetic of the embedding. *)
Definition ratings_update (a : attempt_args) (sums : iteration_sums)
    (c : rating_state) (x : first_iteration_data * nat)
    : option (rating_state * (first_iteration_data * nat)) :=
  '(c', k) ← update_ratings rng_normal a (fst x) sums c (snd x);
  Some (c', (fst x, k)).

(** A state of [rating_attempt] as a state of the search loop. *)
Definition search_state (s : attempt_state)
    : Search.loop_state Q rating_state (first_iteration_data * nat) :=
  {| Search.loop_best := best s;
     Search.loop_best_abs_total_error := best_abs_total_error s;
     Search.loop_terminate_search := terminate_search s;
     Search.loop_first_iteration := first_iteration s;
     Search.loop_cur := cur s;
     Search.loop_iterations_since_last_update := iterations_since_last_update s;
     Search.loop_kept := (stored s, rng_draws s) |}.

End AttemptAsSearch.

(** ** Predicates on the states of the loop *)

(** The two arrays of errors have one entry per team. *)
Definition sums_sized (n : nat) (sums : iteration_sums) : Prop :=
  length (total_team_off_margin_error_weight sums) = n /\
  length (total_team_def_margin_error_weight sums) = n.

(** The three arrays of a rating state have one entry per team. *)
Definition ratings_sized (n : nat) (c : rating_state) : Prop :=
  length (team_off_ratings c) = n /\
  length (team_def_ratings c) = n /\
  length (team_ratings c) = n.

(** [e] is [z / G] for an integer [z] not below [-B]. *)
Definition on_grid (G B : Z) (e : Q) : Prop :=
  exists z, (- B <= z)%Z /\ e * inject_Z G == inject_Z z.

(** The place of an error on the grid, counted from the lower bound. *)
Definition rank_of (G B : Z) (e : Q) : nat :=
  Z.to_nat (Qfloor (e * inject_Z G) + B).

Definition state_rank (G B : Z) (s : attempt_state) : nat :=
  match best_abs_total_error s with
  | Some b => rank_of G B b
  | None => O
  end.

(** What holds of every state after the first iteration. *)
Definition steady (a : attempt_args) (fid0 : first_iteration_data) (G B : Z)
    (s : attempt_state) : Prop :=
  first_iteration s = false /\
  stored s = fid0 /\
  ratings_sized (length (teams_in_network a)) (cur s) /\
  ratings_sized (length (teams_in_network a)) (best s) /\
  (exists b, best_abs_total_error s = Some b /\ on_grid G B b) /\
  (if terminate_search s
   then (iterations_before_stop a <= iterations_since_last_update s)%nat
   else (iterations_since_last_update s < iterations_before_stop a)%nat).

(** What holds of every state after the first iteration, whatever the
    input. *)
Definition settled (a : attempt_args) (fid0 : first_iteration_data) (G B : Z)
    (s : attempt_state) : Prop :=
  first_iteration s = false /\
  stored s = fid0 /\
  (exists b, best_abs_total_error s = Some b /\ on_grid G B b) /\
  (if terminate_search s
   then (iterations_before_stop a <= iterations_since_last_update s)%nat
   else (iterations_since_last_update s < iterations_before_stop a)%nat).

(** A rating array is centered on zero: its mean exists and is 0. *)
Definition zero_centered (l : list Q) : Prop :=
  exists m, np_mean l = Some m /\ m == 0.

(** Both the saved and the current ratings are centered. *)
Definition centered_state (s : attempt_state) : Prop :=
  zero_centered (team_off_ratings (best s)) /\
  zero_centered (team_def_ratings (best s)) /\
  zero_centered (team_off_ratings (cur s)) /\
  zero_centered (team_def_ratings (cur s)).

(** ** Two small leagues

    External functions are replaced by simple functions on the rationals.
    The centralities are the edge betweenness values of the graphs of the
    games, split between parallel edges. *)

Module Example.

Local Open Scope string_scope.

(** Stands for [np.log]: positive above 1. *)
Definition ex_log (x : Q) : Q := x - 1.

(** Stands for [stats.norm.cdf]: a three-level step at [loc]. *)
Definition ex_norm_cdf (x loc scale : Q) : Q :=
  if Qlt_bool x loc then 0 else if Qeq_bool x loc then 1 # 2 else 1.

(** Stands for the generator: the standard draws cycle through -1, 0, 1. *)
Definition ex_rng (seed k : nat) (loc scale : Q) : Q :=
  loc + scale * inject_Z (Z.of_nat ((seed + k) mod 3) - 1).

(** Stands for a distribution function with a location and a scale: the
    uniform distribution on [[loc - 2 scale, loc + 2 scale]]. *)
Definition ex_uniform_cdf (x loc scale : Q) : Q :=
  Qmax 0 (Qmin 1 ((x - loc) / (4 * scale) + (1 # 2))).

Definition ex_t_cdf (x df loc scale : Q) : Q := ex_uniform_cdf x loc scale.

(** Three teams A, B, C (sorted by name: 0, 1, 2) and up to four games, in
    the order of the input: B against C at a neutral site in 2023, A against
    B and B against A in 2024, and a preseason game of C against A in 2024.
    [n_games] is the number of games of the input; [stdev] stands for the
    standard deviation of the margins, a square root. *)
Definition trio (n_games : nat) (centrality : gmap (nat * nat * nat) Q)
    (mean stdev prior_w : Q) : attempt_args :=
  {| attempt := 0;
     teams_in_network := [0; 1; 2]%nat;
     network_game_id_list := seq 0 n_games;
     input_games_home_id := take n_games ["B"; "A"; "B"; "C"];
     input_games_away_id := take n_games ["C"; "B"; "A"; "A"];
     input_games_home_listid := take n_games [1; 0; 1; 2]%nat;
     input_games_away_listid := take n_games [2; 1; 0; 0]%nat;
     input_games_home_score := take n_games [7; 20; 14; 10]%Z;
     input_games_away_score := take n_games [3; 10; 17; 10]%Z;
     input_games_season := take n_games [2023; 2024; 2024; 2024]%Z;
     input_games_is_neutral_site := take n_games [true; false; false; false];
     input_games_is_preseason := take n_games [false; false; false; true];
     id_to_index := {[ "A" := 0%nat; "B" := 1%nat; "C" := 2%nat ]};
     id_to_all_index := {[ "A" := 0%nat; "B" := 1%nat; "C" := 2%nat ]};
     season_to_rank := 2024;
     preseason_weight := 1 # 4;
     prior_season_weight := prior_w;
     prior_preseason_weight := 1 # 8;
     use_preseason_var := true;
     game_network_edge_centrality := centrality;
     network_game_score_mean := mean;
     network_game_margin_stdev := stdev;
     iterations_before_reset := 200;
     iterations_before_stop := 1000;
     rating_adjustment_scale := 20 * (27 / stdev) |}.

(** All four games, the earlier season at half weight.  The graph is a
    triangle with a double edge between A and B. *)
Definition league : attempt_args :=
  trio 4 {[ (0, 1, 0)%nat := 1 # 6; (0, 1, 1)%nat := 1 # 6;
            (1, 2, 0)%nat := 1 # 3; (0, 2, 0)%nat := 1 # 3 ]}
       (91 # 8) (28 # 5) (1 # 2).

(** The first three games, the earlier season at weight 0: the only game of
    C has weight 0.  The graph is a path with a double edge between A and
    B. *)
Definition league_zero : attempt_args :=
  trio 3 {[ (0, 1, 0)%nat := 1 # 3; (0, 1, 1)%nat := 1 # 3;
            (1, 2, 0)%nat := 2 # 3 ]}
       (71 # 6) (13 # 2) 0.

(** Two teams that meet twice in 2024, the home team winning 15-12 both
    times; an adjustment scale of 1, a reset after every iteration that does
    not improve, and a stop after two of them. *)
Definition league_pair : attempt_args :=
  {| attempt := 0;
     teams_in_network := [0; 1]%nat;
     network_game_id_list := [0; 1]%nat;
     input_games_home_id := ["A"; "B"];
     input_games_away_id := ["B"; "A"];
     input_games_home_listid := [0; 1]%nat;
     input_games_away_listid := [1; 0]%nat;
     input_games_home_score := [15; 15]%Z;
     input_games_away_score := [12; 12]%Z;
     input_games_season := [2024; 2024]%Z;
     input_games_is_neutral_site := [false; false];
     input_games_is_preseason := [false; false];
     id_to_index := {[ "A" := 0%nat; "B" := 1%nat ]};
     id_to_all_index := {[ "A" := 0%nat; "B" := 1%nat ]};
     season_to_rank := 2024;
     preseason_weight := 1 # 4;
     prior_season_weight := 1 # 2;
     prior_preseason_weight := 1 # 8;
     use_preseason_var := true;
     game_network_edge_centrality :=
       {[ (0, 1, 0)%nat := 1 # 2; (0, 1, 1)%nat := 1 # 2 ]};
     network_game_score_mean := 27 # 2;
     network_game_margin_stdev := 3;
     iterations_before_reset := 1;
     iterations_before_stop := 2;
     rating_adjustment_scale := 1 |}.

(** Medians of the attempts for the three teams; no unplayed game. *)
Definition medians3 : calibration_args :=
  {| unplayed_games_season := [];
     teams_in_network_reverse := [Some 0; Some 1; Some 2]%nat;
     median_team_off_ratings := [2; 0; -2];
     median_team_def_ratings := [1; 0; -1];
     median_team_ratings := [3; 0; -3];
     median_home_advantage := 3;
     use_normal := true;
     prediction_error_stdev := 5;
     prediction_error_df := 100;
     tie_probability := 1 # 100;
     tie_cdf_search_interval := 1 # 1000 |}.

(** Medians for the two teams of [league_pair]. *)
Definition medians2 : calibration_args :=
  {| unplayed_games_season := [];
     teams_in_network_reverse := [Some 0; Some 1]%nat;
     median_team_off_ratings := [3; -3];
     median_team_def_ratings := [2; -2];
     median_team_ratings := [5; -5];
     median_home_advantage := 4;
     use_normal := true;
     prediction_error_stdev := 5;
     prediction_error_df := 100;
     tie_probability := 1 # 100;
     tie_cdf_search_interval := 1 # 1000 |}.

(** The first game of [league_pair] as the calibration reads it. *)
Definition pair_game : calibration_reads :=
  {| cal_homeidx := 0; cal_awayidx := 1;
     cal_home_score := 15; cal_away_score := 12;
     cal_is_neutral_site := false |}.

(** Medians for [league_pair] that fit the two results almost exactly: a
    home advantage of 3 and a difference of 1/100 between the teams, so the
    predicted margins are 3 + 1/100 and 3 - 1/100 and the margin errors
    1/100 and -1/100, of standard deviation 1/100.  The search looks for a
    tie probability of 3/10 in steps of 1/10. *)
Definition medians_close : calibration_args :=
  {| unplayed_games_season := [];
     teams_in_network_reverse := [Some 0; Some 1]%nat;
     median_team_off_ratings := [1 # 200; - (1 # 200)];
     median_team_def_ratings := [0; 0];
     median_team_ratings := [1 # 200; - (1 # 200)];
     median_home_advantage := 3;
     use_normal := true;
     prediction_error_stdev := 1 # 100;
     prediction_error_df := 100;
     tie_probability := 3 # 10;
     tie_cdf_search_interval := 1 # 10 |}.

(** Stands for [np.std]: the square root of the variance when the variance
    is the square of a rational, and otherwise a rational that is 0 only for
    a variance of 0. *)
Definition ex_np_std (l : list Q) : Q :=
  match np_mean l with
  | Some mu =>
      let v := Qred (np_sum (map (fun x => (x - mu) * (x - mu)) l)
                     / inject_Z (Z.of_nat (length l))) in
      Z.sqrt (Qnum v) # Pos.sqrt (Qden v)
  | None => 0
  end.

(** Stands for [stats.t.fit]: it raises for a scale that is NaN or 0, and
    otherwise finds 100 degrees of freedom. *)
Definition ex_t_fit (data : list Q) (scale : option Q) : option Q :=
  match scale with
  | Some sigma => if Qeq_bool sigma 0 then None else Some 100
  | None => None
  end.

(** Two teams that meet twice in 2024: A wins 15-12 at home, then B wins
    13-12 at home.  [network_game_margin_stdev] stands for a square root. *)
Definition league_return : attempt_args :=
  {| attempt := 0;
     teams_in_network := [0; 1]%nat;
     network_game_id_list := [0; 1]%nat;
     input_games_home_id := ["A"; "B"];
     input_games_away_id := ["B"; "A"];
     input_games_home_listid := [0; 1]%nat;
     input_games_away_listid := [1; 0]%nat;
     input_games_home_score := [15; 13]%Z;
     input_games_away_score := [12; 12]%Z;
     input_games_season := [2024; 2024]%Z;
     input_games_is_neutral_site := [false; false];
     input_games_is_preseason := [false; false];
     id_to_index := {[ "A" := 0%nat; "B" := 1%nat ]};
     id_to_all_index := {[ "A" := 0%nat; "B" := 1%nat ]};
     season_to_rank := 2024;
     preseason_weight := 1 # 4;
     prior_season_weight := 1 # 2;
     prior_preseason_weight := 1 # 8;
     use_preseason_var := true;
     game_network_edge_centrality :=
       {[ (0, 1, 0)%nat := 1 # 2; (0, 1, 1)%nat := 1 # 2 ]};
     network_game_score_mean := 13;
     network_game_margin_stdev := 9 # 4;
     iterations_before_reset := 1;
     iterations_before_stop := 2;
     rating_adjustment_scale := 1 |}.

(** Medians for [league_return] that fit the two margins almost exactly: a
    home advantage of 2 and a difference of 101/100 between the teams, so
    the predicted margins are 3 + 1/100 and 1 - 1/100 and the margin errors
    1/100 and -1/100, of standard deviation 1/100.  The score errors are
    -99/200, -101/200, 99/200 and 101/200 and the total score errors -1 and
    1: no sample is constant.  The search looks for a tie probability of
    3/10 in steps of 1/10; the fields of the fit are still to be computed. *)
Definition medians_return : calibration_args :=
  {| unplayed_games_season := [];
     teams_in_network_reverse := [Some 0; Some 1]%nat;
     median_team_off_ratings := [101 # 200; - (101 # 200)];
     median_team_def_ratings := [0; 0];
     median_team_ratings := [101 # 200; - (101 # 200)];
     median_home_advantage := 2;
     use_normal := false;
     prediction_error_stdev := 0;
     prediction_error_df := 0;
     tie_probability := 3 # 10;
     tie_cdf_search_interval := 1 # 10 |}.

(** The state after [n] passes of the loop. *)
Fixpoint after (n : nat) (a : attempt_args) : option attempt_state :=
  match n with
  | O => Some (initial_state a)
  | S n' => s ← after n' a; iteration ex_log ex_norm_cdf ex_rng a s
  end.

End Example.


(** ** The rules in the words of the specification *)

Module Spec.

(** The policy weight of a game of season [season] with preseason flag
    [is_preseason]: 1 in the target season, [preseason_weight] for a
    preseason game of the target season when preseason games are tracked,
    [prior_season_weight] for an earlier season, [prior_preseason_weight] if
    the game is also a preseason game, 0 for a later season. *)
Definition policy_weight (a : attempt_args) (season : Z) (is_preseason : bool) : Q :=
  if (season =? season_to_rank a)%Z then
    if is_preseason && use_preseason_var a then preseason_weight a else 1
  else if (season <? season_to_rank a)%Z then
    if is_preseason then prior_preseason_weight a else prior_season_weight a
  else 0.

(** [max(off[home] + (neutral ? 0 : home_adv/2) - def[away] + league_mean_score, 0)] *)
Definition pred_home (off_home def_away home_adv league_mean_score : Q)
    (neutral : bool) : Q :=
  Qmax (off_home + (if neutral then 0 else home_adv / 2) - def_away
        + league_mean_score) 0.

(** [max(off[away] - (neutral ? 0 : home_adv/2) - def[home] + league_mean_score, 0)] *)
Definition pred_away (off_away def_home home_adv league_mean_score : Q)
    (neutral : bool) : Q :=
  Qmax (off_away - (if neutral then 0 else home_adv / 2) - def_home
        + league_mean_score) 0.

End Spec.

(** ** More predicates on the states of the loop *)

(** The overall ratings are the sums of the offense and defense ratings. *)
Definition overall_consistent (c : rating_state) : Prop :=
  team_ratings c = np_add (team_off_ratings c) (team_def_ratings c).

(** The lists that the first iteration stores have one entry per game. *)
Definition stored_per_game (n_games : nat) (fid : first_iteration_data) : Prop :=
  length (home_actual_margin_list fid) = n_games /\
  length (gt_game_weight_list fid) = n_games /\
  length (home_actual_off_score_list fid) = n_games /\
  length (home_actual_def_score_list fid) = n_games.

(** The lists of predictions of an iteration have one entry per game. *)
Definition predicted_per_game (n_games : nat) (sums : iteration_sums) : Prop :=
  length (home_predicted_margin_list sums) = n_games /\
  length (home_predicted_off_score_list sums) = n_games /\
  length (home_predicted_def_score_list sums) = n_games.

(** [np.clip(x, lo, hi)]: [minimum(maximum(x, lo), hi)] *)
Definition np_clip (x lo hi : Q) : Q := Qmin (Qmax x lo) hi.

(** The three samples of errors belong together: two score errors and one
    total error for every margin error. *)
Definition samples_aligned (e : error_samples) : Prop :=
  length (score_prediction_errors e) = (2 * length (prediction_errors e))%nat /\
  length (total_score_prediction_errors e) = length (prediction_errors e).

(** The distribution functions of the fit take their values in [[0, 1]]. *)
Definition cdfs_in_unit_interval (norm_cdf : Q -> Q -> Q -> Q)
    (t_cdf : Q -> Q -> Q -> Q -> Q) (m : calibration_args) : Prop :=
  (forall x loc, 0 <= norm_cdf x loc (prediction_error_stdev m) /\
                 norm_cdf x loc (prediction_error_stdev m) <= 1) /\
  (forall x loc,
     0 <= t_cdf x (prediction_error_df m) loc (prediction_error_stdev m) /\
     t_cdf x (prediction_error_df m) loc (prediction_error_stdev m) <= 1).

(** * The rest of [main]

    ** Operations of Python and NumPy on lists and dicts *)

Module Py.

(** [l.index(x)]: the first position of [x]; [ValueError] when [x] is not
    in [l]. *)
Fixpoint index {A : Type} `{EqDecision A} (x : A) (l : list A) : option nat :=
  match l with
  | [] => None
  | y :: l' => if decide (x = y) then Some 0%nat else S <$> index x l'
  end.

(** [l.count(x)] *)
Fixpoint count {A : Type} `{EqDecision A} (x : A) (l : list A) : nat :=
  match l with
  | [] => 0
  | y :: l' => if decide (x = y) then S (count x l') else count x l'
  end.

(** [l[i] = x]; [IndexError] out of range. *)
Definition set_item {A : Type} (l : list A) (i : nat) (x : A) : option (list A) :=
  if decide (i < length l)%nat then Some (<[i := x]> l) else None.

(** [dict(pairs)]: a later pair replaces an earlier one with the same key. *)
Definition dict {K V : Type} `{Countable K} (pairs : list (K * V)) : gmap K V :=
  foldl (fun d p => <[p.1 := p.2]> d) ∅ pairs.

(** [{x: y for y, x in d.items()}].  The dict that [main] inverts and then
    reads has no value twice, so that the order of the items does not
    matter. *)
Definition invert {K V : Type} `{Countable K} `{Countable V} (d : gmap K V)
    : gmap V K :=
  list_to_map (prod_swap <$> map_to_list d).

(** [enumerate(l)] *)
Definition enumerate {A : Type} (l : list A) : list (nat * A) :=
  imap (fun i x => (i, x)) l.

(** [sorted(l, key = lambda x: x[1], reverse = True)]: by decreasing key,
    entries with equal keys in the order of [l]. *)
Fixpoint insert_by_key_reverse {A : Type} (x : A * Q) (l : list (A * Q))
    : list (A * Q) :=
  match l with
  | [] => [x]
  | y :: l' => if Qlt_bool x.2 y.2 then y :: insert_by_key_reverse x l' else x :: l
  end.

Definition sorted_by_key_reverse {A : Type} (l : list (A * Q)) : list (A * Q) :=
  foldr insert_by_key_reverse [] l.

(** [np.sort] of an array of numbers. *)
Fixpoint insert_number (x : Q) (l : list Q) : list Q :=
  match l with
  | [] => [x]
  | y :: l' => if Qle_bool x y then x :: l else y :: insert_number x l'
  end.

Definition np_sort (l : list Q) : list Q := foldr insert_number [] l.

(** [np.median] of an array of numbers: the middle value of the sorted
    array, or the mean of the two middle values; NaN on an empty array. *)
Definition np_median (l : list Q) : option Q :=
  let s := np_sort l in
  let n := length l in
  if (n =? 0)%nat then None
  else if Nat.odd n then s !! (n / 2)%nat
  else lo ← s !! (n / 2 - 1)%nat; hi ← s !! (n / 2)%nat; Some ((lo + hi) / 2).

(** [np.median(np.array(rows), axis = 0)]: the median of every column.  The
    rows have one length, or [np.array] raises; with no row at all line 464
    has raised before. *)
Definition np_median_axis0 (rows : list (list Q)) : option (list Q) :=
  match rows with
  | [] => None
  | row0 :: _ =>
      if forallb (fun row => (length row =? length row0)%nat) rows then
        mapM (fun j => column ← mapM (fun row => row !! j) rows; np_median column)
          (seq 0 (length row0))
      else None
  end.

(** [sorted(l, key = lambda x: x[0])] on pairs whose first component is a
    string: by increasing key, entries with equal keys in the order of
    [l]. *)
Fixpoint insert_by_name {A : Type} (x : string * A) (l : list (string * A))
    : list (string * A) :=
  match l with
  | [] => [x]
  | y :: l' => if String.leb x.1 y.1 then x :: l else y :: insert_by_name x l'
  end.

Definition sorted_by_name {A : Type} (l : list (string * A)) : list (string * A) :=
  foldr insert_by_name [] l.

(** [range(start, stop - 1, -1)]: from [start] down to [stop]. *)
Definition range_down (start stop : Z) : list Z :=
  (fun k => (start - Z.of_nat k)%Z) <$> seq 0 (Z.to_nat (start - stop + 1)).
End Py.

(** ** The games of the input file *)

(** The fields of a game of the input file that the filters read.  A field
    that can be [null] is an [option]; the scores, the season and the three
    fields of the date hold integers.  Every game has the same keys. *)
Record input_game := {
  IsCompleted : bool;
  HomeScore : option Z;
  AwayScore : option Z;
  IsNeutralSite : option bool;
  Season : option Z;
  Year : option Z;
  Month : option Z;
  Day : option Z;
  IsPreseason : option bool;
  IsPostponed : bool;
  HomeID : option string;
  AwayID : option string
}.

(** The columns of the loaded games that the filters guard:
    [use_preseason_var], [input_games_home_score], [input_games_away_score],
    [input_games_is_neutral_site], [input_games_season],
    [input_games_is_preseason] and [unplayed_games_season]. *)
Record loaded_games := {
  loaded_use_preseason_var : bool;
  loaded_home_score : list Z;
  loaded_away_score : list Z;
  loaded_is_neutral_site : list bool;
  loaded_season : list Z;
  loaded_is_preseason : list bool;
  loaded_unplayed_season : list Z
}.

(** The ids, the names and the season of a game, played or unplayed, as
    the loops of lines 345-367 read them from five columns of one length. *)
Record game_teams := {
  game_home_id : string;
  game_away_id : string;
  game_home_name : string;
  game_away_name : string;
  game_season : Z
}.

(** ** What [main] computes around the attempts *)

Module Main.

Section Loading.

(** [datetime.date(year, month, day) <= final_date_to_rank]; the constructor
    raises on a date that does not exist. *)
Variable date_not_after_final : Z -> Z -> Z -> option bool.

Variables season_to_rank earliest_season : Z.
(** [data_keys.count('IsPreseason')], [data_keys.count('IsPostponed')] *)
Variables has_preseason_key has_postponed_key : bool.
Variable use_team_id : bool.

(** [x is not None] *)
Definition is_not_none {A : Type} (x : option A) : bool :=
  match x with Some _ => true | None => false end.

(** Lines 239-248: the three refinements of an entry of a filter. *)
Definition refine_filter (r : input_game) (passes : bool) : bool :=
  let passes :=
    if has_preseason_key then is_not_none (IsPreseason r) && passes else passes in
  let passes :=
    if has_postponed_key then negb (IsPostponed r) && passes else passes in
  if use_team_id
  then is_not_none (HomeID r) && is_not_none (AwayID r) && passes
  else passes.

(** Line 237.  [all] gets the list of the seven tests, so that the date is
    built whenever the three fields of the date are present. *)
Definition game_filter (r : input_game) : option bool :=
  date_test ←
    match Year r, Month r, Day r with
    | Some year, Some month, Some day => date_not_after_final year month day
    | _, _, _ => Some false
    end;
  let season_test :=
    match Season r with
    | Some season => (earliest_season <=? season)%Z && (season <=? season_to_rank)%Z
    | None => false
    end in
  Some (refine_filter r
          (IsCompleted r && is_not_none (HomeScore r) && is_not_none (AwayScore r)
           && is_not_none (IsNeutralSite r) && is_not_none (Season r)
           && date_test && season_test)).

(** Line 238 *)
Definition unplayed_game_filter (r : input_game) : bool :=
  let season_test :=
    match Season r with
    | Some season => (season_to_rank <=? season)%Z
    | None => false
    end in
  refine_filter r
    (negb (IsCompleted r) && is_not_none (IsNeutralSite r) && is_not_none (Season r)
     && (is_not_none (Year r) && is_not_none (Month r) && is_not_none (Day r))
     && season_test).

(** [[input_data[x[0]][field] for x in game_filter if x[1]]] *)
Definition column {A : Type} (field : input_game -> option A)
    (rows : list (input_game * bool)) : option (list A) :=
  mapM (fun x : input_game * bool => field x.1) (filter (fun x => x.2 = true) rows).

(** Lines 237-259 and 298-300.  [use_preseason_var] is assigned only under
    the test of line 239; without the key the test of line 256 reads a name
    that is not bound.  Line 298 builds the dates of the unplayed games that
    pass the filter. *)
Definition load_games (input_data : list input_game) : option loaded_games :=
  passes ← mapM game_filter input_data;
  let game_rows := zip input_data passes in
  let unplayed_rows := zip input_data (unplayed_game_filter <$> input_data) in
  if has_preseason_key then
    home_score ← column HomeScore game_rows;
    away_score ← column AwayScore game_rows;
    is_neutral_site ← column IsNeutralSite game_rows;
    season ← column Season game_rows;
    is_preseason ← column IsPreseason game_rows;
    unplayed_date ←
      column (fun r => year ← Year r; month ← Month r; day ← Day r;
                       date_not_after_final year month day) unplayed_rows;
    unplayed_season ← column Season unplayed_rows;
    Some {| loaded_use_preseason_var := true;
            loaded_home_score := home_score;
            loaded_away_score := away_score;
            loaded_is_neutral_site := is_neutral_site;
            loaded_season := season;
            loaded_is_preseason := is_preseason;
            loaded_unplayed_season := unplayed_season |}
  else None.

End Loading.

(** Lines 353-356 (and 364-367): a team gets a name the first time its id
    is seen.  The dict is a list of pairs in the order of insertion. *)
Definition link_team (team_id_name_links : list (string * string))
    (id name : string) : list (string * string) :=
  if decide (id ∈ team_id_name_links.*1) then team_id_name_links
  else team_id_name_links ++ [(id, name)].

(** Lines 346-356 (and 357-367): the games of one season. *)
Definition link_games (cur_season : Z) (games : list game_teams)
    (team_id_name_links : list (string * string)) : list (string * string) :=
  foldl (fun links g =>
           if (cur_season =? game_season g)%Z then
             link_team (link_team links (game_home_id g) (game_home_name g))
               (game_away_id g) (game_away_name g)
           else links)
    team_id_name_links games.

(** Lines 344-367: from the season to rank down to the earliest season,
    first the played and then the unplayed games. *)
Definition team_id_name_links (season_to_rank earliest_season : Z)
    (played unplayed : list game_teams) : list (string * string) :=
  foldl (fun links cur_season =>
           link_games cur_season unplayed (link_games cur_season played links))
    [] (Py.range_down season_to_rank earliest_season).

(** Line 369: the ids in the order of the names. *)
Definition all_team_list_by_id (season_to_rank earliest_season : Z)
    (played unplayed : list game_teams) : list string :=
  (Py.sorted_by_name
     ((fun x : string * string => (x.2, x.1))
        <$> team_id_name_links season_to_rank earliest_season played unplayed)).*2.
(** Line 371, teams matched by name:
    [sorted(list(set(input_games_home_id + input_games_away_id)))] *)
Definition all_team_list (input_games_home_id input_games_away_id : list string)
    : list string :=
  merge_sort String.le (remove_dups (input_games_home_id ++ input_games_away_id)).

(** Lines 410-411: [[all_team_list.index(x) for x in input_games_home_id]] *)
Definition input_games_listid (all_team_list input_games_id : list string)
    : option (list nat) :=
  mapM (fun x => Py.index x all_team_list) input_games_id.

(** [[all_team_list[x] for x in teams_in_network]] *)
Definition network_team_ids (all_team_list : list string)
    (teams_in_network : list nat) : option (list string) :=
  mapM (fun x => all_team_list !! x) teams_in_network.

(** Line 427 *)
Definition id_to_all_index (all_team_list : list string)
    (teams_in_network : list nat) : option (gmap string nat) :=
  pairs ← mapM (fun x => id ← all_team_list !! x; Some (id, x)) teams_in_network;
  Some (Py.dict pairs).

(** Line 428 *)
Definition id_to_index (all_team_list : list string)
    (teams_in_network : list nat) : option (gmap string nat) :=
  ids ← network_team_ids all_team_list teams_in_network;
  Some (Py.dict ((fun y => (y.2, y.1)) <$> Py.enumerate ids)).

(** Line 430 *)
Definition index_to_id (id_to_index : gmap string nat) : gmap nat string :=
  Py.invert id_to_index.

(** Line 433: the games whose two teams are in the network. *)
Definition network_game_id_list (teams_in_network : list nat) (n_games : nat)
    (input_games_home_listid input_games_away_listid : list nat)
    : option (list nat) :=
  for_each (fun acc x =>
              home ← input_games_home_listid !! x;
              if (0 <? Py.count home teams_in_network)%nat then
                away ← input_games_away_listid !! x;
                Some (if (0 <? Py.count away teams_in_network)%nat
                      then acc ++ [x] else acc)
              else Some acc)
    (seq 0 n_games) [].

(** Lines 444-446, with the constants of lines 184-187.  A standard
    deviation of 0 gives the infinite [27 / 0.0], which [min] replaces by the
    cap. *)
Definition rating_adjustment_scale (network_game_margin_stdev : Q) : Q :=
  let rating_adjustment_scale_baseline := 20 in
  let rating_adjustment_scale_factor := 27 in
  let rating_adjustment_scale_cap := 100 in
  if Qeq_bool network_game_margin_stdev 0 then rating_adjustment_scale_cap
  else
    let scale := rating_adjustment_scale_baseline
                 * (rating_adjustment_scale_factor / network_game_margin_stdev) in
    if Qlt_bool rating_adjustment_scale_cap scale
    then rating_adjustment_scale_cap else scale.

(** Lines 449-451 *)
Definition teams_in_network_reverse (all_team_list : list string)
    (teams_in_network : list nat) : option (list (option nat)) :=
  for_each (fun reverse cur_team =>
              idx ← Py.index cur_team teams_in_network;
              Py.set_item reverse cur_team (Some idx))
    teams_in_network (replicate (length all_team_list) None).

(** Line 598: the rank and the team of every row, the best rating first. *)
Definition team_rating_list (teams_in_network : list nat)
    (median_team_ratings : list Q) : list (nat * nat) :=
  (fun x => (S x.1, x.2.1))
    <$> Py.enumerate (Py.sorted_by_key_reverse (zip teams_in_network median_team_ratings)).

(** Lines 601-610: the rank, the id, the index and the rating that are
    written for every row of [team_rating_list]; the name, the division and
    the conference of the team are left out. *)
Definition team_ratings_output (teams_in_network_reverse : list (option nat))
    (index_to_id : gmap nat string) (median_team_ratings : list Q)
    (team_rating_list : list (nat * nat))
    : option (list (nat * string * nat * Q)) :=
  mapM (fun team_rank_row : nat * nat =>
          team_idx ← mjoin (teams_in_network_reverse !! team_rank_row.2);
          team_id ← index_to_id !! team_idx;
          rating ← median_team_ratings !! team_idx;
          Some (team_rank_row.1, team_id, team_idx, rating))
    team_rating_list.
(** Lines 693-708: is the game listed in the past schedule of [team_id]?
    The test on [prior_preseason_weight] reads [cur_game_season] before line
    705 assigns the season of the game to it.  The result is the decision
    and the new value of the variable. *)
Definition past_schedule_include (all_team_list : list string) (a : attempt_args)
    (team_id : string) (cur_game_season : Z) (cur_game_id : nat)
    : option (bool * Z) :=
  home_listid ← input_games_home_listid a !! cur_game_id;
  cur_game_homeid ← all_team_list !! home_listid;
  away_listid ← input_games_away_listid a !! cur_game_id;
  cur_game_awayid ← all_team_list !! away_listid;
  let include0 :=
    if bool_decide (cur_game_homeid <> team_id)
       && bool_decide (cur_game_awayid <> team_id)
    then false else true in
  include1 ←
    (if use_preseason_var a then
       cur_game_is_preseason ← input_games_is_preseason a !! cur_game_id;
       let include1 :=
         if (cur_game_is_preseason : bool) && Qeq_bool (preseason_weight a) 0
         then false else include0 in
       Some (if (cur_game_season <? season_to_rank a)%Z
                && Qeq_bool (prior_preseason_weight a) 0
                && cur_game_is_preseason
             then false else include1)
     else Some include0);
  season ← input_games_season a !! cur_game_id;
  Some (if (season <? season_to_rank a)%Z && Qeq_bool (prior_season_weight a) 0
        then false else include1,
        season).

End Main.

(** The index tables of [a] and [m] are the ones that [main] builds from the
    list of all teams. *)
Definition built_by_main (all_team_list : list string) (a : attempt_args)
    (m : calibration_args) : Prop :=
  Main.input_games_listid all_team_list (input_games_home_id a)
  = Some (input_games_home_listid a) /\
  Main.input_games_listid all_team_list (input_games_away_id a)
  = Some (input_games_away_listid a) /\
  Main.id_to_all_index all_team_list (teams_in_network a) = Some (id_to_all_index a) /\
  Main.id_to_index all_team_list (teams_in_network a) = Some (id_to_index a) /\
  Main.network_game_id_list (teams_in_network a) (length (input_games_home_score a))
    (input_games_home_listid a) (input_games_away_listid a)
  = Some (network_game_id_list a) /\
  Main.teams_in_network_reverse all_team_list (teams_in_network a)
  = Some (teams_in_network_reverse m).

(** ** More small inputs *)

Module MoreExamples.

Import Example.
Local Open Scope string_scope.

(** [league_pair] with both games at a neutral site. *)
Definition league_neutral : attempt_args :=
  {| attempt := 0;
     teams_in_network := [0; 1]%nat;
     network_game_id_list := [0; 1]%nat;
     input_games_home_id := ["A"; "B"];
     input_games_away_id := ["B"; "A"];
     input_games_home_listid := [0; 1]%nat;
     input_games_away_listid := [1; 0]%nat;
     input_games_home_score := [15; 15]%Z;
     input_games_away_score := [12; 12]%Z;
     input_games_season := [2024; 2024]%Z;
     input_games_is_neutral_site := [true; true];
     input_games_is_preseason := [false; false];
     id_to_index := {[ "A" := 0%nat; "B" := 1%nat ]};
     id_to_all_index := {[ "A" := 0%nat; "B" := 1%nat ]};
     season_to_rank := 2024;
     preseason_weight := 1 # 4;
     prior_season_weight := 1 # 2;
     prior_preseason_weight := 1 # 8;
     use_preseason_var := true;
     game_network_edge_centrality :=
       {[ (0, 1, 0)%nat := 1 # 2; (0, 1, 1)%nat := 1 # 2 ]};
     network_game_score_mean := 27 # 2;
     network_game_margin_stdev := 3;
     iterations_before_reset := 1;
     iterations_before_stop := 2;
     rating_adjustment_scale := 1 |}.

(** Two teams and a single game between them: the only edge of the graph
    carries every shortest path, its centrality is 1. *)
Definition league_single : attempt_args :=
  {| attempt := 0;
     teams_in_network := [0; 1]%nat;
     network_game_id_list := [0]%nat;
     input_games_home_id := ["A"];
     input_games_away_id := ["B"];
     input_games_home_listid := [0]%nat;
     input_games_away_listid := [1]%nat;
     input_games_home_score := [15]%Z;
     input_games_away_score := [12]%Z;
     input_games_season := [2024]%Z;
     input_games_is_neutral_site := [false];
     input_games_is_preseason := [false];
     id_to_index := {[ "A" := 0%nat; "B" := 1%nat ]};
     id_to_all_index := {[ "A" := 0%nat; "B" := 1%nat ]};
     season_to_rank := 2024;
     preseason_weight := 1 # 4;
     prior_season_weight := 1 # 2;
     prior_preseason_weight := 1 # 8;
     use_preseason_var := true;
     game_network_edge_centrality := {[ (0, 1, 0)%nat := 1 ]};
     network_game_score_mean := 27 # 2;
     network_game_margin_stdev := 3;
     iterations_before_reset := 200;
     iterations_before_stop := 1000;
     rating_adjustment_scale := 100 |}.

(** The three games of [league_zero] with the game of 2023 last in the
    input: the season that the loops of lines 382-407 leave in
    [cur_game_season] is 2023. *)
Definition league_late : attempt_args :=
  {| attempt := 0;
     teams_in_network := [0; 1; 2]%nat;
     network_game_id_list := [0; 1; 2]%nat;
     input_games_home_id := ["A"; "B"; "B"];
     input_games_away_id := ["B"; "A"; "C"];
     input_games_home_listid := [0; 1; 1]%nat;
     input_games_away_listid := [1; 0; 2]%nat;
     input_games_home_score := [20; 14; 7]%Z;
     input_games_away_score := [10; 17; 3]%Z;
     input_games_season := [2024; 2024; 2023]%Z;
     input_games_is_neutral_site := [false; false; true];
     input_games_is_preseason := [false; false; false];
     id_to_index := {[ "A" := 0%nat; "B" := 1%nat; "C" := 2%nat ]};
     id_to_all_index := {[ "A" := 0%nat; "B" := 1%nat; "C" := 2%nat ]};
     season_to_rank := 2024;
     preseason_weight := 1 # 4;
     prior_season_weight := 0;
     prior_preseason_weight := 1 # 8;
     use_preseason_var := true;
     game_network_edge_centrality :=
       {[ (0, 1, 0)%nat := 1 # 3; (0, 1, 1)%nat := 1 # 3; (1, 2, 0)%nat := 2 # 3 ]};
     network_game_score_mean := 71 # 6;
     network_game_margin_stdev := 13 # 2;
     iterations_before_reset := 200;
     iterations_before_stop := 1000;
     rating_adjustment_scale := 20 * (27 / (13 # 2)) |}.

(** The list of all teams of the leagues of three teams. *)
Definition all_teams : list string := ["A"; "B"; "C"].

(** [medians3] with one unplayed game of the season 2024. *)
Definition medians3_unplayed : calibration_args :=
  {| unplayed_games_season := [2024]%Z;
     teams_in_network_reverse := [Some 0; Some 1; Some 2]%nat;
     median_team_off_ratings := [2; 0; -2];
     median_team_def_ratings := [1; 0; -1];
     median_team_ratings := [3; 0; -3];
     median_home_advantage := 3;
     use_normal := true;
     prediction_error_stdev := 5;
     prediction_error_df := 100;
     tie_probability := 1 # 100;
     tie_cdf_search_interval := 1 # 1000 |}.

(** [medians_close] with a target tie probability of 3/2. *)
Definition medians_high : calibration_args :=
  {| unplayed_games_season := [];
     teams_in_network_reverse := [Some 0; Some 1]%nat;
     median_team_off_ratings := [1 # 200; - (1 # 200)];
     median_team_def_ratings := [0; 0];
     median_team_ratings := [1 # 200; - (1 # 200)];
     median_home_advantage := 3;
     use_normal := true;
     prediction_error_stdev := 1 # 100;
     prediction_error_df := 100;
     tie_probability := 3 # 2;
     tie_cdf_search_interval := 1 # 10 |}.

(** [medians_close] with a target tie probability of -1/10 and steps of
    4. *)
Definition medians_negative : calibration_args :=
  {| unplayed_games_season := [];
     teams_in_network_reverse := [Some 0; Some 1]%nat;
     median_team_off_ratings := [1 # 200; - (1 # 200)];
     median_team_def_ratings := [0; 0];
     median_team_ratings := [1 # 200; - (1 # 200)];
     median_home_advantage := 3;
     use_normal := true;
     prediction_error_stdev := 1 # 100;
     prediction_error_df := 100;
     tie_probability := - (1 # 10);
     tie_cdf_search_interval := 4 |}.

(** Stands for the comparison of dates with the final date 2024-12-31; a
    month outside 1..12 or a day outside 1..31 does not exist. *)
Definition ex_date_not_after_final (year month day : Z) : option bool :=
  if ((1 <=? month) && (month <=? 12) && (1 <=? day) && (day <=? 31))%Z
  then Some (year <=? 2024)%Z
  else None.

(** A game of the input file between A and B. *)
Definition ex_game (completed : bool) (home away : option Z) (season year : Z)
    : input_game :=
  {| IsCompleted := completed;
     HomeScore := home; AwayScore := away;
     IsNeutralSite := Some false;
     Season := Some season;
     Year := Some year; Month := Some 10%Z; Day := Some 5%Z;
     IsPreseason := Some false;
     IsPostponed := false;
     HomeID := Some "A"; AwayID := Some "B" |}.

(** An input file: a game of 2022, before the earliest season 2023; games
    of 2023 and 2024; an unplayed game of 2024; a game of the season 2024
    played in 2025, after the final date. *)
Definition ex_input_data : list input_game :=
  [ ex_game true (Some 21%Z) (Some 7%Z) 2022 2022;
    ex_game true (Some 7%Z) (Some 3%Z) 2023 2023;
    ex_game true (Some 20%Z) (Some 10%Z) 2024 2024;
    ex_game false None None 2024 2024;
    ex_game true (Some 14%Z) (Some 17%Z) 2024 2025 ].

(** Three teams matched by id, with their names, in four games: the team
    [t1] is called Bears in 2024 and was called Colts in 2023. *)
Definition ex_played : list game_teams :=
  [ {| game_home_id := "t1"; game_away_id := "t3";
       game_home_name := "Colts"; game_away_name := "Cubs"; game_season := 2023 |};
    {| game_home_id := "t2"; game_away_id := "t1";
       game_home_name := "Ajax"; game_away_name := "Bears"; game_season := 2024 |};
    {| game_home_id := "t1"; game_away_id := "t2";
       game_home_name := "Bears"; game_away_name := "Ajax"; game_season := 2024 |} ].

(** The overall ratings of three attempts for two teams. *)
Definition ex_attempts : list (list Q) := [[1; 2]; [3; 0]; [2; 5]].

End MoreExamples.

(** Inverting a chain of lookups that succeeded. *)
Ltac inv_bind H :=
  repeat match type of H with
  | mbind _ ?o = Some _ =>
      let E := fresh "E" in
      destruct o eqn:E; simpl in H; [|discriminate H]
  | (match ?o with Some _ => _ | None => None end) = Some _ =>
      let E := fresh "E" in
      destruct o eqn:E; simpl in H; [|discriminate H]
  end.

(** * Properties *)

(** ** Arithmetic *)

Lemma Qlt_bool_iff a b : Qlt_bool a b = true <-> a < b.
Proof.
  unfold Qlt_bool. rewrite negb_true_iff, <- not_true_iff_false, Qle_bool_iff.
  split; [apply Qnot_le_lt | apply Qlt_not_le].
Qed.

Lemma fdiv_Some a b : ~ b == 0 -> fdiv a b = Some (a / b).
Proof.
  intros Hb. unfold fdiv. destruct (Qeq_bool b 0) eqn:E; [|reflexivity].
  apply Qeq_bool_iff in E. contradiction.
Qed.

Lemma fdiv_None a b : b == 0 -> fdiv a b = None.
Proof.
  intros Hb. unfold fdiv. apply Qeq_bool_iff in Hb. now rewrite Hb.
Qed.

Lemma fdiv_inv a b q : fdiv a b = Some q -> ~ b == 0 /\ q = a / b.
Proof.
  unfold fdiv. destruct (Qeq_bool b 0) eqn:E; [discriminate|].
  intros [= <-]. split; [|reflexivity].
  intros Hb. apply Qeq_bool_iff in Hb. congruence.
Qed.

(** [fdiv] is the quotient of numpy when that is finite, and [None] when it
    is NaN or an infinity. *)
Lemma fdiv_np_divide a b :
  match fdiv a b with
  | Some q => np_divide a b = Finite q
  | None => b == 0 /\
            np_divide a b
            = (if Qeq_bool a 0 then NaN else Infinity (negb (Qle_bool 0 a)))
  end.
Proof.
  unfold fdiv, np_divide. destruct (Qeq_bool b 0) eqn:E; [|reflexivity].
  split; [now apply Qeq_bool_iff|reflexivity].
Qed.

Section AttemptProperties.

Variable np_log : Q -> Q.
Variable norm_cdf : Q -> Q -> Q -> Q.
Variable rng_normal : nat -> nat -> Q -> Q -> Q.

(** ** The weight of a game *)

Lemma read_game_inv a id g :
  read_game np_log a id = Some g ->
  exists hid aid season w,
    input_games_home_id a !! id = Some hid /\
    input_games_away_id a !! id = Some aid /\
    id_to_index a !! hid = Some (cur_game_homeidx g) /\
    id_to_index a !! aid = Some (cur_game_awayidx g) /\
    id_to_all_index a !! hid = Some (cur_game_home_allidx g) /\
    id_to_all_index a !! aid = Some (cur_game_away_allidx g) /\
    input_games_home_score a !! id = Some (cur_game_home_score g) /\
    input_games_away_score a !! id = Some (cur_game_away_score g) /\
    input_games_season a !! id = Some season /\
    cur_game_weight a id season = Some w /\
    cur_game_gt_weight np_log a w (cur_game_home_allidx g) (cur_game_away_allidx g)
      = Some (cur_game_gt_weight_of g) /\
    input_games_is_neutral_site a !! id = Some (cur_game_is_neutral_site g).
Proof.
  unfold read_game. intros H. inv_bind H. injection H as <-. simpl.
  eexists _, _, _, _. repeat split; eassumption.
Qed.

Lemma centrality_key_sym h w : centrality_key h w = centrality_key w h.
Proof. unfold centrality_key. now rewrite Nat.min_comm, Nat.max_comm. Qed.

Lemma cur_game_weight_policy a id season pre :
  input_games_is_preseason a !! id = Some pre ->
  (use_preseason_var a = false -> pre = false) ->
  cur_game_weight a id season = Some (Spec.policy_weight a season pre).
Proof.
  intros Hpre Hflag. unfold cur_game_weight, Spec.policy_weight.
  rewrite Hpre. simpl.
  destruct (use_preseason_var a).
  - rewrite andb_true_r.
    destruct (season =? season_to_rank a)%Z; [reflexivity|].
    destruct (season <? season_to_rank a)%Z; reflexivity.
  - rewrite (Hflag eq_refl). simpl.
    destruct (season =? season_to_rank a)%Z; [reflexivity|].
    destruct (season <? season_to_rank a)%Z; reflexivity.
Qed.

Lemma cur_game_gt_weight_formula a w h aw c :
  (forall x, 1 < x -> 0 < np_log x) ->
  game_network_edge_centrality a !! centrality_key h aw = Some c ->
  0 < c -> c < 1 ->
  cur_game_gt_weight np_log a w h aw = Some (w / np_log (1 / c)).
Proof.
  intros Hlog Hc H0 H1. unfold cur_game_gt_weight. rewrite Hc. simpl.
  rewrite fdiv_Some by lra. simpl.
  apply fdiv_Some.
  assert (1 < 1 / c).
  { apply Qlt_shift_div_l; [assumption|]. lra. }
  specialize (Hlog _ H). lra.
Qed.

(** C3.  The weight the optimizer uses for a game is the policy weight of
    the game divided by [ln(1 / centrality)], where the centrality is that
    of the unordered pair of the two teams and lies strictly between 0 and
    1; the policy weight is 1 for a game of the target season that is not a
    preseason game, [preseason_weight] for a preseason game of the target
    season when preseason games are tracked, [prior_season_weight] (or
    [prior_preseason_weight] for a preseason game) for an earlier season
    and 0 for a later season. *)
Theorem final_weight_is_policy_over_log_centrality
    a id hid aid hidx aidx hall aall hs aws season pre neutral c :
  (forall x, 1 < x -> 0 < np_log x) ->
  input_games_home_id a !! id = Some hid ->
  input_games_away_id a !! id = Some aid ->
  id_to_index a !! hid = Some hidx ->
  id_to_index a !! aid = Some aidx ->
  id_to_all_index a !! hid = Some hall ->
  id_to_all_index a !! aid = Some aall ->
  input_games_home_score a !! id = Some hs ->
  input_games_away_score a !! id = Some aws ->
  input_games_season a !! id = Some season ->
  input_games_is_neutral_site a !! id = Some neutral ->
  input_games_is_preseason a !! id = Some pre ->
  (use_preseason_var a = false -> pre = false) ->
  game_network_edge_centrality a !! (Nat.min hall aall, Nat.max hall aall, 0%nat)
    = Some c ->
  0 < c -> c < 1 ->
  (exists g, read_game np_log a id = Some g /\
             cur_game_gt_weight_of g
             = Spec.policy_weight a season pre / np_log (1 / c)) /\
  ((season = season_to_rank a -> pre = false ->
    Spec.policy_weight a season pre = 1) /\
   (season = season_to_rank a -> pre = true -> use_preseason_var a = true ->
    Spec.policy_weight a season pre = preseason_weight a) /\
   ((season < season_to_rank a)%Z -> pre = false ->
    Spec.policy_weight a season pre = prior_season_weight a) /\
   ((season < season_to_rank a)%Z -> pre = true ->
    Spec.policy_weight a season pre = prior_preseason_weight a) /\
   ((season > season_to_rank a)%Z ->
    Spec.policy_weight a season pre = 0)).
Proof.
  intros Hlog Hhid Haid Hhidx Haidx Hhall Haall Hhs Haws Hseason Hneutral Hpre
    Hflag Hc H0 H1.
  split.
  - eexists. split.
    + unfold read_game.
      rewrite Hhid, Haid. simpl. rewrite Hhidx, Haidx, Hhall, Haall. simpl.
      rewrite Hhs, Haws, Hseason. simpl.
      rewrite (cur_game_weight_policy _ _ _ _ Hpre Hflag). simpl.
      rewrite (cur_game_gt_weight_formula _ _ _ _ _ Hlog Hc H0 H1). simpl.
      rewrite Hneutral. simpl. reflexivity.
    + reflexivity.
  - unfold Spec.policy_weight. repeat split.
    + intros -> ->. now rewrite Z.eqb_refl.
    + intros -> -> ->. now rewrite Z.eqb_refl.
    + intros Hlt ->.
      destruct (Z.eqb_spec season (season_to_rank a)); [lia|].
      destruct (Z.ltb_spec season (season_to_rank a)); [reflexivity|lia].
    + intros Hlt ->.
      destruct (Z.eqb_spec season (season_to_rank a)); [lia|].
      destruct (Z.ltb_spec season (season_to_rank a)); [reflexivity|lia].
    + intros Hgt.
      destruct (Z.eqb_spec season (season_to_rank a)); [lia|].
      destruct (Z.ltb_spec season (season_to_rank a)); [lia|reflexivity].
Qed.


(** ** The predictions of an iteration *)

Lemma add_errors_lists g ph pa sums sums' :
  add_errors g ph pa sums = Some sums' ->
  home_predicted_off_score_list sums' = home_predicted_off_score_list sums ++ [ph] /\
  home_predicted_def_score_list sums' = home_predicted_def_score_list sums ++ [pa] /\
  home_predicted_margin_list sums' = home_predicted_margin_list sums ++ [ph - pa].
Proof.
  unfold add_errors. intros H. inv_bind H. injection H as <-. simpl. auto.
Qed.

Lemma game_body_inv a first c acc id acc' :
  game_body np_log a first c acc id = Some acc' ->
  exists g ph pa,
    read_game np_log a id = Some g /\
    cur_game_predicted_off_score a c g = Some ph /\
    cur_game_predicted_def_score a c g = Some pa /\
    (if first then store_first g (snd acc) else Some (snd acc)) = Some (snd acc') /\
    add_errors g ph pa (fst acc) = Some (fst acc').
Proof.
  unfold game_body. intros H. inv_bind H. injection H as <-. simpl.
  eexists _, _, _. repeat split; eassumption.
Qed.

Lemma game_loop_predictions a first c ids : forall acc acc',
  for_each (game_body np_log a first c) ids acc = Some acc' ->
  exists lo ld lm,
    home_predicted_off_score_list (fst acc')
      = home_predicted_off_score_list (fst acc) ++ lo /\
    home_predicted_def_score_list (fst acc')
      = home_predicted_def_score_list (fst acc) ++ ld /\
    home_predicted_margin_list (fst acc')
      = home_predicted_margin_list (fst acc) ++ lm /\
    forall k id, ids !! k = Some id ->
      exists g ph pa,
        read_game np_log a id = Some g /\
        cur_game_predicted_off_score a c g = Some ph /\
        cur_game_predicted_def_score a c g = Some pa /\
        lo !! k = Some ph /\ ld !! k = Some pa /\ lm !! k = Some (ph - pa).
Proof.
  induction ids as [|id ids IH]; intros acc acc' H; simpl in H.
  - injection H as <-. exists [], [], []. rewrite !app_nil_r.
    repeat split; try reflexivity. intros k id Hk. discriminate Hk.
  - inv_bind H. rename p into acc1.
    destruct (game_body_inv _ _ _ _ _ _ E) as (g & ph & pa & Hg & Hph & Hpa & _ & Hadd).
    apply add_errors_lists in Hadd as (Ho & Hd & Hm).
    destruct (IH _ _ H) as (lo & ld & lm & Eo & Ed & Em & Hall).
    exists (ph :: lo), (pa :: ld), ((ph - pa) :: lm).
    rewrite Eo, Ed, Em, Ho, Hd, Hm, <- !app_assoc. simpl.
    repeat split; try reflexivity.
    intros [|k] id' Hk; simpl in Hk.
    + injection Hk as <-. exists g, ph, pa. simpl.
      repeat split; assumption || reflexivity.
    + apply Hall in Hk. exact Hk.
Qed.

Lemma int_not_half neutral ha :
  int_not neutral * ha / 2 == (if neutral then 0 else ha / 2).
Proof. destruct neutral; unfold int_not; field. Qed.


(** ** Centering *)

Lemma np_sum_subtract l m :
  np_sum (np_subtract_scalar l m)
  == np_sum l - inject_Z (Z.of_nat (length l)) * m.
Proof.
  induction l as [|x l IH].
  - simpl. ring.
  - change (np_sum (np_subtract_scalar (x :: l) m))
      with ((x - m) + np_sum (np_subtract_scalar l m)).
    change (np_sum (x :: l)) with (x + np_sum l).
    change (length (x :: l)) with (S (length l)).
    rewrite IH, Nat2Z.inj_succ, <- Z.add_1_r, inject_Z_plus. ring.
Qed.

Lemma np_sum_zeros n : np_sum (np_zeros n) == 0.
Proof. induction n as [|n IH]; simpl; [reflexivity|]. rewrite IH. ring. Qed.

Lemma inject_nat_nonzero n : (0 < n)%nat -> ~ inject_Z (Z.of_nat n) == 0.
Proof.
  intros Hn H. unfold Qeq in H. simpl in H. lia.
Qed.

Lemma zero_centered_zeros n : (0 < n)%nat -> zero_centered (np_zeros n).
Proof.
  intros Hn. unfold zero_centered, np_mean.
  rewrite fdiv_Some.
  - eexists. split; [reflexivity|]. rewrite np_sum_zeros.
    unfold np_zeros. rewrite repeat_length. field.
    now apply inject_nat_nonzero.
  - unfold np_zeros. rewrite repeat_length. now apply inject_nat_nonzero.
Qed.

Lemma zero_centered_subtract_mean l m :
  np_mean l = Some m -> zero_centered (np_subtract_scalar l m).
Proof.
  unfold np_mean. intros H. apply fdiv_inv in H as [Hn ->].
  unfold zero_centered, np_mean.
  assert (Hlen : length (np_subtract_scalar l (np_sum l / inject_Z (Z.of_nat (length l))))
                 = length l) by apply List.length_map.
  rewrite Hlen, fdiv_Some by assumption.
  eexists. split; [reflexivity|].
  rewrite np_sum_subtract. field. assumption.
Qed.

Lemma update_ratings_centered a fid sums c k c' k' :
  update_ratings rng_normal a fid sums c k = Some (c', k') ->
  zero_centered (team_off_ratings c') /\ zero_centered (team_def_ratings c').
Proof.
  unfold update_ratings. intros H. inv_bind H.
  destruct p as [[off def] k1]. inv_bind H. injection H as <- <-. simpl.
  split; now apply zero_centered_subtract_mean.
Qed.

Lemma save_or_reset_cases a s err fid s1 :
  save_or_reset a s err fid = Some s1 ->
  (best s1 = cur s \/ best s1 = best s) /\
  (cur s1 = cur s \/ cur s1 = best s) /\
  terminate_search s1 = terminate_search s /\
  stored s1 = fid /\ rng_draws s1 = rng_draws s /\
  first_iteration s1 = first_iteration s.
Proof.
  unfold save_or_reset. intros H. inv_bind H. destruct b.
  - injection H as <-. simpl. auto 10.
  - destruct (iterations_before_reset a =? 0)%nat; [discriminate|].
    injection H as <-. simpl.
    destruct (_ =? 0)%nat; auto 10.
Qed.

Lemma update_or_stop_cases a sums s1 s' :
  update_or_stop rng_normal a sums s1 = Some s' ->
  best s' = best s1 /\
  best_abs_total_error s' = best_abs_total_error s1 /\
  iterations_since_last_update s' = iterations_since_last_update s1 /\
  stored s' = stored s1 /\ first_iteration s' = false /\
  (((iterations_since_last_update s1 < iterations_before_stop a)%nat /\
    terminate_search s' = terminate_search s1 /\
    exists k, update_ratings rng_normal a (stored s1) sums (cur s1) (rng_draws s1)
              = Some (cur s', k) /\ rng_draws s' = k) \/
   ((iterations_before_stop a <= iterations_since_last_update s1)%nat /\
    terminate_search s' = true /\ cur s' = cur s1 /\ rng_draws s' = rng_draws s1)).
Proof.
  unfold update_or_stop. intros H.
  destruct (Nat.ltb_spec (iterations_since_last_update s1) (iterations_before_stop a)).
  - inv_bind H. destruct p as [c k]. injection H as <-. simpl.
    repeat split; try reflexivity. left. repeat split; [assumption|]. eauto.
  - injection H as <-. simpl. repeat split; try reflexivity. right. auto.
Qed.

Lemma iteration_inv a s s' :
  iteration np_log norm_cdf rng_normal a s = Some s' ->
  exists sums fid s1,
    game_loop np_log a s = Some (sums, fid) /\
    save_or_reset a s (abs_total_error norm_cdf a fid sums) fid = Some s1 /\
    update_or_stop rng_normal a sums s1 = Some s'.
Proof.
  unfold iteration. intros H. inv_bind H. destruct p as [sums fid]. inv_bind H.
  eauto 10.
Qed.

Lemma iteration_keeps_centered a s s' :
  centered_state s ->
  iteration np_log norm_cdf rng_normal a s = Some s' ->
  centered_state s'.
Proof.
  intros (Hbo & Hbd & Hco & Hcd) H.
  apply iteration_inv in H as (sums & fid & s1 & _ & Hsave & Hupd).
  apply save_or_reset_cases in Hsave as (Hb & Hc & _).
  apply update_or_stop_cases in Hupd as (Eb & _ & _ & _ & _ & Hcases).
  assert (Hb1 : zero_centered (team_off_ratings (best s1)) /\
                zero_centered (team_def_ratings (best s1))).
  { destruct Hb as [-> | ->]; auto. }
  assert (Hc1 : zero_centered (team_off_ratings (cur s1)) /\
                zero_centered (team_def_ratings (cur s1))).
  { destruct Hc as [-> | ->]; auto. }
  unfold centered_state. rewrite Eb.
  destruct Hcases as [(_ & _ & k & Hk & _) | (_ & _ & -> & _)].
  - apply update_ratings_centered in Hk. tauto.
  - tauto.
Qed.

Lemma reachable_centered a s :
  (0 < length (teams_in_network a))%nat ->
  reachable np_log norm_cdf rng_normal a s -> centered_state s.
Proof.
  intros Hn Hr. induction Hr as [|s s' Hr IH Ht Hit].
  - unfold centered_state, initial_state, zero_ratings. simpl.
    auto using zero_centered_zeros.
  - eapply iteration_keeps_centered; eassumption.
Qed.

Lemma while_loop_reachable a fuel : forall s s',
  reachable np_log norm_cdf rng_normal a s ->
  while_loop np_log norm_cdf rng_normal fuel a s = Returned _ s' ->
  reachable np_log norm_cdf rng_normal a s' /\ terminate_search s' = true.
Proof.
  induction fuel as [|fuel IH]; intros s s' Hr H; simpl in H.
  - destruct (terminate_search s) eqn:Ht; [|discriminate].
    injection H as <-. auto.
  - destruct (terminate_search s) eqn:Ht.
    + injection H as <-. auto.
    + destruct (iteration _ _ _ a s) as [s1|] eqn:Hit; [|discriminate].
      eapply IH; [|exact H]. econstructor; eassumption.
Qed.

(** ** The update divides by the weight of every team *)

Lemma for_each_fails {S X : Type} (body : S -> X -> option S) (x : X) (l : list X) :
  In x l -> (forall s, body s x = None) -> forall s, for_each body l s = None.
Proof.
  intros Hin Hx. induction l as [|y l IH]; intros s; [destruct Hin|].
  simpl. destruct Hin as [-> | Hin].
  - now rewrite Hx.
  - destruct (body s y); simpl; [now apply IH|reflexivity].
Qed.

Lemma update_team_zero_weight a fid sums st i w :
  total_team_weight fid !! i = Some w -> w == 0 ->
  update_team rng_normal a fid sums st i = None.
Proof.
  intros Hw H0. destruct st as [[off def] k]. unfold update_team.
  destruct (total_team_off_margin_error_weight sums !! i); [|reflexivity]. simpl.
  rewrite Hw. simpl. rewrite (fdiv_None _ _ H0). reflexivity.
Qed.

(** C7, as the code has it.  The update divides the accumulated error of
    every team by the total weight of the team, with no test of that weight:
    when one team of the network has total weight zero the division by zero
    takes place, and the update yields no ratings (in the source NaN, which
    the centering then spreads to the ratings of all the teams). *)
Theorem update_divides_by_zero_team_weight a fid sums c k i w :
  (i < length (team_ratings c))%nat ->
  total_team_weight fid !! i = Some w ->
  w == 0 ->
  update_ratings rng_normal a fid sums c k = None.
Proof.
  intros Hi Hw H0. unfold update_ratings.
  rewrite (for_each_fails _ i); [reflexivity| |].
  - apply in_seq. lia.
  - intros st. eapply update_team_zero_weight; eassumption.
Qed.

(** ** Resets *)

(** C8, as the code has it.  When an iteration does not improve and its
    count of iterations since the last improvement is a multiple of the
    reset interval, the best state stays as it is and the current state is
    set to it before the update of that same iteration: below the stop
    threshold the next iteration starts from the update of the best state,
    computed with the error sums of the state that was abandoned; at the
    threshold the loop ends with the current state equal to the best. *)
Theorem reset_precedes_the_update a s s' sums fid b :
  first_iteration s = false ->
  best_abs_total_error s = Some b ->
  game_loop np_log a s = Some (sums, fid) ->
  ~ abs_total_error norm_cdf a fid sums < b ->
  iterations_before_reset a <> 0%nat ->
  (S (iterations_since_last_update s) mod iterations_before_reset a = 0)%nat ->
  iteration np_log norm_cdf rng_normal a s = Some s' ->
  best s' = best s /\
  iterations_since_last_update s' = S (iterations_since_last_update s) /\
  ((S (iterations_since_last_update s) < iterations_before_stop a)%nat ->
   terminate_search s' = terminate_search s /\
   exists k, update_ratings rng_normal a fid sums (best s) (rng_draws s)
             = Some (cur s', k)) /\
  ((iterations_before_stop a <= S (iterations_since_last_update s))%nat ->
   terminate_search s' = true /\ cur s' = best s).
Proof.
  intros Hfirst Hb Hloop Hnot Hreset Hmod Hit.
  unfold iteration in Hit. rewrite Hloop in Hit. simpl in Hit.
  unfold save_or_reset, update_best_stats in Hit.
  rewrite Hfirst, Hb in Hit. simpl in Hit.
  destruct (Qlt_bool _ b) eqn:Hlt.
  { apply Qlt_bool_iff in Hlt. contradiction. }
  destruct (Nat.eqb_spec (iterations_before_reset a) 0); [contradiction|].
  simpl in Hit. rewrite Hmod in Hit. simpl in Hit.
  apply update_or_stop_cases in Hit as (Eb & _ & Ec & _ & _ & Hcases).
  simpl in *. split; [assumption|]. split; [assumption|].
  split; intros Hcmp.
  - destruct Hcases as [(_ & Ht & k & Hk & _) | (Hge & _)]; [eauto|lia].
  - destruct Hcases as [(Hlt' & _) | (_ & Ht & Hc & _)]; [lia|auto].
Qed.

(** ** The loop never raises on well-formed input *)

Lemma list_add_at_inv l i x l' :
  list_add_at l i x = Some l' -> length l' = length l /\ (i < length l)%nat.
Proof.
  unfold list_add_at. intros H. inv_bind H. injection H as <-.
  split; [apply length_insert|]. eapply lookup_lt_Some; eassumption.
Qed.

Lemma list_add_at_total l i x :
  (i < length l)%nat ->
  exists l', list_add_at l i x = Some l' /\ length l' = length l.
Proof.
  intros Hi. unfold list_add_at.
  destruct (lookup_lt_is_Some_2 l i Hi) as [v Hv]. rewrite Hv. simpl.
  eexists. split; [reflexivity|]. apply length_insert.
Qed.

Lemma add_errors_sized g ph pa sums sums' n :
  add_errors g ph pa sums = Some sums' -> sums_sized n sums -> sums_sized n sums'.
Proof.
  unfold add_errors, sums_sized. intros H [Ho Hd]. inv_bind H. injection H as <-. simpl.
  apply list_add_at_inv in E as [E _], E0 as [E0 _], E1 as [E1 _], E2 as [E2 _].
  split; congruence.
Qed.

Lemma add_errors_total g ph pa sums n :
  sums_sized n sums ->
  (cur_game_homeidx g < n)%nat -> (cur_game_awayidx g < n)%nat ->
  exists sums', add_errors g ph pa sums = Some sums'.
Proof.
  intros [Ho Hd] Hh Ha. unfold add_errors.
  edestruct (list_add_at_total (total_team_off_margin_error_weight sums))
    as (to1 & -> & Lo1); [rewrite Ho; exact Hh|]. simpl.
  edestruct (list_add_at_total (total_team_def_margin_error_weight sums))
    as (td1 & -> & Ld1); [rewrite Hd; exact Hh|]. simpl.
  edestruct (list_add_at_total to1) as (to2 & -> & Lo2);
    [rewrite Lo1, Ho; exact Ha|]. simpl.
  edestruct (list_add_at_total td1) as (td2 & -> & Ld2);
    [rewrite Ld1, Hd; exact Ha|]. simpl.
  eauto.
Qed.

Lemma predicted_scores_total a c g n :
  length (team_off_ratings c) = n -> length (team_def_ratings c) = n ->
  (cur_game_homeidx g < n)%nat -> (cur_game_awayidx g < n)%nat ->
  (exists ph, cur_game_predicted_off_score a c g = Some ph) /\
  (exists pa, cur_game_predicted_def_score a c g = Some pa).
Proof.
  intros Lo Ld Hh Ha.
  unfold cur_game_predicted_off_score, cur_game_predicted_def_score.
  destruct (lookup_lt_is_Some_2 (team_off_ratings c) (cur_game_homeidx g)) as [x1 ->];
    [lia|].
  destruct (lookup_lt_is_Some_2 (team_def_ratings c) (cur_game_awayidx g)) as [x2 ->];
    [lia|].
  destruct (lookup_lt_is_Some_2 (team_off_ratings c) (cur_game_awayidx g)) as [x3 ->];
    [lia|].
  destruct (lookup_lt_is_Some_2 (team_def_ratings c) (cur_game_homeidx g)) as [x4 ->];
    [lia|].
  simpl. eauto.
Qed.

Lemma later_game_body_total a c n fid sums id :
  game_ok np_log a n id ->
  length (team_off_ratings c) = n -> length (team_def_ratings c) = n ->
  sums_sized n sums ->
  exists sums',
    game_body np_log a false c (sums, fid) id = Some (sums', fid) /\
    sums_sized n sums'.
Proof.
  intros (g & Hg & Hh & Ha) Lo Ld Hs.
  destruct (predicted_scores_total a c g _ Lo Ld Hh Ha) as [[ph Hph] [pa Hpa]].
  destruct (add_errors_total g ph pa sums _ Hs Hh Ha) as [sums1 Hadd].
  exists sums1. split.
  - unfold game_body. rewrite Hg. simpl. rewrite Hph. simpl. rewrite Hpa. simpl.
    rewrite Hadd. reflexivity.
  - eapply add_errors_sized; eassumption.
Qed.

Lemma later_game_loop_total a c n fid ids : forall sums,
  Forall (game_ok np_log a n) ids ->
  length (team_off_ratings c) = n -> length (team_def_ratings c) = n ->
  sums_sized n sums ->
  exists sums',
    for_each (game_body np_log a false c) ids (sums, fid) = Some (sums', fid) /\
    sums_sized n sums'.
Proof.
  induction ids as [|id ids IH]; intros sums Hok Lo Ld Hs.
  - simpl. eauto.
  - apply Forall_cons_1 in Hok as [Hid Hok'].
    destruct (later_game_body_total a c n fid sums id Hid Lo Ld Hs) as (sums1 & Hb & Hs1).
    cbn [for_each]. rewrite Hb. simpl. apply IH; assumption.
Qed.

Lemma store_first_length g fid fid' :
  store_first g fid = Some fid' ->
  length (total_team_weight fid') = length (total_team_weight fid).
Proof.
  unfold store_first. intros H. inv_bind H. injection H as <-. simpl.
  apply list_add_at_inv in E as [E _], E0 as [E0 _]. congruence.
Qed.

Lemma first_game_loop_facts a c n ids : forall acc acc',
  for_each (game_body np_log a true c) ids acc = Some acc' ->
  length (team_off_ratings c) = n ->
  sums_sized n (fst acc) ->
  Forall (game_ok np_log a n) ids /\
  sums_sized n (fst acc') /\
  length (total_team_weight (snd acc')) = length (total_team_weight (snd acc)).
Proof.
  induction ids as [|id ids IH]; intros acc acc' H Lo Hs; simpl in H.
  - injection H as <-. auto.
  - inv_bind H. rename p into acc1.
    destruct (game_body_inv _ _ _ _ _ _ E) as (g & ph & pa & Hg & Hph & Hpa & Hst & Hadd).
    assert (Hs1 : sums_sized n (fst acc1)) by (eapply add_errors_sized; eassumption).
    destruct (IH _ _ H Lo Hs1) as (Hok & Hs' & Hlen).
    apply store_first_length in Hst.
    split; [|split; [assumption|congruence]].
    constructor; [|assumption].
    exists g. split; [assumption|].
    unfold cur_game_predicted_off_score in Hph. inv_bind Hph.
    unfold cur_game_predicted_def_score in Hpa. inv_bind Hpa.
    split; rewrite <- Lo; eapply lookup_lt_Some; eassumption.
Qed.

Lemma update_team_total a fid sums off def k i n :
  (i < n)%nat -> length off = n -> length def = n ->
  sums_sized n sums ->
  length (total_team_weight fid) = n ->
  Forall (fun w => ~ w == 0) (total_team_weight fid) ->
  ~ rating_adjustment_scale a == 0 ->
  exists off' def',
    update_team rng_normal a fid sums (off, def, k) i = Some (off', def', S (S k)) /\
    length off' = n /\ length def' = n.
Proof.
  intros Hi Lo Ld [So Sd] Lw Hw Hscale. unfold update_team.
  destruct (lookup_lt_is_Some_2 (total_team_off_margin_error_weight sums) i)
    as [eo ->]; [lia|].
  destruct (lookup_lt_is_Some_2 (total_team_def_margin_error_weight sums) i)
    as [ed ->]; [lia|].
  destruct (lookup_lt_is_Some_2 (total_team_weight fid) i) as [w Ew]; [lia|].
  rewrite Ew. simpl.
  assert (Hw0 : ~ w == 0) by (eapply (Forall_lookup_1 _ _ _ _ Hw); eassumption).
  rewrite (fdiv_Some eo w Hw0). simpl.
  rewrite !(fdiv_Some _ _ Hscale). simpl.
  edestruct (list_add_at_total off i) as (off' & -> & Lo'); [lia|]. simpl.
  rewrite (fdiv_Some ed w Hw0). simpl.
  rewrite ?(fdiv_Some _ _ Hscale). simpl.
  edestruct (list_add_at_total def i) as (def' & -> & Ld'); [lia|]. simpl.
  exists off', def'. repeat split; congruence.
Qed.

Lemma update_teams_total a fid sums n l : forall off def k,
  Forall (fun i => (i < n)%nat) l ->
  length off = n -> length def = n ->
  sums_sized n sums ->
  length (total_team_weight fid) = n ->
  Forall (fun w => ~ w == 0) (total_team_weight fid) ->
  ~ rating_adjustment_scale a == 0 ->
  exists off' def' k',
    for_each (update_team rng_normal a fid sums) l (off, def, k)
      = Some (off', def', k') /\
    length off' = n /\ length def' = n.
Proof.
  induction l as [|i l IH]; intros off def k Hl Lo Ld Hs Lw Hw Hscale.
  - simpl. eauto 10.
  - apply Forall_cons_1 in Hl as [Hi Hl].
    destruct (update_team_total a fid sums off def k i n Hi Lo Ld Hs Lw Hw Hscale)
      as (off1 & def1 & E & Lo1 & Ld1).
    cbn [for_each]. rewrite E. simpl. apply IH; assumption.
Qed.

Lemma update_ratings_total a fid sums c k n :
  (0 < n)%nat -> ratings_sized n c -> sums_sized n sums ->
  length (total_team_weight fid) = n ->
  Forall (fun w => ~ w == 0) (total_team_weight fid) ->
  ~ total_notneutral_weight fid == 0 ->
  ~ rating_adjustment_scale a == 0 ->
  exists c' k',
    update_ratings rng_normal a fid sums c k = Some (c', k') /\ ratings_sized n c'.
Proof.
  intros Hn (Lo & Ld & Lr) Hs Lw Hw Hnn Hscale. unfold update_ratings.
  destruct (update_teams_total a fid sums n (seq 0 (length (team_ratings c)))
              (team_off_ratings c) (team_def_ratings c) k)
    as (off & def & k' & -> & Lo' & Ld'); try assumption.
  { apply Forall_forall. intros i Hi. apply elem_of_seq in Hi. lia. }
  simpl. rewrite (fdiv_Some _ _ Hnn). simpl. rewrite !(fdiv_Some _ _ Hscale). simpl.
  unfold np_mean. rewrite Lo', Ld'.
  rewrite !fdiv_Some by (apply inject_nat_nonzero; assumption). simpl.
  eexists _, _. split; [reflexivity|].
  unfold ratings_sized, np_add, np_subtract_scalar. simpl.
  rewrite length_zip_with, !List.length_map. lia.
Qed.


(** ** The errors of an attempt lie on a grid

    A binary64 value of [stats.norm.cdf] is a whole multiple of a fixed
    quantum and lies between 0 and 1.  The errors of the iterations are then
    whole multiples of one quantum too, and bounded below: a strictly
    decreasing sequence of them is finite. *)

Lemma on_grid_zero (G B : Z) : (0 <= B)%Z -> on_grid G B 0.
Proof. intros HB. exists 0%Z. split; [lia|]. ring. Qed.

Lemma on_grid_plus (G1 B1 : Z) e1 (G2 B2 : Z) e2 :
  (0 < G1)%Z -> (0 < G2)%Z ->
  on_grid G1 B1 e1 -> on_grid G2 B2 e2 ->
  on_grid (G1 * G2) (B1 * G2 + B2 * G1) (e1 + e2).
Proof.
  intros HG1 HG2 (z1 & Hz1 & E1) (z2 & Hz2 & E2).
  exists (z1 * G2 + z2 * G1)%Z. split; [nia|].
  rewrite inject_Z_plus, !inject_Z_mult, <- E1, <- E2. ring.
Qed.

Lemma on_grid_compat G B e e' : e == e' -> on_grid G B e -> on_grid G B e'.
Proof. intros He (z & Hz & E). exists z. split; [assumption|]. now rewrite <- He. Qed.

Lemma on_grid_lt (G : Z) e e' (z z' : Z) :
  (0 < G)%Z ->
  e * inject_Z G == inject_Z z -> e' * inject_Z G == inject_Z z' ->
  e' < e -> (z' < z)%Z.
Proof.
  intros HG E E' Hlt. rewrite Zlt_Qlt, <- E, <- E'.
  apply Qmult_lt_compat_r; [|assumption].
  change 0 with (inject_Z 0). now rewrite <- Zlt_Qlt.
Qed.

Lemma on_grid_term N w x y loc scale :
  cdf_quantised norm_cdf N ->
  on_grid (Z.pos (Qden w) * Z.pos N) (Z.abs (Qnum w) * Z.pos N)
    (w * Qabs (norm_cdf x loc scale - norm_cdf y loc scale)).
Proof.
  intros HN.
  destruct (HN x loc scale) as (k1 & Hk1 & E1).
  destruct (HN y loc scale) as (k2 & Hk2 & E2).
  exists (Qnum w * Z.abs (k1 - k2))%Z. split.
  - assert (Z.abs (Qnum w * Z.abs (k1 - k2)) <= Z.abs (Qnum w) * Z.pos N)%Z.
    { rewrite Z.abs_mul. apply Z.mul_le_mono_nonneg_l; lia. }
    lia.
  - rewrite E1, E2.
    assert (Hd : (k1 # N) - (k2 # N) == (k1 - k2) # N).
    { unfold Qeq, Qminus, Qplus, Qopp. simpl. rewrite Pos2Z.inj_mul. ring. }
    rewrite Hd. destruct w as [wn wd]. unfold Qeq. simpl.
    rewrite !Pos2Z.inj_mul. ring.
Qed.

Lemma cdf_abs_error_on_grid N ws :
  cdf_quantised norm_cdf N ->
  exists G B, (0 < G)%Z /\ (0 <= B)%Z /\
    forall xs ys loc scale, on_grid G B (cdf_abs_error norm_cdf ws xs ys loc scale).
Proof.
  intros HN. induction ws as [|w ws (G & B & HG & HB & IH)].
  - exists 1%Z, 0%Z. repeat split; try lia.
    intros xs ys loc scale. apply on_grid_zero. lia.
  - exists (Z.pos (Qden w) * Z.pos N * G)%Z,
           (Z.abs (Qnum w) * Z.pos N * G + B * (Z.pos (Qden w) * Z.pos N))%Z.
    split; [lia|]. split; [nia|].
    intros xs ys loc scale.
    destruct xs as [|x xs]; [apply on_grid_zero; nia|].
    destruct ys as [|y ys]; [apply on_grid_zero; nia|].
    change (cdf_abs_error norm_cdf (w :: ws) (x :: xs) (y :: ys) loc scale)
      with (w * Qabs (norm_cdf x loc scale - norm_cdf y loc scale)
            + cdf_abs_error norm_cdf ws xs ys loc scale).
    apply on_grid_plus; try lia; [now apply on_grid_term | apply IH].
Qed.

Lemma abs_total_error_on_grid N a fid :
  cdf_quantised norm_cdf N ->
  exists G B, (0 < G)%Z /\
    forall sums, on_grid G B (abs_total_error norm_cdf a fid sums).
Proof.
  intros HN.
  destruct (cdf_abs_error_on_grid N (gt_game_weight_list fid) HN)
    as (G1 & B1 & HG1 & HB1 & H1).
  destruct (cdf_abs_error_on_grid N
              (gt_game_weight_list fid ++ gt_game_weight_list fid) HN)
    as (G2 & B2 & HG2 & HB2 & H2).
  exists (G1 * G2)%Z, (B1 * G2 + B2 * G1)%Z. split; [lia|].
  intros sums. unfold abs_total_error. apply on_grid_plus; auto.
Qed.

(** ** Termination *)

Lemma rank_of_lt (G B : Z) e e' :
  (0 < G)%Z -> on_grid G B e -> on_grid G B e' -> e' < e ->
  (rank_of G B e' < rank_of G B e)%nat.
Proof.
  intros HG (z & Hz & E) (z' & Hz' & E') Hlt. unfold rank_of.
  rewrite (Qfloor_comp _ _ E), (Qfloor_comp _ _ E'), !Qfloor_Z.
  assert (z' < z)%Z by (eapply (on_grid_lt G); eassumption).
  lia.
Qed.

Lemma while_loop_more_fuel a fuel : forall s s' fuel',
  while_loop np_log norm_cdf rng_normal fuel a s = Returned _ s' ->
  (fuel <= fuel')%nat ->
  while_loop np_log norm_cdf rng_normal fuel' a s = Returned _ s'.
Proof.
  induction fuel as [|fuel IH]; intros s s' fuel' H Hle.
  - simpl in H. destruct (terminate_search s) eqn:Ht; [|discriminate].
    destruct fuel'; simpl; now rewrite Ht.
  - destruct fuel' as [|fuel']; [lia|].
    simpl in *. destruct (terminate_search s); [assumption|].
    destruct (iteration _ _ _ a s); [|discriminate].
    apply IH; [assumption|lia].
Qed.

Lemma while_loop_stopped a fuel s :
  terminate_search s = true ->
  while_loop np_log norm_cdf rng_normal fuel a s = Returned _ s.
Proof. intros Ht. destruct fuel; simpl; now rewrite Ht. Qed.

Lemma while_loop_step a fuel s s' :
  terminate_search s = false ->
  iteration np_log norm_cdf rng_normal a s = Some s' ->
  while_loop np_log norm_cdf rng_normal (S fuel) a s
  = while_loop np_log norm_cdf rng_normal fuel a s'.
Proof. intros Ht Hit. simpl. now rewrite Ht, Hit. Qed.

(** The exit rule of the loop: a pass sets [terminate_search] exactly when
    the count of iterations since the last improvement has reached the
    threshold. *)
Lemma iteration_stops_at_threshold a s s' :
  terminate_search s = false ->
  iteration np_log norm_cdf rng_normal a s = Some s' ->
  (terminate_search s' = true <->
   (iterations_before_stop a <= iterations_since_last_update s')%nat).
Proof.
  intros Ht Hit.
  apply iteration_inv in Hit as (sums & fid & s1 & _ & Hsave & Hupd).
  apply save_or_reset_cases in Hsave as (_ & _ & Ht1 & _).
  apply update_or_stop_cases in Hupd as (_ & _ & Ec & _ & _ & Hcases).
  rewrite Ec.
  destruct Hcases as [(Hlt & Ht' & _) | (Hge & Ht' & _)].
  - rewrite Ht', Ht1, Ht. split; [discriminate|lia].
  - rewrite Ht'. tauto.
Qed.

Lemma later_game_loop_keeps_stored a c ids : forall acc acc',
  for_each (game_body np_log a false c) ids acc = Some acc' -> snd acc' = snd acc.
Proof.
  induction ids as [|id ids IH]; intros acc acc' H; simpl in H.
  - now injection H as <-.
  - inv_bind H.
    destruct (game_body_inv _ _ _ _ _ _ E) as (g & ph & pa & _ & _ & _ & Hst & _).
    injection Hst as Hst. rewrite (IH _ _ H). congruence.
Qed.

Section Halting.

Variable a : attempt_args.
Variable fid0 : first_iteration_data.
Variables G B : Z.

Hypothesis HG : (0 < G)%Z.
Hypothesis Hgrid : forall sums, on_grid G B (abs_total_error norm_cdf a fid0 sums).

Lemma update_or_stop_settled sums s1 s' :
  update_or_stop rng_normal a sums s1 = Some s' ->
  stored s1 = fid0 ->
  (exists b, best_abs_total_error s1 = Some b /\ on_grid G B b) ->
  terminate_search s1 = false ->
  settled a fid0 G B s' /\
  best_abs_total_error s' = best_abs_total_error s1 /\
  iterations_since_last_update s' = iterations_since_last_update s1.
Proof.
  intros Hupd Hst Herr Ht.
  apply update_or_stop_cases in Hupd as (_ & Ee & Ec & Es & Ef & Hcases).
  unfold settled. rewrite Ee, Ec, Es, Ef.
  repeat split; try assumption.
  destruct Hcases as [(Hlt & -> & _) | (Hge & -> & _)]; [now rewrite Ht|assumption].
Qed.

Lemma settled_iteration s s' :
  settled a fid0 G B s -> terminate_search s = false ->
  iteration np_log norm_cdf rng_normal a s = Some s' ->
  settled a fid0 G B s' /\
  (((state_rank G B s' < state_rank G B s)%nat /\
    iterations_since_last_update s' = 0%nat) \/
   (state_rank G B s' = state_rank G B s /\
    iterations_since_last_update s' = S (iterations_since_last_update s))).
Proof.
  intros (Hf & Hst & (b & Eb & Hgb) & _) Ht Hit.
  apply iteration_inv in Hit as (sums & fid & s1 & Hloop & Hsave & Hupd).
  unfold game_loop in Hloop. rewrite Hf in Hloop.
  apply later_game_loop_keeps_stored in Hloop as Hfid. simpl in Hfid.
  rewrite Hst in Hfid. subst fid.
  unfold save_or_reset, update_best_stats in Hsave. rewrite Hf, Eb in Hsave.
  simpl in Hsave.
  destruct (Qlt_bool (abs_total_error norm_cdf a fid0 sums) b) eqn:Hlt.
  - apply Qlt_bool_iff in Hlt. injection Hsave as <-.
    apply update_or_stop_settled in Hupd as (Hs' & Ee & Ec); simpl in *;
      [|reflexivity|eauto|assumption].
    split; [assumption|]. left. split; [|assumption].
    unfold state_rank. rewrite Ee, Eb. apply rank_of_lt; auto.
  - destruct (iterations_before_reset a =? 0)%nat; [discriminate|].
    injection Hsave as <-.
    apply update_or_stop_settled in Hupd as (Hs' & Ee & Ec); simpl in *;
      [|reflexivity|eauto|assumption].
    split; [assumption|]. right. split; [|assumption].
    unfold state_rank. rewrite Ee, Eb. reflexivity.
Qed.

Lemma settled_halts (m : nat) : forall s,
  settled a fid0 G B s -> terminate_search s = false ->
  (state_rank G B s * S (iterations_before_stop a)
   + (iterations_before_stop a - iterations_since_last_update s) <= m)%nat ->
  exists fuel, forall fuel', (fuel <= fuel')%nat ->
    while_loop np_log norm_cdf rng_normal fuel' a s <> OutOfFuel _.
Proof.
  induction m as [|m IH]; intros s Hst Ht Hm.
  - destruct Hst as (_ & _ & _ & Hc). rewrite Ht in Hc. lia.
  - destruct (iteration np_log norm_cdf rng_normal a s) as [s'|] eqn:Hit.
    + destruct (settled_iteration s s' Hst Ht Hit) as (Hst' & Hcase).
      destruct (terminate_search s') eqn:Ht'.
      * exists 1%nat. intros [|fuel'] Hle; [lia|].
        rewrite (while_loop_step _ _ _ _ Ht Hit).
        now rewrite while_loop_stopped.
      * assert (Hc : (iterations_since_last_update s < iterations_before_stop a)%nat).
        { destruct Hst as (_ & _ & _ & Hc). now rewrite Ht in Hc. }
        assert (Hc' : (iterations_since_last_update s' < iterations_before_stop a)%nat).
        { destruct Hst' as (_ & _ & _ & Hc'). now rewrite Ht' in Hc'. }
        destruct (IH s' Hst' Ht') as (fuel & Hfuel).
        { destruct Hcase as [[Hr Hz] | [Hr Hs]]; [nia|rewrite Hr; lia]. }
        exists (S fuel). intros [|fuel'] Hle; [lia|].
        rewrite (while_loop_step _ _ _ _ Ht Hit). apply Hfuel. lia.
    + exists 1%nat. intros [|fuel'] Hle; [lia|]. simpl. now rewrite Ht, Hit.
Qed.

End Halting.

Lemma attempt_halts a N :
  cdf_quantised norm_cdf N ->
  exists fuel, forall fuel', (fuel <= fuel')%nat ->
    rating_attempt np_log norm_cdf rng_normal fuel' a <> OutOfFuel _.
Proof.
  intros HN.
  assert (Hra : forall fuel,
            while_loop np_log norm_cdf rng_normal fuel a (initial_state a)
            <> OutOfFuel _ ->
            rating_attempt np_log norm_cdf rng_normal fuel a <> OutOfFuel _).
  { intros fuel H. unfold rating_attempt.
    destruct (while_loop _ _ _ fuel a (initial_state a)); congruence. }
  destruct (iteration np_log norm_cdf rng_normal a (initial_state a)) as [s1|] eqn:Hit.
  - pose proof Hit as Hit'.
    apply iteration_inv in Hit' as (sums0 & fid0 & s0 & Hloop & Hsave & Hupd).
    destruct (abs_total_error_on_grid N a fid0 HN) as (G & B & HG & Hgrid).
    unfold save_or_reset, update_best_stats in Hsave. simpl in Hsave.
    injection Hsave as <-.
    assert (Hst : settled a fid0 G B s1).
    { eapply update_or_stop_settled;
        [exact Hupd|reflexivity| |reflexivity].
      simpl. eexists. split; [reflexivity|apply Hgrid]. }
    destruct (terminate_search s1) eqn:Ht1.
    + exists 1%nat. intros [|fuel'] Hle; [lia|]. apply Hra.
      rewrite (while_loop_step _ _ _ s1); [|reflexivity|exact Hit].
      now rewrite while_loop_stopped.
    + destruct (settled_halts a fid0 G B HG Hgrid _ s1 Hst Ht1 (Nat.le_refl _))
        as (fuel & Hfuel).
      exists (S fuel). intros [|fuel'] Hle; [lia|]. apply Hra.
      rewrite (while_loop_step _ _ _ s1); [|reflexivity|exact Hit].
      apply Hfuel. lia.
  - exists 1%nat. intros [|fuel'] Hle; [lia|]. apply Hra. simpl. now rewrite Hit.
Qed.

Lemma reachable_stopped a s :
  reachable np_log norm_cdf rng_normal a s -> terminate_search s = true ->
  (iterations_before_stop a <= iterations_since_last_update s)%nat.
Proof.
  intros Hr Ht. destruct Hr as [|s0 s Hr Ht0 Hit]; [discriminate|].
  now apply (iteration_stops_at_threshold _ _ _ Ht0 Hit).
Qed.

Section Termination.

Variable a : attempt_args.
Variable sums0 : iteration_sums.
Variable fid0 : first_iteration_data.
Variables G B : Z.

Hypothesis Hreset : iterations_before_reset a <> 0%nat.
Hypothesis Hteams : (0 < length (teams_in_network a))%nat.
Hypothesis Hscale : ~ rating_adjustment_scale a == 0.
Hypothesis Hfirst : game_loop np_log a (initial_state a) = Some (sums0, fid0).
Hypothesis Hweights : Forall (fun w => ~ w == 0) (total_team_weight fid0).
Hypothesis Hnotneutral : ~ total_notneutral_weight fid0 == 0.
Hypothesis HG : (0 < G)%Z.
Hypothesis Hgrid : forall sums, on_grid G B (abs_total_error norm_cdf a fid0 sums).

Local Abbreviation n := (length (teams_in_network a)).

Lemma fresh_sums_sized : sums_sized n (fresh_sums a).
Proof. unfold sums_sized, fresh_sums, np_zeros. simpl. now rewrite !repeat_length. Qed.

Lemma zero_ratings_sized : ratings_sized n (zero_ratings a).
Proof.
  unfold ratings_sized, zero_ratings, np_add, np_zeros. simpl.
  rewrite length_zip_with, !repeat_length. lia.
Qed.

Lemma first_loop_facts :
  Forall (game_ok np_log a n) (network_game_id_list a) /\
  sums_sized n sums0 /\ length (total_team_weight fid0) = n.
Proof.
  unfold game_loop in Hfirst. simpl in Hfirst.
  apply (first_game_loop_facts a (zero_ratings a) n) in Hfirst as (Hok & Hs & Hl).
  - simpl in *. repeat split; try assumption; try apply Hs.
    rewrite Hl. unfold np_zeros. apply repeat_length.
  - apply zero_ratings_sized.
  - apply fresh_sums_sized.
Qed.

Lemma update_or_stop_steady sums s1 :
  sums_sized n sums ->
  stored s1 = fid0 ->
  ratings_sized n (cur s1) -> ratings_sized n (best s1) ->
  (exists b, best_abs_total_error s1 = Some b /\ on_grid G B b) ->
  terminate_search s1 = false ->
  exists s', update_or_stop rng_normal a sums s1 = Some s' /\
             steady a fid0 G B s' /\
             best s' = best s1 /\
             best_abs_total_error s' = best_abs_total_error s1 /\
             iterations_since_last_update s' = iterations_since_last_update s1.
Proof.
  intros Hs Hst Hc Hb Herr Ht.
  destruct first_loop_facts as (_ & _ & Lw).
  unfold update_or_stop.
  destruct (Nat.ltb_spec (iterations_since_last_update s1) (iterations_before_stop a)).
  - destruct (update_ratings_total a (stored s1) sums (cur s1) (rng_draws s1) n)
      as (c' & k' & -> & Hc'); try assumption; try (rewrite Hst; assumption).
    simpl. eexists. split; [reflexivity|].
    unfold steady. simpl. rewrite Ht. auto 10.
  - eexists. split; [reflexivity|].
    unfold steady. simpl. auto 10.
Qed.

Lemma first_iteration_steady :
  exists s1, iteration np_log norm_cdf rng_normal a (initial_state a) = Some s1 /\
             steady a fid0 G B s1.
Proof.
  destruct first_loop_facts as (_ & Hs0 & _).
  unfold iteration. rewrite Hfirst. simpl.
  edestruct (update_or_stop_steady sums0) as (s' & E & Hst & _);
    [exact Hs0| | | | | |exists s'; split; [exact E|exact Hst]]; simpl.
  - reflexivity.
  - apply zero_ratings_sized.
  - apply zero_ratings_sized.
  - eexists. split; [reflexivity|]. apply Hgrid.
  - reflexivity.
Qed.

Lemma steady_iteration s :
  steady a fid0 G B s -> terminate_search s = false ->
  exists s', iteration np_log norm_cdf rng_normal a s = Some s' /\
             steady a fid0 G B s' /\
             (((state_rank G B s' < state_rank G B s)%nat /\
               iterations_since_last_update s' = 0%nat) \/
              (state_rank G B s' = state_rank G B s /\
               iterations_since_last_update s'
               = S (iterations_since_last_update s))).
Proof.
  intros (Hf & Hst & Hc & Hb & (b & Eb & Hgb) & _) Ht.
  destruct first_loop_facts as (Hok & _ & _).
  destruct Hc as (Lo & Ld & Lr).
  destruct (later_game_loop_total a (cur s) n fid0 (network_game_id_list a)
              (fresh_sums a) Hok Lo Ld fresh_sums_sized) as (sums & Hloop & Hs).
  unfold iteration, game_loop. rewrite Hf, Hst, Hloop. simpl.
  unfold save_or_reset, update_best_stats. rewrite Hf, Eb. simpl.
  destruct (Qlt_bool (abs_total_error norm_cdf a fid0 sums) b) eqn:Hlt.
  - apply Qlt_bool_iff in Hlt.
    edestruct (update_or_stop_steady sums) as (s' & E & Hst' & _ & Ee & Ec);
      [exact Hs| | | | | |exists s'; split; [exact E|split; [exact Hst'|]]]; simpl.
    + reflexivity.
    + repeat split; assumption.
    + repeat split; assumption.
    + eexists. split; [reflexivity|]. apply Hgrid.
    + assumption.
    + left. split; [|exact Ec].
      unfold state_rank. rewrite Ee, Eb. simpl.
      apply rank_of_lt; auto.
  - destruct (Nat.eqb_spec (iterations_before_reset a) 0); [contradiction|]. simpl.
    edestruct (update_or_stop_steady sums) as (s' & E & Hst' & _ & Ee & Ec);
      [exact Hs| | | | | |exists s'; split; [exact E|split; [exact Hst'|]]]; simpl.
    + reflexivity.
    + destruct (_ =? 0)%nat; [assumption|repeat split; assumption].
    + assumption.
    + eauto.
    + assumption.
    + right. split; [|exact Ec].
      unfold state_rank. rewrite Ee, Eb. reflexivity.
Qed.

Lemma steady_terminates (m : nat) : forall s,
  steady a fid0 G B s -> terminate_search s = false ->
  (state_rank G B s * S (iterations_before_stop a)
   + (iterations_before_stop a - iterations_since_last_update s) <= m)%nat ->
  exists fuel s',
    while_loop np_log norm_cdf rng_normal fuel a s = Returned _ s' /\
    steady a fid0 G B s' /\ terminate_search s' = true.
Proof.
  induction m as [|m IH]; intros s Hst Ht Hm.
  - destruct Hst as (_ & _ & _ & _ & _ & Hc). rewrite Ht in Hc. lia.
  - destruct (steady_iteration s Hst Ht) as (s' & Hit & Hst' & Hcase).
    destruct (terminate_search s') eqn:Ht'.
    + exists 1%nat, s'. rewrite (while_loop_step _ _ _ _ Ht Hit).
      rewrite while_loop_stopped by assumption. auto.
    + assert (Hc : (iterations_since_last_update s < iterations_before_stop a)%nat).
      { destruct Hst as (_ & _ & _ & _ & _ & Hc). now rewrite Ht in Hc. }
      assert (Hc' : (iterations_since_last_update s' < iterations_before_stop a)%nat).
      { destruct Hst' as (_ & _ & _ & _ & _ & Hc'). now rewrite Ht' in Hc'. }
      destruct (IH s' Hst' Ht') as (fuel & s'' & Hw & Hst'' & Ht'').
      { destruct Hcase as [[Hr Hz] | [Hr Hs]]; [nia|rewrite Hr; lia]. }
      exists (S fuel), s''. rewrite (while_loop_step _ _ _ _ Ht Hit). auto.
Qed.

Lemma attempt_terminates :
  exists fuel s,
    while_loop np_log norm_cdf rng_normal fuel a (initial_state a) = Returned _ s /\
    (iterations_before_stop a <= iterations_since_last_update s)%nat.
Proof.
  destruct first_iteration_steady as (s1 & Hit & Hst).
  destruct (terminate_search s1) eqn:Ht1.
  - exists 1%nat, s1. rewrite (while_loop_step _ _ _ s1); [|reflexivity|exact Hit].
    rewrite while_loop_stopped by assumption. split; [reflexivity|].
    destruct Hst as (_ & _ & _ & _ & _ & Hc). now rewrite Ht1 in Hc.
  - destruct (steady_terminates _ s1 Hst Ht1 (Nat.le_refl _))
      as (fuel & s' & Hw & Hst' & Ht').
    exists (S fuel), s'. rewrite (while_loop_step _ _ _ s1); [|reflexivity|exact Hit].
    split; [assumption|].
    destruct Hst' as (_ & _ & _ & _ & _ & Hc). now rewrite Ht' in Hc.
Qed.

End Termination.

(** In the arithmetic of the embedding.  A pass of the loop sets the exit
    flag exactly when the count of iterations since the last improvement has
    reached the stop threshold; a returned value is the best state (not the
    current state) of a state of the loop in which that count has reached
    the threshold; with enough fuel no attempt is still running; and on
    well-formed input the attempt does return.  The values of the normal
    distribution function are taken to be whole multiples of a quantum
    between 0 and 1, as binary64 values are.  Well-formed input: the first
    pass over the games succeeds and leaves a nonzero total weight for every
    team and for the games that are not at a neutral site, the adjustment
    scale and the reset interval are not zero, and there is a team. *)
Lemma attempt_in_finite_numbers_terminates a N :
  cdf_quantised norm_cdf N ->
  (forall s s',
     terminate_search s = false ->
     iteration np_log norm_cdf rng_normal a s = Some s' ->
     (terminate_search s' = true <->
      (iterations_before_stop a <= iterations_since_last_update s')%nat)) /\
  (forall fuel r,
     rating_attempt np_log norm_cdf rng_normal fuel a = Returned _ r ->
     exists s, reachable np_log norm_cdf rng_normal a s /\
               (iterations_before_stop a <= iterations_since_last_update s)%nat /\
               r = best s) /\
  (exists fuel, forall fuel', (fuel <= fuel')%nat ->
     rating_attempt np_log norm_cdf rng_normal fuel' a <> OutOfFuel _) /\
  (forall sums0 fid0,
     iterations_before_reset a <> 0%nat ->
     (0 < length (teams_in_network a))%nat ->
     ~ rating_adjustment_scale a == 0 ->
     game_loop np_log a (initial_state a) = Some (sums0, fid0) ->
     Forall (fun w => ~ w == 0) (total_team_weight fid0) ->
     ~ total_notneutral_weight fid0 == 0 ->
     exists fuel s,
       (iterations_before_stop a <= iterations_since_last_update s)%nat /\
       forall fuel', (fuel <= fuel')%nat ->
         rating_attempt np_log norm_cdf rng_normal fuel' a = Returned _ (best s)).
Proof.
  intros HN. split; [|split; [|split]].
  - intros s s'. apply iteration_stops_at_threshold.
  - intros fuel r H. unfold rating_attempt in H.
    destruct (while_loop _ _ _ fuel a (initial_state a)) as [s| |] eqn:Hw;
      try discriminate.
    injection H as <-.
    apply while_loop_reachable in Hw as [Hr Ht]; [|constructor].
    exists s. repeat split; [assumption|]. now apply reachable_stopped.
  - now apply (attempt_halts a N).
  - intros sums0 fid0 Hreset Hteams Hscale Hfirst Hw Hnn.
    destruct (abs_total_error_on_grid N a fid0 HN) as (G & B & HG & Hgrid).
    destruct (attempt_terminates a sums0 fid0 G B Hreset Hteams Hscale Hfirst Hw Hnn
                HG Hgrid) as (fuel & s & Hloop & Hstop).
    exists fuel, s. split; [assumption|].
    intros fuel' Hle. unfold rating_attempt.
    now rewrite (while_loop_more_fuel _ _ _ _ _ Hloop Hle).
Qed.

End AttemptProperties.

(** ** The search loop, whatever the arithmetic *)

Section SearchProperties.

Variable error : Type.
Variable error_lt : error -> error -> bool.
Variables ratings sums store : Type.
Variable games_and_error :
  bool -> ratings -> store -> option (error * sums * store).
Variable update_ratings : sums -> ratings -> store -> option (ratings * store).
Variables iterations_before_reset iterations_before_stop : nat.

Local Notation state := (Search.loop_state error ratings store).
Local Notation search_iteration :=
  (Search.loop_iteration error_lt games_and_error update_ratings
     iterations_before_reset iterations_before_stop).
Local Notation search_loop :=
  (Search.loop_while_loop error_lt games_and_error update_ratings
     iterations_before_reset iterations_before_stop).
Local Notation search_visited :=
  (Search.visited error_lt games_and_error update_ratings
     iterations_before_reset iterations_before_stop).
Local Notation search_reachable :=
  (Search.loop_reachable error_lt games_and_error update_ratings
     iterations_before_reset iterations_before_stop).
Local Notation search_attempt :=
  (Search.loop_rating_attempt error_lt games_and_error update_ratings
     iterations_before_reset iterations_before_stop).

Lemma search_iteration_inv (s s' : state) :
  search_iteration s = Some s' ->
  exists e sm x s1,
    games_and_error (Search.loop_first_iteration s) (Search.loop_cur s)
      (Search.loop_kept s)
    = Some (e, sm, x) /\
    Search.error_of games_and_error s = Some e /\
    Search.loop_save_or_reset error_lt iterations_before_reset s e x = Some s1 /\
    Search.loop_update_or_stop update_ratings iterations_before_stop sm s1 = Some s'.
Proof.
  unfold Search.loop_iteration, Search.error_of. intros H.
  destruct (games_and_error _ _ _) as [[[e sm] x]|]; [|discriminate]. cbn in H.
  destruct (Search.loop_save_or_reset _ _ _ _ _) as [s1|] eqn:E1; [|discriminate].
  cbn in H. exists e, sm, x, s1. auto.
Qed.

Lemma search_save_cases (s s1 : state) e x :
  Search.loop_save_or_reset error_lt iterations_before_reset s e x = Some s1 ->
  Search.loop_terminate_search s1 = Search.loop_terminate_search s /\
  Search.loop_first_iteration s1 = Search.loop_first_iteration s /\
  ((Search.loop_best s1 = Search.loop_cur s /\
    Search.loop_best_abs_total_error s1 = Some e /\
    Search.loop_iterations_since_last_update s1 = 0%nat /\
    (Search.loop_first_iteration s = true \/
     exists b, Search.loop_first_iteration s = false /\
               Search.loop_best_abs_total_error s = Some b /\ error_lt e b = true)) \/
   (Search.loop_best s1 = Search.loop_best s /\
    Search.loop_best_abs_total_error s1 = Search.loop_best_abs_total_error s /\
    Search.loop_iterations_since_last_update s1
    = S (Search.loop_iterations_since_last_update s) /\
    Search.loop_first_iteration s = false /\
    exists b, Search.loop_best_abs_total_error s = Some b /\ error_lt e b = false)).
Proof.
  unfold Search.loop_save_or_reset, Search.loop_update_best_stats. intros H.
  destruct (Search.loop_first_iteration s) eqn:Ef.
  - cbn in H. injection H as <-. cbn. auto 10.
  - destruct (Search.loop_best_abs_total_error s) as [b|] eqn:Eb; [|discriminate].
    cbn in H. destruct (error_lt e b) eqn:El.
    + injection H as <-. cbn. split; [reflexivity|].
      split; [reflexivity|]. left. eauto 10.
    + destruct (iterations_before_reset =? 0)%nat; [discriminate|].
      injection H as <-. cbn. split; [reflexivity|].
      split; [reflexivity|]. right. eauto 10.
Qed.

Lemma search_update_cases sm (s1 s' : state) :
  Search.loop_update_or_stop update_ratings iterations_before_stop sm s1 = Some s' ->
  Search.loop_best s' = Search.loop_best s1 /\
  Search.loop_best_abs_total_error s' = Search.loop_best_abs_total_error s1 /\
  Search.loop_iterations_since_last_update s'
  = Search.loop_iterations_since_last_update s1 /\
  Search.loop_first_iteration s' = false /\
  (((Search.loop_iterations_since_last_update s1 < iterations_before_stop)%nat /\
    Search.loop_terminate_search s' = Search.loop_terminate_search s1) \/
   ((iterations_before_stop <= Search.loop_iterations_since_last_update s1)%nat /\
    Search.loop_terminate_search s' = true)).
Proof.
  unfold Search.loop_update_or_stop. intros H.
  destruct (Search.loop_iterations_since_last_update s1 <? iterations_before_stop)%nat
    eqn:Elt.
  - destruct (update_ratings _ _ _) as [[c x]|]; [|discriminate].
    cbn in H. injection H as <-. cbn. apply Nat.ltb_lt in Elt. auto 10.
  - injection H as <-. cbn. apply Nat.ltb_ge in Elt. auto 10.
Qed.

(** What a pass leaves. *)
Lemma search_iteration_facts (s s' : state) :
  Search.loop_terminate_search s = false ->
  search_iteration s = Some s' ->
  Search.loop_first_iteration s' = false /\
  (exists b, Search.loop_best_abs_total_error s' = Some b) /\
  (Search.loop_terminate_search s' = true <->
   (iterations_before_stop <= Search.loop_iterations_since_last_update s')%nat).
Proof.
  intros Ht Hit.
  apply search_iteration_inv in Hit as (e & sm & x & s1 & _ & _ & Hsave & Hupd).
  apply search_save_cases in Hsave as (Et & _ & Hsave).
  apply search_update_cases in Hupd as (_ & Eb & Ec & Ef & Hupd).
  split; [exact Ef|]. split.
  - rewrite Eb. destruct Hsave as [(_ & -> & _) | (_ & -> & _ & _ & b & -> & _)];
      eauto.
  - rewrite Ec. destruct Hupd as [[Hlt Et'] | [Hge Et']].
    + rewrite Et', Et, Ht. split; [discriminate|lia].
    + rewrite Et'. tauto.
Qed.

Lemma search_loop_stopped fuel (s : state) :
  Search.loop_terminate_search s = true -> search_loop fuel s = Returned _ s.
Proof. intros H. destruct fuel; simpl; now rewrite H. Qed.

Lemma search_loop_step fuel (s s' : state) :
  Search.loop_terminate_search s = false -> search_iteration s = Some s' ->
  search_loop (S fuel) s = search_loop fuel s'.
Proof. intros Ht Hit. simpl. now rewrite Ht, Hit. Qed.

Lemma search_loop_fails fuel (s : state) :
  Search.loop_terminate_search s = false -> search_iteration s = None ->
  search_loop (S fuel) s = Failed _.
Proof. intros Ht Hit. simpl. now rewrite Ht, Hit. Qed.

Lemma search_loop_reachable fuel : forall (s0 s sf : state),
  search_reachable s0 s -> search_loop fuel s = Returned _ sf ->
  search_reachable s0 sf /\ Search.loop_terminate_search sf = true.
Proof.
  induction fuel as [|fuel IH]; intros s0 s sf Hr H; simpl in H.
  - destruct (Search.loop_terminate_search s) eqn:Ht; [|discriminate].
    injection H as <-. auto.
  - destruct (Search.loop_terminate_search s) eqn:Ht.
    + injection H as <-. auto.
    + destruct (search_iteration s) as [s'|] eqn:Hit; [|discriminate].
      eapply IH; [|exact H]. econstructor; eassumption.
Qed.

Lemma search_reachable_facts (s0 s : state) :
  search_reachable s0 s ->
  s = s0 \/
  (Search.loop_first_iteration s = false /\
   (Search.loop_terminate_search s = true <->
    (iterations_before_stop <= Search.loop_iterations_since_last_update s)%nat)).
Proof.
  intros [|s1 s2 Hr Ht Hit]; [left; reflexivity|right].
  destruct (search_iteration_facts _ _ Ht Hit) as (Hf & _ & Hstop). auto.
Qed.

(** *** The loop ends *)

Section Halts.

Variable rank : error -> nat.
Variable s0 : state.

Hypothesis Hrank : forall (s : state) e sm x b,
  search_reachable s0 s ->
  Search.loop_terminate_search s = false ->
  Search.loop_first_iteration s = false ->
  games_and_error false (Search.loop_cur s) (Search.loop_kept s) = Some (e, sm, x) ->
  Search.loop_best_abs_total_error s = Some b ->
  error_lt e b = true ->
  (rank e < rank b)%nat.

Lemma search_halts (m : nat) : forall (s : state) b,
  search_reachable s0 s ->
  Search.loop_first_iteration s = false ->
  Search.loop_terminate_search s = false ->
  Search.loop_best_abs_total_error s = Some b ->
  (Search.loop_iterations_since_last_update s < iterations_before_stop)%nat ->
  (rank b * S iterations_before_stop
   + (iterations_before_stop - Search.loop_iterations_since_last_update s) <= m)%nat ->
  exists fuel, forall fuel', (fuel <= fuel')%nat ->
    search_loop fuel' s <> OutOfFuel _.
Proof.
  induction m as [|m IH]; intros s b Hr Hf Ht Hb Hc Hm; [lia|].
  destruct (search_iteration s) as [s'|] eqn:Hit.
  - assert (Hr' : search_reachable s0 s') by (econstructor; eassumption).
    destruct (search_iteration_facts s s' Ht Hit) as (Hf' & [b' Hb'] & Hstop).
    destruct (Search.loop_terminate_search s') eqn:Ht'.
    + exists 1%nat. intros [|fuel'] Hle; [lia|].
      rewrite (search_loop_step _ s s' Ht Hit), search_loop_stopped by assumption.
      discriminate.
    + assert (Hc' : (Search.loop_iterations_since_last_update s'
                     < iterations_before_stop)%nat).
      { destruct (Nat.lt_ge_cases (Search.loop_iterations_since_last_update s')
                    iterations_before_stop) as [H|H]; [exact H|].
        apply Hstop in H. congruence. }
      pose proof Hit as Hit'.
      apply search_iteration_inv in Hit' as (e & sm & x & s1 & Hg & _ & Hsave & Hupd).
      rewrite Hf in Hg.
      apply search_save_cases in Hsave as (_ & _ & Hsave).
      apply search_update_cases in Hupd as (_ & Eb & Ec & _ & _).
      destruct (IH s' b' Hr' Hf' Ht' Hb' Hc') as (fuel & Hfuel).
      { rewrite Ec. rewrite Eb in Hb'.
        destruct Hsave as [(_ & Eb1 & Ec1 & Himp) | (_ & Eb1 & Ec1 & _)].
        - destruct Himp as [Hf1 | (b1 & _ & Hb1 & Hlt)]; [congruence|].
          assert (b1 = b) by congruence. subst b1.
          assert (b' = e) by congruence. subst b'.
          pose proof (Hrank s e sm x b Hr Ht Hf Hg Hb Hlt). rewrite Ec1. nia.
        - rewrite Eb1, Hb in Hb'. injection Hb' as <-. rewrite Ec1. rewrite Ec in Hc'.
          rewrite Ec1 in Hc'. lia. }
      exists (S fuel). intros [|fuel'] Hle; [lia|].
      rewrite (search_loop_step _ s s' Ht Hit). apply Hfuel. lia.
  - exists 1%nat. intros [|fuel'] Hle; [lia|].
    rewrite (search_loop_fails _ s Ht Hit). discriminate.
Qed.

Lemma search_halts_from_start :
  Search.loop_terminate_search s0 = false ->
  Search.loop_first_iteration s0 = true ->
  exists fuel, forall fuel', (fuel <= fuel')%nat ->
    search_loop fuel' s0 <> OutOfFuel _.
Proof.
  intros Ht Hf.
  destruct (search_iteration s0) as [s1|] eqn:Hit.
  - assert (Hr : search_reachable s0 s1)
      by (econstructor; [constructor|eassumption..]).
    destruct (search_iteration_facts s0 s1 Ht Hit) as (Hf1 & [b Hb] & Hstop).
    destruct (Search.loop_terminate_search s1) eqn:Ht1.
    + exists 1%nat. intros [|fuel'] Hle; [lia|].
      rewrite (search_loop_step _ s0 s1 Ht Hit), search_loop_stopped by assumption.
      discriminate.
    + assert (Hc : (Search.loop_iterations_since_last_update s1
                    < iterations_before_stop)%nat).
      { destruct (Nat.lt_ge_cases (Search.loop_iterations_since_last_update s1)
                    iterations_before_stop) as [H|H]; [exact H|].
        apply Hstop in H. congruence. }
      destruct (search_halts _ s1 b Hr Hf1 Ht1 Hb Hc (Nat.le_refl _))
        as (fuel & Hfuel).
      exists (S fuel). intros [|fuel'] Hle; [lia|].
      rewrite (search_loop_step _ s0 s1 Ht Hit). apply Hfuel. lia.
  - exists 1%nat. intros [|fuel'] Hle; [lia|].
    rewrite (search_loop_fails _ s0 Ht Hit). discriminate.
Qed.

End Halts.

(** *** What the loop returns *)

Section Best.

Hypothesis Hirrefl : forall e, error_lt e e = false.
Hypothesis Htrans : forall e1 e2 e3,
  error_lt e1 e2 = true -> error_lt e2 e3 = true -> error_lt e1 e3 = true.

Lemma best_of_iteration h (s s' : state) e :
  (Search.loop_first_iteration s = true -> h = []) ->
  (Search.loop_first_iteration s = false -> Search.best_of error_lt h s) ->
  Search.error_of games_and_error s = Some e ->
  search_iteration s = Some s' ->
  Search.best_of error_lt (h ++ [(Search.loop_cur s, e)]) s'.
Proof.
  intros Hfirst Hinv He Hit.
  apply search_iteration_inv in Hit as (e1 & sm & x & s1 & _ & He1 & Hsave & Hupd).
  assert (e1 = e) by congruence. subst e1.
  apply search_save_cases in Hsave as (_ & _ & Hsave).
  apply search_update_cases in Hupd as (Ebest & Eerr & _).
  unfold Search.best_of. rewrite Ebest, Eerr.
  destruct Hsave as [(Eb1 & Ee1 & _ & Himp) | (Eb1 & Ee1 & _ & Hf & b & Hb & Hlt)].
  - rewrite Eb1, Ee1. exists (length h), e.
    split; [rewrite lookup_app_r, Nat.sub_diag by lia; reflexivity|].
    split; [reflexivity|].
    intros j r e' Hj.
    destruct (Nat.lt_ge_cases j (length h)) as [Hlt|Hge].
    + rewrite lookup_app_l in Hj by assumption.
      destruct Himp as [Hf | (b & Hf & Hb & Hlt')].
      * rewrite (Hfirst Hf) in Hj. discriminate.
      * destruct (Hinv Hf) as (k & eb & _ & Heb & Hmin).
        assert (eb = b) by congruence. subst eb.
        destruct (error_lt e' e) eqn:El; [|reflexivity].
        pose proof (Hmin j r e' Hj) as Hx.
        rewrite (Htrans _ _ _ El Hlt') in Hx. discriminate.
    + rewrite lookup_app_r in Hj by assumption.
      destruct (j - length h)%nat; [|destruct n; discriminate].
      injection Hj as _ <-. apply Hirrefl.
  - rewrite Eb1, Ee1. destruct (Hinv Hf) as (k & eb & Hk & Heb & Hmin).
    assert (eb = b) by congruence. subst eb.
    exists k, b. split; [apply lookup_app_l_Some; exact Hk|].
    split; [exact Hb|].
    intros j r e' Hj.
    destruct (Nat.lt_ge_cases j (length h)) as [Hlt'|Hge].
    + rewrite lookup_app_l in Hj by assumption. eapply Hmin; eassumption.
    + rewrite lookup_app_r in Hj by assumption.
      destruct (j - length h)%nat; [|destruct n; discriminate].
      injection Hj as _ <-. exact Hlt.
Qed.

Lemma search_loop_best fuel : forall h (s sf : state),
  (Search.loop_first_iteration s = true -> h = []) ->
  (Search.loop_first_iteration s = false -> Search.best_of error_lt h s) ->
  search_loop fuel s = Returned _ sf ->
  Search.loop_first_iteration sf = false ->
  Search.best_of error_lt (h ++ search_visited fuel s) sf.
Proof.
  induction fuel as [|fuel IH]; intros h s sf Hfirst Hinv H Hf; simpl in H |- *.
  - destruct (Search.loop_terminate_search s); [|discriminate].
    injection H as <-. rewrite app_nil_r. auto.
  - destruct (Search.loop_terminate_search s) eqn:Ht.
    + injection H as <-. rewrite app_nil_r. auto.
    + destruct (search_iteration s) as [s'|] eqn:Hit; [|discriminate].
      pose proof Hit as Hit'.
      apply search_iteration_inv in Hit' as (e & _ & _ & _ & _ & He & _).
      rewrite He.
      replace (h ++ (Search.loop_cur s, e) :: search_visited fuel s')
        with ((h ++ [(Search.loop_cur s, e)]) ++ search_visited fuel s')
        by (rewrite <- app_assoc; reflexivity).
      destruct (search_iteration_facts s s' Ht Hit) as (Hf' & _).
      apply IH; try assumption.
      * intros Hc. congruence.
      * intros _. eapply best_of_iteration; eassumption.
Qed.

End Best.


End SearchProperties.

(** ** [rating_attempt] is an instance of the search loop *)

Section AttemptIsSearch.

Variable np_log : Q -> Q.
Variable norm_cdf : Q -> Q -> Q -> Q.
Variable rng_normal : nat -> nat -> Q -> Q -> Q.

Local Notation search_iteration a :=
  (Search.loop_iteration Qlt_bool (games_and_error np_log norm_cdf a)
     (ratings_update rng_normal a)
     (iterations_before_reset a) (iterations_before_stop a)).
Local Notation search_loop a :=
  (Search.loop_while_loop Qlt_bool (games_and_error np_log norm_cdf a)
     (ratings_update rng_normal a)
     (iterations_before_reset a) (iterations_before_stop a)).
Local Notation search_attempt a :=
  (Search.loop_rating_attempt Qlt_bool (games_and_error np_log norm_cdf a)
     (ratings_update rng_normal a)
     (iterations_before_reset a) (iterations_before_stop a)).
Local Notation search_reachable a :=
  (Search.loop_reachable Qlt_bool (games_and_error np_log norm_cdf a)
     (ratings_update rng_normal a)
     (iterations_before_reset a) (iterations_before_stop a)).

Lemma iteration_is_search_iteration a s :
  search_iteration a (search_state s)
  = search_state <$> iteration np_log norm_cdf rng_normal a s.
Proof.
  unfold Search.loop_iteration, iteration, games_and_error, game_loop. cbn.
  destruct (for_each _ _ _) as [[sums fid]|]; [|reflexivity]. cbn.
  unfold Search.loop_save_or_reset, save_or_reset,
    Search.loop_update_best_stats, update_best_stats. cbn.
  assert (Hupd : forall s1 : attempt_state,
            Search.loop_update_or_stop (ratings_update rng_normal a)
              (iterations_before_stop a) sums (search_state s1)
            = search_state <$> update_or_stop rng_normal a sums s1).
  { intros s1. unfold Search.loop_update_or_stop, update_or_stop, ratings_update.
    cbn [search_state Search.loop_iterations_since_last_update Search.loop_cur
         Search.loop_kept fst snd].
    destruct (iterations_since_last_update s1 <? iterations_before_stop a)%nat;
      [|reflexivity].
    destruct (update_ratings _ _ _ _ _ _) as [[c k]|]; reflexivity. }
  destruct (first_iteration s).
  - cbn [mbind option_bind]. apply (Hupd {| best := cur s |}).
  - destruct (best_abs_total_error s) as [b|]; [|reflexivity].
    cbn [mbind option_bind].
    destruct (Qlt_bool _ b).
    + apply (Hupd {| best := cur s |}).
    + destruct (iterations_before_reset a =? 0)%nat; [reflexivity|].
      cbn [mbind option_bind]. apply (Hupd {| best := best s |}).
Qed.

Lemma while_loop_is_search_loop fuel a : forall s,
  search_loop a fuel (search_state s)
  = match while_loop np_log norm_cdf rng_normal fuel a s with
    | Returned _ s' => Returned _ (search_state s')
    | Failed _ => Failed _
    | OutOfFuel _ => OutOfFuel _
    end.
Proof.
  induction fuel as [|fuel IH]; intros s; simpl.
  - destruct (terminate_search s); reflexivity.
  - destruct (terminate_search s); [reflexivity|].
    rewrite iteration_is_search_iteration.
    destruct (iteration np_log norm_cdf rng_normal a s) as [s'|]; [|reflexivity].
    apply IH.
Qed.

(** The embedding of [rating_attempt] is the search loop with the pass over
    the games and the update computed in the arithmetic of the embedding. *)
Lemma rating_attempt_is_search_attempt fuel a :
  search_attempt a fuel (zero_ratings a) (fresh_stored a, 0%nat)
  = rating_attempt np_log norm_cdf rng_normal fuel a.
Proof.
  unfold Search.loop_rating_attempt, rating_attempt.
  change (Search.loop_initial_state (zero_ratings a) (fresh_stored a, 0%nat))
    with (search_state (initial_state a)).
  rewrite while_loop_is_search_loop.
  destruct (while_loop np_log norm_cdf rng_normal fuel a (initial_state a));
    reflexivity.
Qed.

Lemma search_reachable_is_reachable a ls :
  search_reachable a (search_state (initial_state a)) ls ->
  exists s, ls = search_state s /\ reachable np_log norm_cdf rng_normal a s.
Proof.
  induction 1 as [|ls ls' Hr (s & -> & Hs) Ht Hit].
  - exists (initial_state a). split; [reflexivity|constructor].
  - rewrite iteration_is_search_iteration in Hit.
    destruct (iteration np_log norm_cdf rng_normal a s) as [s'|] eqn:E;
      [|discriminate].
    injection Hit as <-. exists s'. split; [reflexivity|].
    econstructor; eassumption.
Qed.

Lemma reachable_settled a fid0 G B s1 :
  (0 < G)%Z ->
  (forall sums, on_grid G B (abs_total_error norm_cdf a fid0 sums)) ->
  iteration np_log norm_cdf rng_normal a (initial_state a) = Some s1 ->
  settled a fid0 G B s1 ->
  forall s, reachable np_log norm_cdf rng_normal a s ->
    s = initial_state a \/ settled a fid0 G B s.
Proof.
  intros HG Hgrid Hit1 Hst1 s Hr.
  induction Hr as [|s s' Hr IH Ht Hit]; [left; reflexivity|right].
  destruct IH as [-> | Hst].
  - congruence.
  - eapply settled_iteration; eassumption.
Qed.

(** With a quantised distribution function the errors of an attempt lie on
    a grid, and their place on it is a rank that every improvement of the
    loop lowers. *)
Lemma improvements_lower_a_rank a N :
  cdf_quantised norm_cdf N ->
  exists rank : Q -> nat,
    forall (ls : Search.loop_state Q rating_state (first_iteration_data * nat))
           e sm x b,
      search_reachable a (Search.loop_initial_state (zero_ratings a)
                            (fresh_stored a, 0%nat)) ls ->
      Search.loop_terminate_search ls = false ->
      Search.loop_first_iteration ls = false ->
      games_and_error np_log norm_cdf a false (Search.loop_cur ls) (Search.loop_kept ls)
      = Some (e, sm, x) ->
      Search.loop_best_abs_total_error ls = Some b ->
      Qlt_bool e b = true ->
      (rank e < rank b)%nat.
Proof.
  intros HN.
  change (Search.loop_initial_state (zero_ratings a) (fresh_stored a, 0%nat))
    with (search_state (initial_state a)).
  destruct (iteration np_log norm_cdf rng_normal a (initial_state a))
    as [s1|] eqn:Hit.
  - pose proof Hit as Hit'.
    apply iteration_inv in Hit' as (sums0 & fid0 & s0 & Hloop & Hsave & Hupd).
    destruct (abs_total_error_on_grid norm_cdf N a fid0 HN) as (G & B & HG & Hgrid).
    unfold save_or_reset, update_best_stats in Hsave. simpl in Hsave.
    injection Hsave as <-.
    assert (Hst : settled a fid0 G B s1).
    { eapply update_or_stop_settled;
        [exact Hupd|reflexivity| |reflexivity].
      simpl. eexists. split; [reflexivity|apply Hgrid]. }
    exists (rank_of G B). intros ls e sm x b Hr Ht Hf Hg Hb Hlt.
    apply search_reachable_is_reachable in Hr as (s & -> & Hr).
    cbn in Ht, Hf, Hg, Hb.
    destruct (reachable_settled a fid0 G B s1 HG Hgrid Hit Hst s Hr)
      as [-> | (_ & Hstored & (b' & Hb' & Hgb) & _)]; [discriminate Hf|].
    assert (b' = b) by congruence. subst b'.
    unfold games_and_error in Hg. cbn in Hg.
    destruct (for_each _ _ _) as [[sums fid]|] eqn:Hloop'; [|discriminate].
    cbn in Hg. injection Hg as <- _ _.
    apply later_game_loop_keeps_stored in Hloop'. cbn in Hloop'.
    rewrite Hloop', Hstored.
    apply rank_of_lt; [exact HG|exact Hgb|apply Hgrid|].
    apply Qlt_bool_iff. rewrite <- Hlt. f_equal.
    rewrite Hloop', Hstored. reflexivity.
  - exists (fun _ => 0%nat). intros ls e sm x b Hr Ht Hf Hg Hb Hlt. exfalso.
    apply search_reachable_is_reachable in Hr as (s & -> & Hr).
    cbn in Hf.
    assert (s = initial_state a).
    { clear -Hr Hit. induction Hr as [|s s' Hr IH Ht' Hit']; [reflexivity|].
      subst s. congruence. }
    subst s. discriminate Hf.
Qed.

End AttemptIsSearch.

Lemma Qlt_bool_irrefl e : Qlt_bool e e = false.
Proof.
  destruct (Qlt_bool e e) eqn:E; [|reflexivity].
  apply Qlt_bool_iff in E. exfalso. exact (Qlt_irrefl e E).
Qed.

Lemma Qlt_bool_trans e1 e2 e3 :
  Qlt_bool e1 e2 = true -> Qlt_bool e2 e3 = true -> Qlt_bool e1 e3 = true.
Proof.
  rewrite !Qlt_bool_iff. apply Qlt_trans.
Qed.


(** ** The calibration *)

Section CalibrationProperties.

Variable norm_cdf : Q -> Q -> Q -> Q.
Variable t_cdf : Q -> Q -> Q -> Q -> Q.
Variable np_std : list Q -> Q.
Variable t_fit : list Q -> option Q -> option Q.

Lemma Qeq_bool_reflect x y : reflect (x == y) (Qeq_bool x y).
Proof.
  destruct (Qeq_bool x y) eqn:E; constructor.
  - now apply Qeq_bool_iff.
  - now apply Qeq_bool_neq.
Qed.

(** When is a game left out of the samples?  The test on the season is
    made on the season that the variable holds, not on the season of the
    game. *)
Lemma include_game_false_iff a season id pre :
  input_games_is_preseason a !! id = Some pre ->
  (include_game a season id = Some false <->
   (use_preseason_var a = true /\ pre = true /\ preseason_weight a == 0) \/
   (use_preseason_var a = true /\ pre = true /\ (season < season_to_rank a)%Z /\
    prior_preseason_weight a == 0) \/
   ((season < season_to_rank a)%Z /\ prior_season_weight a == 0)).
Proof.
  intros Hpre. unfold include_game. rewrite Hpre.
  destruct (Z.ltb_spec season (season_to_rank a));
    destruct (Qeq_bool_reflect (prior_season_weight a) 0);
    destruct (Qeq_bool_reflect (prior_preseason_weight a) 0);
    destruct (Qeq_bool_reflect (preseason_weight a) 0);
    destruct (use_preseason_var a); destruct pre; simpl;
    (split; [intros [= ]; tauto | intros Hcases; try reflexivity; exfalso;
             destruct Hcases as [(? & ? & ?) | [(? & ? & ? & ?) | (? & ?)]];
             try discriminate; try contradiction; try lia]).
Qed.

(** The home score of the calibration is the formula of the optimizer
    without the floor at zero; its away score adds the defense rating of the
    home team where the optimizer subtracts it. *)
Lemma calibration_scores a m g ph pa :
  cur_game_predicted_home_score a m g = Some ph ->
  cur_game_predicted_away_score a m g = Some pa ->
  exists off_home def_away off_away def_home,
    median_team_off_ratings m !! cal_homeidx g = Some off_home /\
    median_team_def_ratings m !! cal_awayidx g = Some def_away /\
    median_team_off_ratings m !! cal_awayidx g = Some off_away /\
    median_team_def_ratings m !! cal_homeidx g = Some def_home /\
    ph == off_home + (if cal_is_neutral_site g then 0 else median_home_advantage m / 2)
          - def_away + network_game_score_mean a /\
    pa == off_away - (if cal_is_neutral_site g then 0 else median_home_advantage m / 2)
          - def_home + network_game_score_mean a + 2 * def_home.
Proof.
  unfold cur_game_predicted_home_score, cur_game_predicted_away_score.
  intros Hh Ha. inv_bind Hh. inv_bind Ha.
  injection Hh as <-. injection Ha as <-.
  eexists _, _, _, _. do 4 (split; [reflexivity|]).
  split; rewrite int_not_half; ring.
Qed.

(** ** The search of the tie bound *)

Lemma bound_at_nonneg step k : 0 <= step -> 0 <= bound_at step k.
Proof.
  intros Hs. induction k as [|k IH]; simpl; [apply Qle_refl|].
  apply (Qle_trans _ (0 + 0)); [apply Qle_refl|]. now apply Qplus_le_compat.
Qed.

Lemma tie_mass_mono m b1 b2 pm :
  cdfs_monotone norm_cdf t_cdf m -> b1 <= b2 ->
  tie_mass norm_cdf t_cdf m b1 pm <= tie_mass norm_cdf t_cdf m b2 pm.
Proof.
  intros [Hn Ht] Hb. unfold tie_mass.
  assert (Hopp : - b2 <= - b1) by now apply Qopp_le_compat.
  destruct (use_normal m).
  - pose proof (Hn _ _ pm Hb). pose proof (Hn _ _ pm Hopp). lra.
  - pose proof (Ht _ _ pm Hb). pose proof (Ht _ _ pm Hopp). lra.
Qed.

Lemma tie_mass_nonneg m b pm :
  cdfs_monotone norm_cdf t_cdf m -> 0 <= b -> 0 <= tie_mass norm_cdf t_cdf m b pm.
Proof.
  intros [Hn Ht] Hb. unfold tie_mass.
  assert (Hopp : - b <= b) by lra.
  destruct (use_normal m).
  - pose proof (Hn _ _ pm Hopp). lra.
  - pose proof (Ht _ _ pm Hopp). lra.
Qed.

Lemma tie_add_mass m b pm sum :
  tie_add norm_cdf t_cdf m b pm sum == sum + tie_mass norm_cdf t_cdf m b pm.
Proof. unfold tie_add, tie_mass. destruct (use_normal m); ring. Qed.

Lemma tie_body_inv a m season b acc id acc' :
  tie_body norm_cdf t_cdf a m season b acc id = Some acc' ->
  (include_game_tie a season id = Some false /\ acc' = acc) \/
  (exists g pm,
     include_game_tie a season id = Some true /\
     read_calibration_game a m id = Some g /\
     cur_game_predicted_margin m g = Some pm /\
     acc' = (tie_add norm_cdf t_cdf m b pm (fst acc), S (snd acc))).
Proof.
  unfold tie_body. intros H. inv_bind H. destruct b0.
  - inv_bind H. injection H as <-. right. eauto 10.
  - injection H as <-. left. auto.
Qed.

Lemma tie_sums_mono a m season b1 b2 ids :
  cdfs_monotone norm_cdf t_cdf m -> b1 <= b2 ->
  forall acc1 acc2 acc1' acc2',
    for_each (tie_body norm_cdf t_cdf a m season b1) ids acc1 = Some acc1' ->
    for_each (tie_body norm_cdf t_cdf a m season b2) ids acc2 = Some acc2' ->
    fst acc1 <= fst acc2 -> snd acc1 = snd acc2 ->
    fst acc1' <= fst acc2' /\ snd acc1' = snd acc2'.
Proof.
  intros Hmono Hb. induction ids as [|id ids IH];
    intros acc1 acc2 acc1' acc2' H1 H2 Hle Hn; simpl in H1, H2.
  - injection H1 as <-. injection H2 as <-. auto.
  - inv_bind H1. inv_bind H2.
    apply (IH _ _ _ _ H1 H2);
      apply tie_body_inv in E as [[Ei ->] | (g & pm & Ei & Eg & Epm & ->)];
      apply tie_body_inv in E0 as [[Ei' ->] | (g' & pm' & Ei' & Eg' & Epm' & ->)];
      try congruence; simpl; try assumption.
    + assert (g' = g) by congruence. subst g'.
      assert (pm' = pm) by congruence. subst pm'.
      rewrite !tie_add_mass.
      apply Qplus_le_compat; [assumption|]. now apply tie_mass_mono.
    + congruence.
Qed.

Lemma tie_sums_nonneg a m season b ids :
  cdfs_monotone norm_cdf t_cdf m -> 0 <= b ->
  forall acc acc',
    for_each (tie_body norm_cdf t_cdf a m season b) ids acc = Some acc' ->
    0 <= fst acc -> 0 <= fst acc'.
Proof.
  intros Hmono Hb. induction ids as [|id ids IH]; intros acc acc' H Hle; simpl in H.
  - now injection H as <-.
  - inv_bind H. apply (IH _ _ H).
    apply tie_body_inv in E as [[Ei ->] | (g & pm & Ei & Eg & Epm & ->)];
      [assumption|]. simpl. rewrite tie_add_mass.
    pose proof (tie_mass_nonneg m b pm Hmono Hb). lra.
Qed.

Lemma fdiv_count_le s1 s2 n q1 q2 :
  fdiv s1 (inject_Z (Z.of_nat n)) = Some q1 ->
  fdiv s2 (inject_Z (Z.of_nat n)) = Some q2 ->
  s1 <= s2 -> q1 <= q2.
Proof.
  intros H1 H2 Hle.
  apply fdiv_inv in H1 as [Hn ->]. apply fdiv_inv in H2 as [_ ->].
  unfold Qdiv. apply Qmult_le_compat_r; [assumption|].
  apply Qinv_le_0_compat. change 0 with (inject_Z 0).
  rewrite <- Zle_Qle. lia.
Qed.

Lemma tie_probability_mono a m season b1 b2 p1 p2 :
  cdfs_monotone norm_cdf t_cdf m -> b1 <= b2 ->
  cur_cdf_tie_probability norm_cdf t_cdf a m season b1 = Some p1 ->
  cur_cdf_tie_probability norm_cdf t_cdf a m season b2 = Some p2 ->
  p1 <= p2.
Proof.
  intros Hmono Hb H1 H2. unfold cur_cdf_tie_probability in H1, H2.
  inv_bind H1. inv_bind H2. destruct p as [s1 n1], p0 as [s2 n2].
  destruct (tie_sums_mono a m season b1 b2 _ Hmono Hb _ _ _ _ E E0) as [Hs Hn];
    [apply Qle_refl|reflexivity|].
  simpl in Hs, Hn. subst n2. eapply fdiv_count_le; eassumption.
Qed.

Lemma tie_probability_nonneg a m season b p :
  cdfs_monotone norm_cdf t_cdf m -> 0 <= b ->
  cur_cdf_tie_probability norm_cdf t_cdf a m season b = Some p ->
  0 <= p.
Proof.
  intros Hmono Hb H. unfold cur_cdf_tie_probability in H.
  inv_bind H. destruct p0 as [s n].
  pose proof (tie_sums_nonneg a m season b _ Hmono Hb _ _ E (Qle_refl 0)) as Hs.
  simpl in Hs. apply fdiv_inv in H as [Hn ->].
  unfold Qdiv. apply Qmult_le_0_compat; [assumption|].
  apply Qinv_le_0_compat. change 0 with (inject_Z 0).
  rewrite <- Zle_Qle. lia.
Qed.

Lemma tie_search_finds a m season cp pp : forall k i fuel cur_p,
  (forall j, (i <= j < i + k)%nat ->
     exists pj,
       cur_cdf_tie_probability norm_cdf t_cdf a m season
         (bound_at (tie_cdf_search_interval m) (S j)) = Some pj /\
       pj < tie_probability m) ->
  cur_cdf_tie_probability norm_cdf t_cdf a m season
    (bound_at (tie_cdf_search_interval m) (S (i + k))) = Some cp ->
  tie_probability m <= cp ->
  ((k = 0%nat /\ pp = cur_p) \/
   ((0 < k)%nat /\
    cur_cdf_tie_probability norm_cdf t_cdf a m season
      (bound_at (tie_cdf_search_interval m) (i + k)) = Some pp)) ->
  (k < fuel)%nat ->
  tie_search norm_cdf t_cdf fuel a m season cur_p
    (bound_at (tie_cdf_search_interval m) i)
  = Returned _ (pp, cp, bound_at (tie_cdf_search_interval m) (i + k)).
Proof.
  induction k as [|k IH]; intros i fuel cur_p Hbelow Hcp Hle Hpp Hfuel;
    (destruct fuel as [|fuel]; [lia|]); cbn [tie_search].
  - rewrite Nat.add_0_r in *.
    change (bound_at (tie_cdf_search_interval m) i + tie_cdf_search_interval m)
      with (bound_at (tie_cdf_search_interval m) (S i)).
    rewrite Hcp. apply Qle_bool_iff in Hle. rewrite Hle.
    destruct Hpp as [[_ ->] | [Hk _]]; [reflexivity|lia].
  - change (bound_at (tie_cdf_search_interval m) i + tie_cdf_search_interval m)
      with (bound_at (tie_cdf_search_interval m) (S i)).
    destruct (Hbelow i) as (pi & Epi & Hpi); [lia|].
    rewrite Epi.
    destruct (Qle_bool (tie_probability m) pi) eqn:Hq.
    { apply Qle_bool_iff in Hq. lra. }
    replace (i + S k)%nat with (S i + k)%nat in * by lia.
    apply IH; try assumption; try lia.
    + intros j Hj. apply Hbelow. lia.
    + destruct k as [|k].
      * left. split; [reflexivity|].
        destruct Hpp as [[Hk _] | [_ Hpp]]; [discriminate|].
        rewrite Nat.add_0_r in Hpp. congruence.
      * right. split; [lia|].
        destruct Hpp as [[Hk _] | [_ Hpp]]; [discriminate|assumption].
Qed.

Lemma interpolation_ratio p pp cp :
  pp <= p -> p <= cp -> ~ cp == pp ->
  0 <= (p - pp) / (cp - pp) /\ (p - pp) / (cp - pp) <= 1.
Proof.
  intros H1 H2 Hne. assert (Hpos : 0 < cp - pp) by lra. split.
  - apply Qle_shift_div_l; [assumption|]. lra.
  - apply Qle_shift_div_r; [assumption|]. lra.
Qed.

(** The search with a given fit: it returns the interpolation at the first
    crossing, which lies between the previous and the current bound, and
    whose recomputed probability lies between the previous and the current
    probability. *)
Lemma first_crossing_is_interpolated a m season k pp cp :
  cdfs_monotone norm_cdf t_cdf m ->
  0 <= tie_probability m ->
  0 <= tie_cdf_search_interval m ->
  (forall j, (j < k)%nat ->
     exists pj,
       cur_cdf_tie_probability norm_cdf t_cdf a m season
         (bound_at (tie_cdf_search_interval m) (S j)) = Some pj /\
       pj < tie_probability m) ->
  cur_cdf_tie_probability norm_cdf t_cdf a m season
    (bound_at (tie_cdf_search_interval m) (S k)) = Some cp ->
  tie_probability m <= cp ->
  ((k = 0%nat /\ pp = 0) \/
   ((0 < k)%nat /\
    cur_cdf_tie_probability norm_cdf t_cdf a m season
      (bound_at (tie_cdf_search_interval m) k) = Some pp)) ->
  ~ cp == pp ->
  exists b,
    (forall fuel, (k < fuel)%nat ->
       tie_cdf_bound norm_cdf t_cdf fuel a m season = Returned _ b) /\
    b = (tie_probability m - pp) / (cp - pp) * tie_cdf_search_interval m
        + bound_at (tie_cdf_search_interval m) k /\
    0 <= b /\
    bound_at (tie_cdf_search_interval m) k <= b /\
    b <= bound_at (tie_cdf_search_interval m) (S k) /\
    (forall pb,
       cur_cdf_tie_probability norm_cdf t_cdf a m season b = Some pb ->
       pp <= pb /\ pb <= cp /\ Qabs (pb - tie_probability m) <= cp - pp).
Proof.
  intros Hmono Hp Hstep Hbelow Hcp Hle Hpp Hne.
  assert (Hpp_le : pp <= tie_probability m).
  { destruct Hpp as [[_ ->] | [Hk Hpp]]; [assumption|].
    destruct (Hbelow (k - 1)%nat) as (pj & Epj & Hpj); [lia|].
    replace (S (k - 1)) with k in Epj by lia.
    assert (pj = pp) by congruence. subst pj. lra. }
  destruct (interpolation_ratio _ _ _ Hpp_le Hle Hne) as [Hr0 Hr1].
  pose proof (bound_at_nonneg _ k Hstep) as Hbk.
  set (r := (tie_probability m - pp) / (cp - pp)) in *.
  assert (Hrs0 : 0 <= r * tie_cdf_search_interval m)
    by now apply Qmult_le_0_compat.
  assert (Hrs1 : r * tie_cdf_search_interval m <= tie_cdf_search_interval m).
  { rewrite <- (Qmult_1_l (tie_cdf_search_interval m)) at 2.
    now apply Qmult_le_compat_r. }
  exists (r * tie_cdf_search_interval m + bound_at (tie_cdf_search_interval m) k).
  split; [|split; [reflexivity|split; [lra|split; [lra|split; [simpl; lra|]]]]].
  - intros fuel Hfuel. unfold tie_cdf_bound.
    assert (Hs : tie_search norm_cdf t_cdf fuel a m season 0
                   (bound_at (tie_cdf_search_interval m) 0)
                 = Returned _ (pp, cp, bound_at (tie_cdf_search_interval m) (0 + k))).
    { apply tie_search_finds; try assumption.
      intros j Hj. apply Hbelow. lia. }
    cbn [bound_at Nat.add] in Hs. rewrite Hs.
    unfold interpolate. fold r. rewrite fdiv_Some by lra. reflexivity.
  - intros pb Hpb.
    assert (Hlow : pp <= pb).
    { destruct Hpp as [[_ ->] | [Hk Hpp]].
      - eapply tie_probability_nonneg; [exact Hmono| |exact Hpb]. lra.
      - eapply tie_probability_mono; [exact Hmono| |exact Hpp|exact Hpb]. lra. }
    assert (Hhigh : pb <= cp).
    { eapply tie_probability_mono; [exact Hmono| |exact Hpb|exact Hcp]. simpl. lra. }
    split; [assumption|]. split; [assumption|].
    apply Qabs_Qle_condition. split; lra.
Qed.

(** ** The whole calibration: fit, search, interpolation *)

Lemma fit_prediction_errors_inv a m0 m :
  fit_prediction_errors np_std t_fit a m0 = Some m ->
  exists e sigma df,
    calibration_errors a m0 = Some e /\
    np_std_or_nan np_std (prediction_errors e) = Some sigma /\
    t_fit (prediction_errors e) (Some sigma) = Some df /\
    is_Some (t_fit (score_prediction_errors e)
               (np_std_or_nan np_std (score_prediction_errors e))) /\
    is_Some (t_fit (total_score_prediction_errors e)
               (np_std_or_nan np_std (total_score_prediction_errors e))) /\
    prediction_error_stdev m = sigma /\
    prediction_error_df m = df /\
    use_normal m = Qlt_bool 50 df /\
    tie_probability m = tie_probability m0 /\
    tie_cdf_search_interval m = tie_cdf_search_interval m0 /\
    median_team_ratings m = median_team_ratings m0 /\
    median_home_advantage m = median_home_advantage m0 /\
    teams_in_network_reverse m = teams_in_network_reverse m0.
Proof.
  unfold fit_prediction_errors. intros H.
  destruct (calibration_errors a m0) as [e|]; [|discriminate]. cbn in H.
  destruct (t_fit (prediction_errors e) _) as [df|] eqn:Edf; [|discriminate].
  cbn in H.
  destruct (t_fit (score_prediction_errors e) _) as [dfs|] eqn:Es; [|discriminate].
  cbn in H.
  destruct (t_fit (total_score_prediction_errors e) _) as [dft|] eqn:Et;
    [|discriminate].
  cbn in H.
  destruct (np_std_or_nan np_std (prediction_errors e)) as [sigma|] eqn:Esd;
    [|discriminate].
  cbn in H. injection H as <-.
  exists e, sigma, df. cbn. repeat split; eauto.
Qed.

Lemma tie_loop_margins a m season b ids : forall acc acc',
  for_each (tie_body norm_cdf t_cdf a m season b) ids acc = Some acc' ->
  exists ls,
    mapM (eligible_margin a m season) ids = Some ls /\
    fst acc'
    = foldl (fun sum pm => tie_add norm_cdf t_cdf m b pm sum) (fst acc)
        (concat ls) /\
    snd acc' = (snd acc + length (concat ls))%nat.
Proof.
  induction ids as [|id ids IH]; intros acc acc' H; cbn [for_each] in H.
  - injection H as <-. exists []. cbn. split; [reflexivity|].
    split; [reflexivity|lia].
  - destruct (tie_body norm_cdf t_cdf a m season b acc id) as [acc1|] eqn:E;
      [|discriminate].
    cbn in H. destruct (IH _ _ H) as (ls & Hls & Hs & Hn).
    apply tie_body_inv in E
      as [[Hinc ->] | (g & pm & Hinc & Hg & Hpm & ->)].
    + assert (Em : eligible_margin a m season id = Some []).
      { unfold eligible_margin. rewrite Hinc. reflexivity. }
      exists ([] :: ls). cbn. rewrite Em. cbn. rewrite Hls. cbn. auto.
    + assert (Em : eligible_margin a m season id = Some [pm]).
      { unfold eligible_margin. rewrite Hinc. cbn. rewrite Hg. cbn.
        rewrite Hpm. reflexivity. }
      exists ([pm] :: ls). cbn. rewrite Em. cbn. rewrite Hls. cbn.
      split; [reflexivity|]. split; [exact Hs|]. cbn in Hn. lia.
Qed.

Lemma tie_probability_is_the_mean a m season b p :
  cur_cdf_tie_probability norm_cdf t_cdf a m season b = Some p ->
  exists margins,
    eligible_margins a m season = Some margins /\
    margins <> [] /\
    p = foldl (fun sum pm => tie_add norm_cdf t_cdf m b pm sum) 0 margins
        / inject_Z (Z.of_nat (length margins)).
Proof.
  unfold cur_cdf_tie_probability. intros H. inv_bind H. destruct p0 as [sum n].
  apply tie_loop_margins in E as (ls & Hls & Hs & Hn). cbn in Hs, Hn.
  apply fdiv_inv in H as [Hne ->].
  exists (concat ls). unfold eligible_margins. rewrite Hls. cbn.
  split; [reflexivity|]. split.
  - intros E0. rewrite E0 in Hn. cbn in Hn. subst n. apply Hne. reflexivity.
  - subst sum n. reflexivity.
Qed.

(** C5, as the code has it.  With the fit of the margin errors (which the
    program reaches only when none of the three fits raises) the search
    starts at the bound 0 and goes up in steps of the search interval; the
    aggregate tie probability of a bound is the mean, over the games that the
    test of the search keeps, of the mass that the fit centered at the
    predicted margin of the game puts on [[-bound, bound]]; the search stops
    at the first bound whose aggregate tie probability reaches the target,
    and the result is the linear interpolation between the previous and the
    current pair of bound and probability.  For a target that is not
    negative, a step that is not negative and distribution functions that do
    not decrease: the probability at the stopping bound equals the previous
    one only when the target is 0 and the probability of the first bound is
    0, and then the interpolation divides 0 by 0, which is NaN, and there is
    no finite bound; otherwise the result is not negative and lies between
    the previous and the current bound, and its recomputed aggregate tie
    probability lies between the previous and the current probability: it is
    within their difference of the target, and so within the step of it when
    that difference is at most the step. *)
Theorem tie_bound_is_interpolated_first_crossing a m0 m season k pp cp :
  fit_prediction_errors np_std t_fit a m0 = Some m ->
  cur_game_season_at_calibration a m0 = Some season ->
  cdfs_monotone norm_cdf t_cdf m ->
  0 <= tie_probability m ->
  0 <= tie_cdf_search_interval m ->
  (forall j, (j < k)%nat ->
     exists pj,
       cur_cdf_tie_probability norm_cdf t_cdf a m season
         (bound_at (tie_cdf_search_interval m) (S j)) = Some pj /\
       pj < tie_probability m) ->
  cur_cdf_tie_probability norm_cdf t_cdf a m season
    (bound_at (tie_cdf_search_interval m) (S k)) = Some cp ->
  tie_probability m <= cp ->
  ((k = 0%nat /\ pp = 0) \/
   ((0 < k)%nat /\
    cur_cdf_tie_probability norm_cdf t_cdf a m season
      (bound_at (tie_cdf_search_interval m) k) = Some pp)) ->
  tie_probability m = tie_probability m0 /\
  tie_cdf_search_interval m = tie_cdf_search_interval m0 /\
  (forall bound p,
     cur_cdf_tie_probability norm_cdf t_cdf a m season bound = Some p ->
     exists margins,
       eligible_margins a m season = Some margins /\
       margins <> [] /\
       p = foldl (fun sum pm => tie_add norm_cdf t_cdf m bound pm sum) 0 margins
           / inject_Z (Z.of_nat (length margins))) /\
  (cp == pp <-> k = 0%nat /\ tie_probability m == 0 /\ cp == 0) /\
  (cp == pp ->
   np_divide (tie_probability m - pp) (cp - pp) = NaN /\
   forall fuel b,
     main_tie_cdf_bound norm_cdf t_cdf np_std t_fit fuel a m0 <> Returned _ b) /\
  (~ cp == pp ->
   exists b,
     (forall fuel, (k < fuel)%nat ->
        main_tie_cdf_bound norm_cdf t_cdf np_std t_fit fuel a m0 = Returned _ b) /\
     b = (tie_probability m - pp) / (cp - pp) * tie_cdf_search_interval m
         + bound_at (tie_cdf_search_interval m) k /\
     0 <= b /\
     bound_at (tie_cdf_search_interval m) k <= b /\
     b <= bound_at (tie_cdf_search_interval m) (S k) /\
     (forall pb,
        cur_cdf_tie_probability norm_cdf t_cdf a m season b = Some pb ->
        pp <= pb /\ pb <= cp /\
        Qabs (pb - tie_probability m) <= cp - pp /\
        (cp - pp <= tie_cdf_search_interval m ->
         Qabs (pb - tie_probability m) <= tie_cdf_search_interval m))).
Proof.
  intros Hfit Hseason Hmono Hp Hstep Hbelow Hcp Hle Hpp.
  destruct (fit_prediction_errors_inv _ _ _ Hfit)
    as (e & sigma & df & _ & _ & _ & _ & _ & _ & _ & _ & Etp & Eiv & _).
  split; [exact Etp|]. split; [exact Eiv|].
  split; [intros bound p; apply tie_probability_is_the_mean|].
  assert (Hiff : cp == pp <-> k = 0%nat /\ tie_probability m == 0 /\ cp == 0).
  { split.
    - intros Heq. destruct Hpp as [[-> ->] | [Hk Hpp]].
      + split; [reflexivity|]. split; lra.
      + exfalso. destruct (Hbelow (k - 1)%nat) as (pj & Epj & Hpj); [lia|].
        replace (S (k - 1)) with k in Epj by lia.
        assert (pj = pp) by congruence. subst pj. lra.
    - intros (-> & _ & H0). destruct Hpp as [[_ ->] | [Hk _]]; [exact H0|lia]. }
  split; [exact Hiff|]. split.
  - intros Heq. destruct (proj1 Hiff Heq) as (-> & Hp0 & Hcp0).
    destruct Hpp as [[_ ->] | [Hk _]]; [|lia].
    assert (E1 : Qeq_bool (cp - 0) 0 = true) by (apply Qeq_bool_iff; lra).
    assert (E2 : Qeq_bool (tie_probability m - 0) 0 = true)
      by (apply Qeq_bool_iff; lra).
    split; [unfold np_divide; rewrite E1, E2; reflexivity|].
    intros fuel b. unfold main_tie_cdf_bound. rewrite Hfit, Hseason.
    unfold tie_cdf_bound. destruct fuel as [|fuel]; [discriminate|].
    cbn [tie_search]. cbn [bound_at] in Hcp. rewrite Hcp.
    assert (E3 : Qle_bool (tie_probability m) cp = true)
      by (apply Qle_bool_iff; exact Hle).
    rewrite E3. unfold interpolate, fdiv. rewrite E1. discriminate.
  - intros Hne.
    destruct (first_crossing_is_interpolated a m season k pp cp
                Hmono Hp Hstep Hbelow Hcp Hle Hpp Hne)
      as (b & Hret & Eb & Hb0 & Hlow & Hhigh & Hrec).
    exists b. split.
    { intros fuel Hfuel. unfold main_tie_cdf_bound. rewrite Hfit, Hseason.
      apply Hret. exact Hfuel. }
    split; [exact Eb|]. split; [exact Hb0|]. split; [exact Hlow|].
    split; [exact Hhigh|].
    intros pb Hpb. destruct (Hrec pb Hpb) as (H1 & H2 & H3).
    split; [exact H1|]. split; [exact H2|]. split; [exact H3|].
    intros Hd. eapply Qle_trans; [exact H3|exact Hd].
Qed.

End CalibrationProperties.

(** * The small leagues *)

Section OnTheExamples.

Import Example.

Lemma Qlt_bool_false a b : Qlt_bool a b = false -> ~ a < b.
Proof. intros H Hlt. apply Qlt_bool_iff in Hlt. congruence. Qed.

Lemma ex_log_positive : forall x, 1 < x -> 0 < ex_log x.
Proof. intros x Hx. unfold ex_log. lra. Qed.

Lemma ex_norm_cdf_quantised : cdf_quantised ex_norm_cdf 2.
Proof.
  intros x loc scale. unfold ex_norm_cdf.
  destruct (Qlt_bool x loc); [exists 0%Z; split; [lia|reflexivity]|].
  destruct (Qeq_bool x loc); [exists 1%Z|exists 2%Z]; split; try lia; reflexivity.
Qed.

Lemma ex_uniform_cdf_monotone x y loc scale :
  0 <= scale -> x <= y -> ex_uniform_cdf x loc scale <= ex_uniform_cdf y loc scale.
Proof.
  intros Hs Hxy. unfold ex_uniform_cdf.
  apply Q.max_le_compat_l, Q.min_le_compat_l.
  apply Qplus_le_compat; [|apply Qle_refl].
  unfold Qdiv. apply Qmult_le_compat_r; [lra|].
  apply Qinv_le_0_compat. lra.
Qed.

Lemma ex_cdfs_monotone : cdfs_monotone ex_uniform_cdf ex_t_cdf medians_close.
Proof.
  split; intros x y loc Hxy; apply ex_uniform_cdf_monotone;
    assumption || discriminate.
Qed.




(** C3 on [league]: the game of 2023 has half the weight, over the
    logarithm of 3. *)
Lemma final_weight_is_policy_over_log_centrality_witness :
  (0 < 1 # 3) /\ (1 # 3 < 1) /\
  exists g, read_game ex_log league 0 = Some g /\
            cur_game_gt_weight_of g
            = Spec.policy_weight league 2023 false / ex_log (1 / (1 # 3)).
Proof.
  split; [reflexivity|]. split; [reflexivity|].
  refine (proj1 (final_weight_is_policy_over_log_centrality ex_log league 0
                   "B" "C" 1 2 1 2 7 3 2023 false true (1 # 3)
                   ex_log_positive _ _ _ _ _ _ _ _ _ _ _ _ _ _ _));
    vm_compute; reflexivity.
Defined.


(** C7: the claim fails.  In [league_zero] the only game of team C has
    weight 0, so the total weight of C is 0 after the first pass over the
    games; the update of the first iteration does not leave C out: it divides
    by that weight (0/0, NaN in the source) and yields no ratings. *)
Lemma zero_weight_team_is_not_excluded :
  exists sums fid w,
    game_loop ex_log league_zero (initial_state league_zero) = Some (sums, fid) /\
    total_team_weight fid !! 2%nat = Some w /\ w == 0 /\
    update_ratings ex_rng league_zero fid sums (zero_ratings league_zero) 0 = None /\
    iteration ex_log ex_norm_cdf ex_rng league_zero (initial_state league_zero) = None.
Proof.
  destruct (game_loop ex_log league_zero (initial_state league_zero))
    as [[sums fid]|] eqn:E; [|vm_compute in E; discriminate E].
  vm_compute in E. injection E as <- <-.
  eexists _, _, _. split; [reflexivity|]. split; [reflexivity|].
  split; [reflexivity|].
  split; vm_compute; reflexivity.
Qed.

(** C7 on [league_zero], through the theorem. *)
Lemma update_divides_by_zero_team_weight_witness :
  exists sums fid w,
    game_loop ex_log league_zero (initial_state league_zero) = Some (sums, fid) /\
    (2 < length (team_ratings (zero_ratings league_zero)))%nat /\
    total_team_weight fid !! 2%nat = Some w /\ w == 0 /\
    update_ratings ex_rng league_zero fid sums (zero_ratings league_zero) 0 = None.
Proof.
  destruct (game_loop ex_log league_zero (initial_state league_zero))
    as [[sums fid]|] eqn:E; [|vm_compute in E; discriminate E].
  destruct (total_team_weight fid !! 2%nat) as [w|] eqn:Ew;
    [|vm_compute in E; injection E as <- <-; discriminate Ew].
  assert (Hw : w == 0).
  { vm_compute in E. injection E as <- <-. injection Ew as <-. reflexivity. }
  assert (Hi : (2 < length (team_ratings (zero_ratings league_zero)))%nat)
    by (simpl; lia).
  exists sums, fid, w. repeat split; try assumption.
  exact (update_divides_by_zero_team_weight ex_rng league_zero fid sums
           (zero_ratings league_zero) 0 2 w Hi Ew Hw).
Defined.

(** C8: the claim fails.  In [league_pair] the third iteration does not
    improve on the second, its count 1 is a multiple of the reset interval 1
    and the search goes on; the fourth iteration does not start from the
    best ratings: the offense rating of A is -1/2, in the best state it is
    -1. *)
Lemma reset_state_is_updated_before_next_iteration :
  exists s2 s3 x y,
    after 2 league_pair = Some s2 /\
    iteration ex_log ex_norm_cdf ex_rng league_pair s2 = Some s3 /\
    best s3 = best s2 /\
    iterations_since_last_update s3 = 1%nat /\
    (iterations_since_last_update s3 mod iterations_before_reset league_pair = 0)%nat /\
    terminate_search s3 = false /\
    team_off_ratings (cur s3) !! 0%nat = Some x /\
    team_off_ratings (best s3) !! 0%nat = Some y /\
    x == - (1 # 2) /\ y == - 1.
Proof.
  destruct (after 2 league_pair) as [s2|] eqn:E2; [|vm_compute in E2; discriminate E2].
  destruct (iteration ex_log ex_norm_cdf ex_rng league_pair s2) as [s3|] eqn:E3;
    [|vm_compute in E2; injection E2 as <-; vm_compute in E3; discriminate E3].
  vm_compute in E2. injection E2 as <-. vm_compute in E3. injection E3 as <-.
  eexists _, _, _, _. split; [reflexivity|]. split; [vm_compute; reflexivity|].
  split; [reflexivity|]. split; [reflexivity|]. split; [reflexivity|].
  split; [reflexivity|]. split; [reflexivity|]. split; [reflexivity|].
  split; reflexivity.
Qed.

(** C8 on [league_pair], through the theorem: the third iteration. *)
Lemma reset_precedes_the_update_witness :
  exists s2 s3 sums fid k,
    after 2 league_pair = Some s2 /\
    game_loop ex_log league_pair s2 = Some (sums, fid) /\
    iteration ex_log ex_norm_cdf ex_rng league_pair s2 = Some s3 /\
    best s3 = best s2 /\
    update_ratings ex_rng league_pair fid sums (best s2) (rng_draws s2)
    = Some (cur s3, k).
Proof.
  destruct (after 2 league_pair) as [s2|] eqn:E2; [|vm_compute in E2; discriminate E2].
  destruct (game_loop ex_log league_pair s2) as [[sums fid]|] eqn:EL;
    [|vm_compute in E2; injection E2 as <-; vm_compute in EL; discriminate EL].
  destruct (iteration ex_log ex_norm_cdf ex_rng league_pair s2) as [s3|] eqn:E3;
    [|vm_compute in E2; injection E2 as <-; vm_compute in E3; discriminate E3].
  destruct (best_abs_total_error s2) as [b|] eqn:Eb;
    [|vm_compute in E2; injection E2 as <-; discriminate Eb].
  assert (Hfirst : first_iteration s2 = false)
    by (vm_compute in E2; injection E2 as <-; reflexivity).
  assert (Hnot : ~ abs_total_error ex_norm_cdf league_pair fid sums < b).
  { apply Qlt_bool_false.
    vm_compute in E2. injection E2 as <-.
    vm_compute in EL. injection EL as <- <-. injection Eb as <-.
    vm_compute. reflexivity. }
  assert (Hmod : (S (iterations_since_last_update s2)
                  mod iterations_before_reset league_pair = 0)%nat)
    by (vm_compute in E2; injection E2 as <-; reflexivity).
  assert (Hlt : (S (iterations_since_last_update s2)
                 < iterations_before_stop league_pair)%nat)
    by (vm_compute in E2; injection E2 as <-; simpl; lia).
  destruct (reset_precedes_the_update ex_log ex_norm_cdf ex_rng league_pair s2 s3
              sums fid b Hfirst Eb EL Hnot ltac:(discriminate) Hmod E3)
    as (Hb & Hc & Hupd & _).
  destruct (Hupd Hlt) as (_ & k & Hk).
  exists s2, s3, sums, fid, k. repeat split; assumption || reflexivity.
Defined.


Lemma ex_cdfs_monotone_for m :
  0 <= prediction_error_stdev m -> cdfs_monotone ex_uniform_cdf ex_t_cdf m.
Proof.
  intros Hs. split; intros x y loc Hxy; apply ex_uniform_cdf_monotone; assumption.
Qed.

(** C5: the claim fails.  For [league_return] and the medians
    [medians_return] the margin errors are 1/100 and -1/100, of standard
    deviation 1/100, and none of the three samples is constant, so the three
    fits go through.  With the target 3/10 and the step 1/10 the search stops
    at the tenth bound, 1, where the aggregate tie probability is 3/8, the
    probability at the previous bound 9/10 being 0; it returns the
    interpolated bound 49/50, whose recomputed aggregate tie probability is
    1/8: it is 7/40 away from the target, not within 1/10. *)
Lemma tie_bound_probability_not_within_step :
  exists e m b pb,
    calibration_errors league_return medians_return = Some e /\
    Forall2 Qeq (prediction_errors e) [1 # 100; - (1 # 100)] /\
    Forall2 Qeq (score_prediction_errors e)
      [- (99 # 200); - (101 # 200); 99 # 200; 101 # 200] /\
    Forall2 Qeq (total_score_prediction_errors e) [- (1); 1] /\
    fit_prediction_errors ex_np_std ex_t_fit league_return medians_return = Some m /\
    prediction_error_stdev m == 1 # 100 /\
    use_normal m = true /\
    tie_probability m = 3 # 10 /\
    tie_cdf_search_interval m = 1 # 10 /\
    cur_game_season_at_calibration league_return medians_return = Some 2024%Z /\
    (exists pp,
       cur_cdf_tie_probability ex_uniform_cdf ex_t_cdf league_return m 2024
         (bound_at (1 # 10) 9) = Some pp /\ pp == 0) /\
    (exists cp,
       cur_cdf_tie_probability ex_uniform_cdf ex_t_cdf league_return m 2024
         (bound_at (1 # 10) 10) = Some cp /\ cp == 3 # 8) /\
    main_tie_cdf_bound ex_uniform_cdf ex_t_cdf ex_np_std ex_t_fit 30
      league_return medians_return = Returned _ b /\
    b == 49 # 50 /\
    cur_cdf_tie_probability ex_uniform_cdf ex_t_cdf league_return m 2024 b
    = Some pb /\
    pb == 1 # 8 /\
    ~ Qabs (pb - tie_probability m) <= tie_cdf_search_interval m.
Proof.
  eexists _, _, _, _. split; [vm_compute; reflexivity|].
  split; [repeat constructor|]. split; [repeat constructor|].
  split; [repeat constructor|].
  split; [vm_compute; reflexivity|].
  split; [reflexivity|]. split; [reflexivity|]. split; [reflexivity|].
  split; [reflexivity|]. split; [reflexivity|].
  split; [eexists; split; [vm_compute; reflexivity|reflexivity]|].
  split; [eexists; split; [vm_compute; reflexivity|reflexivity]|].
  split; [vm_compute; reflexivity|].
  split; [reflexivity|]. split; [vm_compute; reflexivity|].
  split; [reflexivity|].
  intros H. vm_compute in H. apply H. reflexivity.
Qed.

(** C5 on the same calibration, through the theorem: the tenth bound is the
    first crossing, the probability rising from 0 to 3/8 over the last
    step. *)
Lemma tie_bound_is_interpolated_first_crossing_witness :
  exists m,
    fit_prediction_errors ex_np_std ex_t_fit league_return medians_return = Some m /\
    cur_game_season_at_calibration league_return medians_return = Some 2024%Z /\
    cdfs_monotone ex_uniform_cdf ex_t_cdf m /\
    0 <= tie_probability m /\
    0 <= tie_cdf_search_interval m /\
    exists b,
      (forall fuel, (9 < fuel)%nat ->
         main_tie_cdf_bound ex_uniform_cdf ex_t_cdf ex_np_std ex_t_fit fuel
           league_return medians_return = Returned _ b) /\
      0 <= b /\
      bound_at (tie_cdf_search_interval m) 9 <= b /\
      b <= bound_at (tie_cdf_search_interval m) 10 /\
      forall pb,
        cur_cdf_tie_probability ex_uniform_cdf ex_t_cdf league_return m 2024 b
        = Some pb ->
        0 <= pb /\ pb <= 3 # 8.
Proof.
  destruct (fit_prediction_errors ex_np_std ex_t_fit league_return medians_return)
    as [m|] eqn:Efit; [|vm_compute in Efit; discriminate Efit].
  pose proof Efit as Em. vm_compute in Em. injection Em as Em. subst m.
  match type of Efit with _ = Some ?nf => set (m := nf) in * end.
  assert (Hmono : cdfs_monotone ex_uniform_cdf ex_t_cdf m)
    by (apply ex_cdfs_monotone_for; discriminate).
  destruct (cur_cdf_tie_probability ex_uniform_cdf ex_t_cdf league_return m
              2024 (bound_at (tie_cdf_search_interval m) 10))
    as [cp|] eqn:Ecp; [|vm_compute in Ecp; discriminate Ecp].
  destruct (cur_cdf_tie_probability ex_uniform_cdf ex_t_cdf league_return m
              2024 (bound_at (tie_cdf_search_interval m) 9))
    as [pp|] eqn:Epp; [|vm_compute in Epp; discriminate Epp].
  assert (Hcp : cp == 3 # 8).
  { vm_compute in Ecp. injection Ecp as <-. reflexivity. }
  assert (Hpp : pp == 0).
  { vm_compute in Epp. injection Epp as <-. reflexivity. }
  assert (Hbelow : forall j, (j < 9)%nat ->
            exists pj,
              cur_cdf_tie_probability ex_uniform_cdf ex_t_cdf league_return m 2024
                (bound_at (tie_cdf_search_interval m) (S j)) = Some pj /\
              pj < tie_probability m).
  { intros j Hj.
    do 9 (destruct j as [|j];
          [eexists; split; [vm_compute; reflexivity|reflexivity]|]).
    lia. }
  exists m. split; [reflexivity|]. split; [reflexivity|].
  split; [exact Hmono|]. split; [discriminate|]. split; [discriminate|].
  destruct (tie_bound_is_interpolated_first_crossing ex_uniform_cdf ex_t_cdf
              ex_np_std ex_t_fit league_return medians_return m 2024 9 pp cp
              Efit eq_refl Hmono)
    as (_ & _ & _ & _ & _ & Hres); try assumption.
  - discriminate.
  - discriminate.
  - rewrite Hcp. discriminate.
  - right. split; [lia|exact Epp].
  - destruct Hres as (b & Hret & _ & Hb0 & Hlow & Hhigh & Hrec).
    { rewrite Hcp, Hpp. discriminate. }
    exists b. split; [exact Hret|]. split; [exact Hb0|]. split; [exact Hlow|].
    split; [exact Hhigh|].
    intros pb Hpb. destruct (Hrec pb Hpb) as (H1 & H2 & _).
    split; [rewrite <- Hpp; exact H1|rewrite <- Hcp; exact H2].
Defined.

(** C4: the code at the failing input.  In [league_zero] the game of 2023
    (number 0) has policy weight 0, the earlier season having weight 0.  When
    the calibration starts, [cur_game_season] holds 2024, the season of the
    last game of the input, so the test on the season does not see an earlier
    season: the game is included, and the three samples contain its errors
    beside those of the two games of 2024.  With the season of the game
    itself the test leaves the game out. *)
Lemma calibration_keeps_zero_weight_prior_game :
  input_games_season league_zero !! 0%nat = Some 2023%Z /\
  cur_game_weight league_zero 0 2023 = Some 0 /\
  cur_game_season_at_calibration league_zero medians3 = Some 2024%Z /\
  include_game league_zero 2024 0 = Some true /\
  include_game league_zero 2023 0 = Some false /\
  exists e,
    calibration_errors league_zero medians3 = Some e /\
    length (prediction_errors e) = 3%nat /\
    length (score_prediction_errors e) = 6%nat /\
    length (total_score_prediction_errors e) = 3%nat.
Proof.
  split; [reflexivity|]. split; [reflexivity|]. split; [reflexivity|].
  split; [reflexivity|]. split; [reflexivity|].
  eexists. split; [vm_compute; reflexivity|]. repeat split.
Qed.

(** C6: the code at the failing input.  For the first game of
    [league_pair] and the medians [medians2] (offense 3 and -3, defense 2 and
    -2, home advantage 4, mean score 27/2) the calibration predicts the away
    score -3 - 2 + 2 + 27/2 = 21/2, the formula of the optimizer gives
    max(-3 - 2 - 2 + 27/2, 0) = 13/2; the home scores agree, 41/2. *)
Lemma calibration_away_score_differs_from_optimizer :
  exists ph pa,
    read_calibration_game league_pair medians2 0 = Some pair_game /\
    cur_game_predicted_home_score league_pair medians2 pair_game = Some ph /\
    cur_game_predicted_away_score league_pair medians2 pair_game = Some pa /\
    ph == 41 # 2 /\ Spec.pred_home 3 (-2) 4 (27 # 2) false == 41 # 2 /\
    pa == 21 # 2 /\ Spec.pred_away (-3) 2 4 (27 # 2) false == 13 # 2.
Proof.
  eexists _, _. split; [reflexivity|]. split; [reflexivity|].
  split; [reflexivity|]. repeat split; reflexivity.
Qed.

End OnTheExamples.

(** * Further properties of the search loop *)

Section MoreAttemptProperties.

Variable np_log : Q -> Q.
Variable norm_cdf : Q -> Q -> Q -> Q.
Variable rng_normal : nat -> nat -> Q -> Q -> Q.

(** ** Overall ratings *)

Lemma update_ratings_overall a fid sums c k c' k' :
  update_ratings rng_normal a fid sums c k = Some (c', k') ->
  overall_consistent c'.
Proof.
  unfold update_ratings. intros H. inv_bind H.
  destruct p as [[off def] k1]. inv_bind H. injection H as <- <-. reflexivity.
Qed.

Lemma iteration_keeps_overall a s s' :
  overall_consistent (cur s) -> overall_consistent (best s) ->
  iteration np_log norm_cdf rng_normal a s = Some s' ->
  overall_consistent (cur s') /\ overall_consistent (best s').
Proof.
  intros Hc Hb H.
  apply iteration_inv in H as (sums & fid & s1 & _ & Hsave & Hupd).
  apply save_or_reset_cases in Hsave as (Hb1 & Hc1 & _).
  apply update_or_stop_cases in Hupd as (Eb & _ & _ & _ & _ & Hcases).
  assert (Hb1' : overall_consistent (best s1)) by (destruct Hb1 as [-> | ->]; auto).
  assert (Hc1' : overall_consistent (cur s1)) by (destruct Hc1 as [-> | ->]; auto).
  rewrite Eb. split; [|assumption].
  destruct Hcases as [(_ & _ & k & Hk & _) | (_ & _ & -> & _)]; [|assumption].
  eapply update_ratings_overall; eassumption.
Qed.

Lemma reachable_overall a s :
  reachable np_log norm_cdf rng_normal a s ->
  overall_consistent (cur s) /\ overall_consistent (best s).
Proof.
  intros Hr. induction Hr as [|s s' Hr [IHc IHb] Ht Hit].
  - split; reflexivity.
  - eapply iteration_keeps_overall; eassumption.
Qed.

(** X1.  In every state of the loop the overall ratings, current and best,
    are the entry by entry sums of the offense and the defense ratings; so
    are the overall ratings that the attempt returns. *)
Theorem overall_is_offense_plus_defense a fuel r :
  rating_attempt np_log norm_cdf rng_normal fuel a = Returned _ r ->
  team_ratings r = np_add (team_off_ratings r) (team_def_ratings r) /\
  forall s, reachable np_log norm_cdf rng_normal a s ->
    team_ratings (cur s) = np_add (team_off_ratings (cur s)) (team_def_ratings (cur s)) /\
    team_ratings (best s) = np_add (team_off_ratings (best s)) (team_def_ratings (best s)).
Proof.
  intros H. split.
  - unfold rating_attempt in H.
    destruct (while_loop _ _ _ fuel a (initial_state a)) as [s| |] eqn:Hw;
      try discriminate.
    injection H as <-.
    apply while_loop_reachable in Hw as [Hr _]; [|constructor].
    apply (reachable_overall a s Hr).
  - intros s Hr. apply (reachable_overall a s Hr).
Qed.

(** ** The best error *)

(** X2.  After the first iteration the best error never goes up: an
    iteration either finds a strictly smaller error, saves the ratings it
    started from as the best ones and sets the count to 0, or leaves the best
    ratings and the best error as they are and adds 1 to the count. *)
Theorem best_error_never_increases a s s' b :
  first_iteration s = false ->
  best_abs_total_error s = Some b ->
  iteration np_log norm_cdf rng_normal a s = Some s' ->
  exists b',
    best_abs_total_error s' = Some b' /\ b' <= b /\
    ((b' < b /\ best s' = cur s /\ iterations_since_last_update s' = 0%nat) \/
     (b' = b /\ best s' = best s /\
      iterations_since_last_update s' = S (iterations_since_last_update s))).
Proof.
  intros Hf Eb Hit.
  apply iteration_inv in Hit as (sums & fid & s1 & _ & Hsave & Hupd).
  apply update_or_stop_cases in Hupd as (Ebest & Eerr & Ec & _ & _ & _).
  rewrite Ebest, Eerr, Ec.
  unfold save_or_reset, update_best_stats in Hsave. rewrite Hf, Eb in Hsave.
  simpl in Hsave.
  destruct (Qlt_bool (abs_total_error norm_cdf a fid sums) b) eqn:Hlt.
  - apply Qlt_bool_iff in Hlt. injection Hsave as <-. simpl.
    eexists. split; [reflexivity|]. split; [now apply Qlt_le_weak|].
    left. auto.
  - destruct (iterations_before_reset a =? 0)%nat; [discriminate|].
    injection Hsave as <-. simpl.
    exists b. split; [reflexivity|]. split; [apply Qle_refl|].
    right. auto.
Qed.

(** ** The sizes of the arrays *)

Lemma update_team_lengths a fid sums off def k i off' def' k' :
  update_team rng_normal a fid sums (off, def, k) i = Some (off', def', k') ->
  length off' = length off /\ length def' = length def.
Proof.
  unfold update_team. intros H. inv_bind H. injection H as <- <- <-.
  repeat match goal with
         | H : list_add_at _ _ _ = Some _ |- _ => apply list_add_at_inv in H as [H _]
         end.
  auto.
Qed.

Lemma update_teams_lengths a fid sums l : forall st st',
  for_each (update_team rng_normal a fid sums) l st = Some st' ->
  length (fst (fst st')) = length (fst (fst st)) /\
  length (snd (fst st')) = length (snd (fst st)).
Proof.
  induction l as [|i l IH]; intros st st' H; simpl in H.
  - injection H as <-. auto.
  - inv_bind H. destruct st as [[off def] k], p as [[off1 def1] k1].
    apply update_team_lengths in E as [E1 E2].
    destruct (IH _ _ H) as [H1 H2]. simpl in *. split; congruence.
Qed.

Lemma update_ratings_sized a fid sums c k c' k' n :
  update_ratings rng_normal a fid sums c k = Some (c', k') ->
  length (team_off_ratings c) = n -> length (team_def_ratings c) = n ->
  ratings_sized n c'.
Proof.
  unfold update_ratings. intros H Lo Ld. inv_bind H.
  destruct p as [[off def] k1]. inv_bind H. injection H as <- <-.
  apply update_teams_lengths in E as [Lo' Ld']. simpl in Lo', Ld'.
  unfold ratings_sized, np_add, np_subtract_scalar. simpl.
  rewrite length_zip_with, !List.length_map. lia.
Qed.

Lemma iteration_keeps_sizes a s s' n :
  ratings_sized n (cur s) -> ratings_sized n (best s) ->
  iteration np_log norm_cdf rng_normal a s = Some s' ->
  ratings_sized n (cur s') /\ ratings_sized n (best s').
Proof.
  intros Hc Hb H.
  apply iteration_inv in H as (sums & fid & s1 & _ & Hsave & Hupd).
  apply save_or_reset_cases in Hsave as (Hb1 & Hc1 & _).
  apply update_or_stop_cases in Hupd as (Eb & _ & _ & _ & _ & Hcases).
  assert (Hb1' : ratings_sized n (best s1)) by (destruct Hb1 as [-> | ->]; auto).
  assert (Hc1' : ratings_sized n (cur s1)) by (destruct Hc1 as [-> | ->]; auto).
  rewrite Eb. split; [|assumption].
  destruct Hcases as [(_ & _ & k & Hk & _) | (_ & _ & -> & _)]; [|assumption].
  destruct Hc1' as (Lo & Ld & _).
  eapply update_ratings_sized; eassumption.
Qed.

Lemma initial_ratings_sized a :
  ratings_sized (length (teams_in_network a)) (zero_ratings a).
Proof.
  unfold ratings_sized, zero_ratings, np_add, np_zeros. simpl.
  rewrite length_zip_with, !repeat_length. lia.
Qed.

Lemma reachable_sized a s :
  reachable np_log norm_cdf rng_normal a s ->
  ratings_sized (length (teams_in_network a)) (cur s) /\
  ratings_sized (length (teams_in_network a)) (best s).
Proof.
  intros Hr. induction Hr as [|s s' Hr [IHc IHb] Ht Hit].
  - split; apply initial_ratings_sized.
  - eapply iteration_keeps_sizes; eassumption.
Qed.

(** X3.  The offense, defense and overall ratings that an attempt returns
    have one entry per team of the network. *)
Theorem returned_ratings_have_one_entry_per_team a fuel r :
  rating_attempt np_log norm_cdf rng_normal fuel a = Returned _ r ->
  length (team_off_ratings r) = length (teams_in_network a) /\
  length (team_def_ratings r) = length (teams_in_network a) /\
  length (team_ratings r) = length (teams_in_network a).
Proof.
  intros H. unfold rating_attempt in H.
  destruct (while_loop _ _ _ fuel a (initial_state a)) as [s| |] eqn:Hw;
    try discriminate.
  injection H as <-.
  apply while_loop_reachable in Hw as [Hr _]; [|constructor].
  apply (reachable_sized a s Hr).
Qed.

End MoreAttemptProperties.

(** * Further properties of the loop over the games *)

Section GameLoopProperties.

Variable np_log : Q -> Q.
Variable norm_cdf : Q -> Q -> Q -> Q.
Variable rng_normal : nat -> nat -> Q -> Q -> Q.

(** ** One entry per game *)

Lemma store_first_per_game g fid fid' n :
  store_first g fid = Some fid' -> stored_per_game n fid -> stored_per_game (S n) fid'.
Proof.
  unfold store_first, stored_per_game. intros H (H1 & H2 & H3 & H4).
  inv_bind H. injection H as <-. simpl. rewrite !length_app. simpl. lia.
Qed.

Lemma add_errors_per_game g ph pa sums sums' n :
  add_errors g ph pa sums = Some sums' ->
  predicted_per_game n sums -> predicted_per_game (S n) sums'.
Proof.
  unfold predicted_per_game. intros H (H1 & H2 & H3).
  apply add_errors_lists in H as (-> & -> & ->). rewrite !length_app. simpl. lia.
Qed.

Lemma game_loop_per_game a first c ids : forall acc acc' n,
  for_each (game_body np_log a first c) ids acc = Some acc' ->
  predicted_per_game n (fst acc) ->
  predicted_per_game (n + length ids) (fst acc') /\
  (first = true -> stored_per_game n (snd acc) ->
   stored_per_game (n + length ids) (snd acc')).
Proof.
  induction ids as [|id ids IH]; intros acc acc' n H Hp; simpl in H.
  - injection H as <-. simpl. rewrite Nat.add_0_r. auto.
  - inv_bind H.
    destruct (game_body_inv _ _ _ _ _ _ _ E) as (g & ph & pa & _ & _ & _ & Hst & Hadd).
    apply (add_errors_per_game _ _ _ _ _ n) in Hadd; [|assumption].
    destruct (IH _ _ _ H Hadd) as [Hp' Hs'].
    simpl. rewrite <- Nat.add_succ_comm. split; [assumption|].
    intros -> Hs. apply Hs'; [reflexivity|].
    eapply store_first_per_game; eassumption.
Qed.

(** X6.  A pass over the games leaves one predicted margin, one predicted
    home score and one predicted away score per game of the network, and the
    first pass stores one actual margin, one weight and two actual scores per
    game: the arrays that the error of the iteration multiplies and subtracts
    have the same length. *)
Theorem lists_have_one_entry_per_game a s sums fid :
  game_loop np_log a s = Some (sums, fid) ->
  predicted_per_game (length (network_game_id_list a)) sums /\
  (first_iteration s = true ->
   stored_per_game (length (network_game_id_list a)) fid).
Proof.
  unfold game_loop. intros H.
  apply (game_loop_per_game _ _ _ _ _ _ 0%nat) in H as [Hp Hs].
  - simpl in Hp, Hs. split; [assumption|].
    intros Hf. rewrite Hf in Hs. apply Hs; [reflexivity|].
    repeat split; reflexivity.
  - repeat split; reflexivity.
Qed.

(** X7.  What the first iteration stores (the weights of the teams and of
    the games, the actual margins and scores) is what every later iteration
    uses: an iteration that is not the first leaves the stored data as it
    is, and is followed by an iteration that is not the first. *)
Theorem stored_data_is_fixed_after_first_iteration a s s' :
  first_iteration s = false ->
  iteration np_log norm_cdf rng_normal a s = Some s' ->
  stored s' = stored s /\ first_iteration s' = false.
Proof.
  intros Hf Hit.
  apply iteration_inv in Hit as (sums & fid & s1 & Hloop & Hsave & Hupd).
  apply save_or_reset_cases in Hsave as (_ & _ & _ & Hst & _).
  apply update_or_stop_cases in Hupd as (_ & _ & _ & Hst' & Hf' & _).
  split; [|assumption].
  rewrite Hst', Hst. unfold game_loop in Hloop. rewrite Hf in Hloop.
  apply later_game_loop_keeps_stored in Hloop. exact Hloop.
Qed.

(** ** Inputs on which the first update divides by zero *)

Lemma neutral_game_loop a c ids : forall acc acc',
  (forall id, In id ids -> input_games_is_neutral_site a !! id = Some true) ->
  for_each (game_body np_log a true c) ids acc = Some acc' ->
  total_notneutral_weight (snd acc') = total_notneutral_weight (snd acc).
Proof.
  induction ids as [|id ids IH]; intros acc acc' Hn H; simpl in H.
  - now injection H as <-.
  - inv_bind H. rewrite (IH _ _ (fun i Hi => Hn i (or_intror Hi)) H).
    destruct (game_body_inv _ _ _ _ _ _ _ E) as (g & ph & pa & Hg & _ & _ & Hst & _).
    apply read_game_inv in Hg as (? & ? & ? & ? & _ & _ & _ & _ & _ & _ & _ & _ & _ & _ & _ & Hneu).
    rewrite (Hn id (or_introl eq_refl)) in Hneu. injection Hneu as Hneu.
    unfold store_first in Hst. inv_bind Hst. injection Hst as <-. simpl.
    now rewrite <- Hneu.
Qed.

(** X8.  If every game of the network is at a neutral site (in particular
    if the network has no game) and the stop threshold is not 0, the attempt
    does not return: no game adds to the weight of the games that are not at
    a neutral site, and the first update of the home advantage divides by
    it. *)
Theorem all_neutral_sites_attempt_fails a fuel :
  (forall id, In id (network_game_id_list a) ->
     input_games_is_neutral_site a !! id = Some true) ->
  (0 < iterations_before_stop a)%nat ->
  rating_attempt np_log norm_cdf rng_normal (S fuel) a = Failed _.
Proof.
  intros Hn Hstop.
  assert (Hit : iteration np_log norm_cdf rng_normal a (initial_state a) = None).
  { destruct (iteration _ _ _ a (initial_state a)) as [s'|] eqn:Hit; [|reflexivity].
    exfalso.
    apply iteration_inv in Hit as (sums & fid & s1 & Hloop & Hsave & Hupd).
    unfold game_loop in Hloop. simpl in Hloop.
    apply neutral_game_loop in Hloop; [|assumption]. simpl in Hloop.
    unfold save_or_reset in Hsave. simpl in Hsave. injection Hsave as <-.
    unfold update_or_stop in Hupd. simpl in Hupd.
    destruct (Nat.ltb_spec 0 (iterations_before_stop a)); [|lia].
    inv_bind Hupd. clear Hupd. destruct p as [c k].
    unfold update_ratings in E. inv_bind E. destruct p as [[off def] k1].
    rewrite Hloop in E. simpl in E. discriminate. }
  unfold rating_attempt. simpl. rewrite Hit. reflexivity.
Qed.

Lemma centrality_one_no_weight a w h aw :
  game_network_edge_centrality a !! centrality_key h aw = Some 1 ->
  np_log (1 / 1) == 0 ->
  cur_game_gt_weight np_log a w h aw = None.
Proof.
  intros Hc Hlog. unfold cur_game_gt_weight. rewrite Hc. simpl.
  unfold fdiv at 1. simpl. apply fdiv_None. exact Hlog.
Qed.

(** X10.  A game between two teams whose edge has centrality exactly 1
    has no finite weight: the logarithm of [1 / 1] is 0 and line 96 divides
    the weight by it, which in the source gives an infinity, or NaN for a
    weight of 0; the pass over the games then has no finite sums. *)
Theorem centrality_one_gives_no_finite_weight a s id hid aid h aw season w :
  In id (network_game_id_list a) ->
  input_games_home_id a !! id = Some hid ->
  input_games_away_id a !! id = Some aid ->
  id_to_all_index a !! hid = Some h ->
  id_to_all_index a !! aid = Some aw ->
  input_games_season a !! id = Some season ->
  cur_game_weight a id season = Some w ->
  game_network_edge_centrality a !! centrality_key h aw = Some 1 ->
  np_log (1 / 1) == 0 ->
  np_divide w (np_log (1 / 1))
    = (if Qeq_bool w 0 then NaN else Infinity (negb (Qle_bool 0 w))) /\
  cur_game_gt_weight np_log a w h aw = None /\
  read_game np_log a id = None /\
  game_loop np_log a s = None.
Proof.
  intros Hin Hh Ha Hhi Hai Hse Hw Hc Hlog.
  assert (Hgt : forall w', cur_game_gt_weight np_log a w' h aw = None)
    by (intros w'; now apply centrality_one_no_weight).
  assert (Hread : read_game np_log a id = None).
  { destruct (read_game np_log a id) as [g|] eqn:Hg; [|reflexivity]. exfalso.
    apply read_game_inv in Hg
      as (hid' & aid' & season' & w' & Hh' & Ha' & _ & _ & Hhi' & Hai' & _ & _ & _ & _ & Hgt' & _).
    rewrite Hh in Hh'. injection Hh' as <-. rewrite Ha in Ha'. injection Ha' as <-.
    rewrite Hhi in Hhi'. injection Hhi' as Eh. rewrite Hai in Hai'. injection Hai' as Ea.
    rewrite <- Eh, <- Ea in Hgt'.
    rewrite Hgt in Hgt'. discriminate. }
  split.
  { unfold np_divide. apply Qeq_bool_iff in Hlog. rewrite Hlog. reflexivity. }
  split; [apply Hgt|]. split; [exact Hread|].
  unfold game_loop.
  rewrite (for_each_fails _ id _ Hin); [reflexivity|].
  intros acc. unfold game_body. rewrite Hread. reflexivity.
Qed.

(** ** The count of iterations at the exit *)

Lemma reachable_count a s :
  reachable np_log norm_cdf rng_normal a s ->
  (iterations_since_last_update s <= iterations_before_stop a)%nat /\
  (first_iteration s = false -> terminate_search s = false ->
   (iterations_since_last_update s < iterations_before_stop a)%nat).
Proof.
  intros Hr. induction Hr as [|s s' Hr [IHle IHlt] Ht Hit].
  - simpl. split; [lia|discriminate].
  - pose proof (iteration_stops_at_threshold _ _ _ _ _ _ Ht Hit) as Hstop.
    apply iteration_inv in Hit as (sums & fid & s1 & _ & Hsave & Hupd).
    assert (Hc1 : (iterations_since_last_update s1 <= iterations_before_stop a)%nat).
    { unfold save_or_reset, update_best_stats in Hsave.
      destruct (first_iteration s) eqn:Hf.
      - simpl in Hsave. injection Hsave as <-. simpl. lia.
      - specialize (IHlt eq_refl Ht). inv_bind Hsave. destruct b.
        + injection Hsave as <-. simpl. lia.
        + destruct (iterations_before_reset a =? 0)%nat; [discriminate|].
          injection Hsave as <-. simpl. lia. }
    apply update_or_stop_cases in Hupd as (_ & _ & Ec & _ & _ & _).
    rewrite Ec in *. split; [assumption|].
    intros _ Ht'. destruct (Nat.lt_ge_cases (iterations_since_last_update s1)
                              (iterations_before_stop a)) as [Hlt|Hge]; [assumption|].
    apply Hstop in Hge. congruence.
Qed.

(** X9.  An attempt that returns has left the loop in a state whose count
    of iterations since the last improvement is exactly the stop threshold,
    not more; it returns the best ratings of that state. *)
Theorem attempt_stops_at_exactly_the_threshold a fuel r :
  rating_attempt np_log norm_cdf rng_normal fuel a = Returned _ r ->
  exists s, reachable np_log norm_cdf rng_normal a s /\ r = best s /\
            iterations_since_last_update s = iterations_before_stop a.
Proof.
  intros H. unfold rating_attempt in H.
  destruct (while_loop _ _ _ fuel a (initial_state a)) as [s| |] eqn:Hw;
    try discriminate.
  injection H as <-.
  apply while_loop_reachable in Hw as [Hr Ht]; [|constructor].
  exists s. split; [assumption|]. split; [reflexivity|].
  pose proof (reachable_stopped _ _ _ _ _ Hr Ht).
  destruct (reachable_count a s Hr). lia.
Qed.

(** ** Signs *)

Lemma np_clip_unit x : 0 <= np_clip x 0 1 /\ np_clip x 0 1 <= 1.
Proof.
  unfold np_clip. split.
  - apply Q.min_glb; [apply Q.le_max_r|discriminate].
  - apply Q.le_min_r.
Qed.

Lemma cur_game_weight_unit a id season w x y z :
  preseason_weight a = np_clip x 0 1 ->
  prior_season_weight a = np_clip y 0 1 ->
  prior_preseason_weight a = np_clip z 0 1 ->
  cur_game_weight a id season = Some w -> 0 <= w /\ w <= 1.
Proof.
  intros Hx Hy Hz. unfold cur_game_weight. rewrite Hx, Hy, Hz.
  pose proof (np_clip_unit x). pose proof (np_clip_unit y). pose proof (np_clip_unit z).
  assert (H01 : 0 <= 1 /\ 1 <= 1) by (split; discriminate).
  assert (H00 : 0 <= 0 /\ 0 <= 1) by (split; discriminate).
  destruct (season =? season_to_rank a)%Z; [|destruct (season <? season_to_rank a)%Z];
    destruct (use_preseason_var a);
    try destruct (input_games_is_preseason a !! id) as [[|]|]; simpl;
    intros [= <-]; assumption.
Qed.

Lemma gt_weight_nonneg a w h aw q :
  (forall x, 1 < x -> 0 < np_log x) ->
  (forall k c, game_network_edge_centrality a !! k = Some c -> 0 < c /\ c < 1) ->
  0 <= w ->
  cur_game_gt_weight np_log a w h aw = Some q -> 0 <= q.
Proof.
  intros Hlog Hcent Hw H.
  destruct (game_network_edge_centrality a !! centrality_key h aw) as [c|] eqn:Hc;
    [|unfold cur_game_gt_weight in H; rewrite Hc in H; discriminate].
  destruct (Hcent _ _ Hc) as [H0 H1].
  rewrite (cur_game_gt_weight_formula np_log a w h aw c Hlog Hc H0 H1) in H.
  injection H as <-.
  assert (Hpos : 0 < np_log (1 / c)).
  { apply Hlog. apply Qlt_shift_div_l; [assumption|]. lra. }
  apply Qle_shift_div_l; [assumption|]. lra.
Qed.

Lemma first_game_loop_weights_nonneg a c ids x y z : forall acc acc',
  (forall x, 1 < x -> 0 < np_log x) ->
  (forall k c, game_network_edge_centrality a !! k = Some c -> 0 < c /\ c < 1) ->
  preseason_weight a = np_clip x 0 1 ->
  prior_season_weight a = np_clip y 0 1 ->
  prior_preseason_weight a = np_clip z 0 1 ->
  for_each (game_body np_log a true c) ids acc = Some acc' ->
  Forall (fun w => 0 <= w) (gt_game_weight_list (snd acc)) ->
  Forall (fun w => 0 <= w) (gt_game_weight_list (snd acc')).
Proof.
  intros acc acc' Hlog Hcent Hx Hy Hz. revert acc acc'.
  induction ids as [|id ids IH]; intros acc acc' H Hall; simpl in H.
  - now injection H as <-.
  - inv_bind H. apply (IH _ _ H).
    destruct (game_body_inv _ _ _ _ _ _ _ E) as (g & ph & pa & Hg & _ & _ & Hst & _).
    apply read_game_inv in Hg
      as (? & ? & season & w & _ & _ & _ & _ & _ & _ & _ & _ & _ & Hw & Hgt & _).
    apply (cur_game_weight_unit _ _ _ _ _ _ _ Hx Hy Hz) in Hw as [Hw _].
    apply (gt_weight_nonneg _ _ _ _ _ Hlog Hcent Hw) in Hgt.
    unfold store_first in Hst. inv_bind Hst. injection Hst as <-. simpl.
    apply Forall_app. split; [assumption|]. constructor; [assumption|constructor].
Qed.

Lemma np_sum_nonneg l : Forall (fun w => 0 <= w) l -> 0 <= np_sum l.
Proof.
  induction 1 as [|x l Hx _ IH]; simpl; [apply Qle_refl|].
  change (0 <= x + np_sum l). lra.
Qed.

Lemma cdf_abs_error_nonneg w : forall actual predicted loc scale,
  Forall (fun w => 0 <= w) w ->
  0 <= cdf_abs_error norm_cdf w actual predicted loc scale.
Proof.
  intros actual predicted loc scale Hw. unfold cdf_abs_error.
  apply np_sum_nonneg. revert actual predicted.
  induction Hw as [|x l Hx _ IH]; intros [|u actual] [|v predicted];
    cbn [zip_with]; try constructor.
  - apply Qmult_le_0_compat; [assumption|apply Qabs_nonneg].
  - apply IH.
Qed.

(** X11.  With the three weights of the command line clipped to [[0, 1]]
    as [main] does, a logarithm that is positive above 1 and centralities
    strictly between 0 and 1, no game has a negative weight, and the error of
    an iteration is never negative. *)
Theorem weights_and_error_are_never_negative a sums fid x y z :
  (forall x, 1 < x -> 0 < np_log x) ->
  (forall k c, game_network_edge_centrality a !! k = Some c -> 0 < c /\ c < 1) ->
  preseason_weight a = np_clip x 0 1 ->
  prior_season_weight a = np_clip y 0 1 ->
  prior_preseason_weight a = np_clip z 0 1 ->
  game_loop np_log a (initial_state a) = Some (sums, fid) ->
  Forall (fun w => 0 <= w) (gt_game_weight_list fid) /\
  forall sums', 0 <= abs_total_error norm_cdf a fid sums'.
Proof.
  intros Hlog Hcent Hx Hy Hz Hloop.
  assert (Hall : Forall (fun w => 0 <= w) (gt_game_weight_list fid)).
  { unfold game_loop in Hloop. simpl in Hloop.
    apply (first_game_loop_weights_nonneg _ _ _ x y z _ _ Hlog Hcent Hx Hy Hz) in Hloop;
      [exact Hloop|constructor]. }
  split; [assumption|]. intros sums'. unfold abs_total_error.
  assert (H1 := cdf_abs_error_nonneg (gt_game_weight_list fid)
                  (home_actual_margin_list fid) (home_predicted_margin_list sums')
                  0 (network_game_margin_stdev a) Hall).
  assert (H2 := cdf_abs_error_nonneg (gt_game_weight_list fid ++ gt_game_weight_list fid)
                  (home_actual_off_score_list fid ++ home_actual_def_score_list fid)
                  (home_predicted_off_score_list sums' ++ home_predicted_def_score_list sums')
                  (network_game_score_mean a) (network_game_margin_stdev a)).
  specialize (H2 ltac:(apply Forall_app; split; assumption)). lra.
Qed.

End GameLoopProperties.

(** * Further properties of the calibration *)

Section MoreCalibrationProperties.

Variable norm_cdf : Q -> Q -> Q -> Q.
Variable t_cdf : Q -> Q -> Q -> Q -> Q.
Variable np_std : list Q -> Q.
Variable t_fit : list Q -> option Q -> option Q.

(** ** The samples of errors *)

Lemma errors_body_aligned a m season acc id acc' :
  errors_body a m season acc id = Some acc' ->
  samples_aligned acc -> samples_aligned acc'.
Proof.
  unfold errors_body. intros H (Hs & Ht). inv_bind H.
  destruct b; [|now injection H as <-].
  inv_bind H. injection H as <-. unfold samples_aligned.
  cbn [prediction_errors score_prediction_errors total_score_prediction_errors].
  rewrite !length_app. cbn [length]. split; lia.
Qed.

Lemma errors_body_length a m season acc id acc' :
  errors_body a m season acc id = Some acc' ->
  (length (prediction_errors acc') <= S (length (prediction_errors acc)))%nat.
Proof.
  unfold errors_body. intros H. inv_bind H.
  destruct b; [|injection H as <-; lia].
  inv_bind H. injection H as <-. simpl. rewrite length_app. simpl. lia.
Qed.

Lemma errors_loop_aligned a m season ids : forall acc acc',
  for_each (errors_body a m season) ids acc = Some acc' ->
  samples_aligned acc ->
  samples_aligned acc' /\
  (length (prediction_errors acc') <= length (prediction_errors acc) + length ids)%nat.
Proof.
  induction ids as [|id ids IH]; intros acc acc' H Ha; simpl in H.
  - injection H as <-. split; [assumption|lia].
  - destruct (errors_body a m season acc id) as [acc1|] eqn:E; [|discriminate].
    simpl in H.
    assert (Ha1 := errors_body_aligned _ _ _ _ _ _ E Ha).
    assert (Hl1 := errors_body_length _ _ _ _ _ _ E).
    destruct (IH _ _ H Ha1) as [Ha' Hle]. split; [assumption|].
    simpl. lia.
Qed.

Lemma empty_samples_aligned :
  samples_aligned {| prediction_errors := []; score_prediction_errors := [];
                     total_score_prediction_errors := [] |}.
Proof. split; reflexivity. Qed.

(** X12.  The three samples of the calibration belong together: the sample
    of score errors has two entries and the sample of total score errors one
    entry for every margin error, and there are at most as many margin
    errors as games in the network. *)
Theorem calibration_samples_are_aligned a m e :
  calibration_errors a m = Some e ->
  samples_aligned e /\
  (length (prediction_errors e) <= length (network_game_id_list a))%nat.
Proof.
  unfold calibration_errors. intros H.
  destruct (network_game_id_list a) as [|id ids] eqn:Hids.
  - injection H as <-. split; [apply empty_samples_aligned|simpl; lia].
  - destruct (cur_game_season_at_calibration a m) as [season|]; [|discriminate].
    change (for_each (errors_body a m season) (id :: ids)
              {| prediction_errors := []; score_prediction_errors := [];
                 total_score_prediction_errors := [] |} = Some e) in H.
    apply errors_loop_aligned in H; [|apply empty_samples_aligned].
    exact H.
Qed.

(** ** The games of the two loops *)

(** X13.  The search of the tie bound averages over every game whose
    errors are in the samples, and over more: the two loops differ exactly on
    the preseason games that the test on [prior_preseason_weight] removes
    from the samples, which the search keeps. *)
Theorem tie_search_includes_more_games a season id pre :
  input_games_is_preseason a !! id = Some pre ->
  (include_game a season id = Some true -> include_game_tie a season id = Some true) /\
  (include_game a season id = Some false /\ include_game_tie a season id = Some true <->
   use_preseason_var a = true /\ pre = true /\ (season < season_to_rank a)%Z /\
   prior_preseason_weight a == 0 /\ ~ preseason_weight a == 0 /\
   ~ prior_season_weight a == 0).
Proof.
  intros Hpre. unfold include_game, include_game_tie. rewrite Hpre.
  destruct (Z.ltb_spec season (season_to_rank a));
    destruct (Qeq_bool_reflect (preseason_weight a) 0);
    destruct (Qeq_bool_reflect (prior_preseason_weight a) 0);
    destruct (Qeq_bool_reflect (prior_season_weight a) 0);
    destruct (use_preseason_var a), pre; simpl;
    (split; [intros; congruence|]);
    (split; [intros [? ?]; try discriminate; repeat split; (assumption || lia)
            | intros (? & ? & ? & ? & ? & ?);
              try contradiction; try discriminate; try lia; split; reflexivity ]).
Qed.

Lemma tie_loop_excluded a m season b ids : forall acc,
  (forall id, In id ids -> include_game_tie a season id = Some false) ->
  for_each (tie_body norm_cdf t_cdf a m season b) ids acc = Some acc.
Proof.
  induction ids as [|id ids IH]; intros acc Hex; cbn [for_each]; [reflexivity|].
  assert (E : tie_body norm_cdf t_cdf a m season b acc id = Some acc).
  { unfold tie_body. rewrite (Hex id (or_introl eq_refl)). reflexivity. }
  rewrite E. simpl. apply IH. intros i Hi. apply Hex. now right.
Qed.

Lemma errors_loop_excluded a m season ids : forall acc,
  (forall id, In id ids -> include_game a season id = Some false) ->
  for_each (errors_body a m season) ids acc = Some acc.
Proof.
  induction ids as [|id ids IH]; intros acc Hex; cbn [for_each]; [reflexivity|].
  assert (E : errors_body a m season acc id = Some acc).
  { unfold errors_body. rewrite (Hex id (or_introl eq_refl)). reflexivity. }
  rewrite E. simpl. apply IH. intros i Hi. apply Hex. now right.
Qed.

(** X17.  When the season left in [cur_game_season] is earlier than the
    season to rank and [prior_season_weight] is 0, the calibration leaves out
    every game, those of the season to rank included: the three samples are
    empty, and [main] does not get to a tie bound: it raises in the fit of an
    empty sample or, should the three fits go through, in the search, which
    divides by a count of 0. *)
Theorem earlier_stale_season_excludes_every_game a m season :
  cur_game_season_at_calibration a m = Some season ->
  (season < season_to_rank a)%Z ->
  prior_season_weight a == 0 ->
  (forall id, In id (network_game_id_list a) ->
     is_Some (input_games_is_preseason a !! id)) ->
  calibration_errors a m
  = Some {| prediction_errors := []; score_prediction_errors := [];
            total_score_prediction_errors := [] |} /\
  forall fuel,
    main_tie_cdf_bound norm_cdf t_cdf np_std t_fit (S fuel) a m = Failed _.
Proof.
  intros Hs Hlt Hw Hpre.
  assert (Hlt' : (season <? season_to_rank a)%Z = true) by (apply Z.ltb_lt; exact Hlt).
  assert (Hw' : Qeq_bool (prior_season_weight a) 0 = true) by (apply Qeq_bool_iff; exact Hw).
  split.
  - unfold calibration_errors. rewrite Hs.
    destruct (network_game_id_list a) as [|id ids] eqn:Hids; [reflexivity|].
    change (for_each (errors_body a m season) (id :: ids)
              {| prediction_errors := []; score_prediction_errors := [];
                 total_score_prediction_errors := [] |} = Some
              {| prediction_errors := []; score_prediction_errors := [];
                 total_score_prediction_errors := [] |}).
    apply errors_loop_excluded. intros i Hi.
    destruct (Hpre i Hi) as [pre Hp].
    unfold include_game. rewrite Hp, Hlt', Hw'.
    destruct (use_preseason_var a); reflexivity.
  - intros fuel. unfold main_tie_cdf_bound.
    destruct (fit_prediction_errors np_std t_fit a m) as [fitted|]; [|reflexivity].
    rewrite Hs. unfold tie_cdf_bound. simpl.
    unfold cur_cdf_tie_probability.
    rewrite tie_loop_excluded; [reflexivity|].
    intros i Hi. destruct (Hpre i Hi) as [pre Hp].
    unfold include_game_tie. rewrite Hp, Hlt', Hw'.
    destruct (use_preseason_var a); reflexivity.
Qed.

(** X14.  The seasons of the unplayed games are not before the season to
    rank.  So when there is an unplayed game, the season left in
    [cur_game_season] is not before the season to rank either, and the
    calibration leaves out a game only for being a preseason game with
    [preseason_weight] 0: the tests on [prior_season_weight] and
    [prior_preseason_weight] never remove a game. *)
Theorem unplayed_game_disables_prior_season_tests a m :
  unplayed_games_season m <> [] ->
  Forall (fun s => (season_to_rank a <= s)%Z) (unplayed_games_season m) ->
  exists season,
    cur_game_season_at_calibration a m = Some season /\
    forall id pre,
      input_games_is_preseason a !! id = Some pre ->
      (include_game a season id = Some false <->
       use_preseason_var a = true /\ pre = true /\ preseason_weight a == 0).
Proof.
  intros Hne Hall. unfold cur_game_season_at_calibration.
  destruct (last (unplayed_games_season m)) as [season|] eqn:Hl.
  - exists season. split; [reflexivity|]. intros id pre Hpre.
    assert (Hge : (season_to_rank a <= season)%Z).
    { rewrite last_lookup in Hl. eapply Forall_lookup_1 in Hall; [|exact Hl].
      exact Hall. }
    rewrite (include_game_false_iff a season id pre Hpre).
    split.
    + intros [H | [(_ & _ & H & _) | (H & _)]]; [exact H|lia|lia].
    + intros H. left. exact H.
  - apply last_None in Hl. contradiction.
Qed.

(** ** Targets that the search does not expect *)

Lemma tie_mass_le_1 m b pm :
  cdfs_in_unit_interval norm_cdf t_cdf m -> tie_mass norm_cdf t_cdf m b pm <= 1.
Proof.
  intros [Hn Ht]. unfold tie_mass. destruct (use_normal m).
  - pose proof (Hn b pm). pose proof (Hn (- b) pm). lra.
  - pose proof (Ht b pm). pose proof (Ht (- b) pm). lra.
Qed.

Lemma tie_sums_le_count a m season b ids :
  cdfs_in_unit_interval norm_cdf t_cdf m ->
  forall acc acc',
    for_each (tie_body norm_cdf t_cdf a m season b) ids acc = Some acc' ->
    fst acc <= inject_Z (Z.of_nat (snd acc)) ->
    fst acc' <= inject_Z (Z.of_nat (snd acc')).
Proof.
  intros Hunit. induction ids as [|id ids IH]; intros acc acc' H Hle; simpl in H.
  - now injection H as <-.
  - destruct (tie_body norm_cdf t_cdf a m season b acc id) as [acc1|] eqn:E;
      [|discriminate].
    simpl in H. apply (IH _ _ H).
    apply tie_body_inv in E as [[_ ->] | (g & pm & _ & _ & _ & ->)]; [assumption|].
    cbn [fst snd]. rewrite tie_add_mass.
    rewrite Nat2Z.inj_succ, <- Z.add_1_r, inject_Z_plus.
    pose proof (tie_mass_le_1 m b pm Hunit).
    change (inject_Z 1) with 1. lra.
Qed.

Lemma tie_probability_le_1 a m season b p :
  cdfs_in_unit_interval norm_cdf t_cdf m ->
  cur_cdf_tie_probability norm_cdf t_cdf a m season b = Some p -> p <= 1.
Proof.
  intros Hunit H. unfold cur_cdf_tie_probability in H.
  destruct (for_each _ (network_game_id_list a) (0, O)) as [[s n]|] eqn:E;
    [|discriminate].
  simpl in H.
  pose proof (tie_sums_le_count a m season b _ Hunit _ _ E) as Hs.
  simpl in Hs. specialize (Hs (Qle_refl 0)).
  apply fdiv_inv in H as [Hn ->].
  assert (Hpos : 0 < inject_Z (Z.of_nat n)).
  { change 0 with (inject_Z 0). rewrite <- Zlt_Qlt.
    destruct n; [exfalso; apply Hn; reflexivity|lia]. }
  apply Qle_shift_div_r; [assumption|]. lra.
Qed.

Lemma tie_search_never_returns a m season :
  cdfs_in_unit_interval norm_cdf t_cdf m -> 1 < tie_probability m ->
  forall fuel cur_p b r,
    tie_search norm_cdf t_cdf fuel a m season cur_p b <> Returned _ r.
Proof.
  intros Hunit Hp. induction fuel as [|fuel IH]; intros cur_p b r; simpl.
  - discriminate.
  - destruct (cur_cdf_tie_probability _ _ a m season _) as [p|] eqn:E; [|discriminate].
    apply tie_probability_le_1 in E; [|assumption].
    destruct (Qle_bool (tie_probability m) p) eqn:Hle.
    + apply Qle_bool_iff in Hle. lra.
    + apply IH.
Qed.

(** X15.  Nothing bounds the target tie probability of the command line.
    With distribution functions between 0 and 1 no aggregate tie probability
    exceeds 1, so for a target above 1 the search never returns: whatever the
    number of steps, it is still running or has failed. *)
Theorem target_above_one_is_never_reached a m season fuel :
  cdfs_in_unit_interval norm_cdf t_cdf m -> 1 < tie_probability m ->
  tie_cdf_bound norm_cdf t_cdf fuel a m season = OutOfFuel _ \/
  tie_cdf_bound norm_cdf t_cdf fuel a m season = Failed _.
Proof.
  intros Hunit Hp. unfold tie_cdf_bound.
  destruct (tie_search norm_cdf t_cdf fuel a m season 0 0) as [r| |] eqn:E; auto.
  exfalso. exact (tie_search_never_returns a m season Hunit Hp _ _ _ _ E).
Qed.

(** X16.  For a target that is 0 or negative the search stops at its first
    bound, the step itself, and the interpolation from the pair (0, 0)
    returns the target divided by the aggregate probability of that bound,
    times the step: a bound that is 0 or negative. *)
Theorem target_not_above_zero_gives_bound_not_above_zero a m season fuel cp :
  cdfs_monotone norm_cdf t_cdf m ->
  tie_probability m <= 0 -> 0 <= tie_cdf_search_interval m ->
  cur_cdf_tie_probability norm_cdf t_cdf a m season (0 + tie_cdf_search_interval m)
  = Some cp ->
  ~ cp == 0 ->
  exists b,
    tie_cdf_bound norm_cdf t_cdf (S fuel) a m season = Returned _ b /\
    b == tie_probability m / cp * tie_cdf_search_interval m /\ b <= 0.
Proof.
  intros Hmono Hp Hstep Hcp Hne.
  assert (H0 : 0 <= cp).
  { eapply tie_probability_nonneg; [exact Hmono| |exact Hcp]. lra. }
  unfold tie_cdf_bound. simpl. rewrite Hcp.
  assert (Hle : Qle_bool (tie_probability m) cp = true) by (apply Qle_bool_iff; lra).
  rewrite Hle. unfold interpolate.
  rewrite fdiv_Some by lra. simpl.
  eexists. split; [reflexivity|]. 
  assert (Hr : (tie_probability m - 0) / (cp - 0) == tie_probability m / cp).
  { field. exact Hne. }
  rewrite Hr. split; [ring|].
  assert (Hq : tie_probability m / cp <= 0).
  { apply Qle_shift_div_r; lra. }
  assert (tie_probability m / cp * tie_cdf_search_interval m <= 0); [|lra].
  rewrite <- (Qmult_0_l (tie_cdf_search_interval m)).
  apply Qmult_le_compat_r; assumption.
Qed.

End MoreCalibrationProperties.

(** * Properties of the rest of [main] *)

(** ** Lists and dicts *)

Lemma index_lookup {A} `{EqDecision A} (x : A) l : forall i,
  Py.index x l = Some i -> l !! i = Some x.
Proof.
  induction l as [|y l IH]; intros i H; simpl in H; [discriminate|].
  destruct (decide (x = y)) as [->|Hne].
  - now injection H as <-.
  - destruct (Py.index x l) as [j|]; [|discriminate]. injection H as <-.
    simpl. now apply IH.
Qed.

Lemma index_of_lookup {A} `{EqDecision A} (l : list A) : forall i x,
  NoDup l -> l !! i = Some x -> Py.index x l = Some i.
Proof.
  induction l as [|y l IH]; intros i x Hnd H; [destruct i; discriminate|].
  apply NoDup_cons in Hnd as [Hy Hnd]. simpl.
  destruct i as [|i]; simpl in H.
  - injection H as ->. now rewrite decide_True.
  - rewrite decide_False.
    + now rewrite (IH i x Hnd H).
    + intros ->. apply Hy. eapply list_elem_of_lookup_2; eassumption.
Qed.

Lemma index_is_Some {A} `{EqDecision A} (x : A) l : x ∈ l -> is_Some (Py.index x l).
Proof.
  induction l as [|y l IH]; intros Hin; [inversion Hin|]. simpl.
  destruct (decide (x = y)); [eauto|].
  apply elem_of_cons in Hin as [?|Hin]; [contradiction|].
  destruct (IH Hin) as [i ->]. eauto.
Qed.

Lemma count_pos {A} `{EqDecision A} (x : A) l : (0 < Py.count x l)%nat <-> x ∈ l.
Proof.
  induction l as [|y l IH]; simpl.
  - split; [lia|inversion 1].
  - rewrite elem_of_cons. destruct (decide (x = y)); [split; [auto|lia]|].
    rewrite IH. tauto.
Qed.

Lemma dict_lookup_snoc {K V} `{Countable K} (l : list (K * V)) p k :
  Py.dict (l ++ [p]) !! k = if decide (k = p.1) then Some p.2 else Py.dict l !! k.
Proof.
  unfold Py.dict. rewrite foldl_app. simpl.
  destruct (decide (k = p.1)) as [->|Hne].
  - apply lookup_insert_eq.
  - now apply lookup_insert_ne.
Qed.

Lemma dict_lookup {K V} `{Countable K} (l : list (K * V)) i k v :
  NoDup l.*1 -> l !! i = Some (k, v) -> Py.dict l !! k = Some v.
Proof.
  revert i. induction l as [|p l IH] using rev_ind; intros i Hnd Hl;
    [destruct i; discriminate|].
  rewrite fmap_app in Hnd. apply NoDup_app in Hnd as (Hnd & Hdisj & _).
  rewrite dict_lookup_snoc.
  destruct (Nat.lt_ge_cases i (length l)) as [Hlt|Hge].
  - rewrite lookup_app_l in Hl by assumption.
    rewrite decide_False; [eapply IH; eassumption|].
    intros ->. apply (Hdisj p.1); [|simpl; left].
    apply list_elem_of_fmap. exists (p.1, v). split; [reflexivity|].
    eapply list_elem_of_lookup_2; eassumption.
  - rewrite lookup_app_r in Hl by assumption.
    destruct (i - length l)%nat; [|destruct n; discriminate].
    injection Hl as ->. simpl. now rewrite decide_True.
Qed.

Lemma dict_lookup_inv {K V} `{Countable K} (l : list (K * V)) k v :
  Py.dict l !! k = Some v -> (k, v) ∈ l.
Proof.
  induction l as [|p l IH] using rev_ind; intros Hl.
  - unfold Py.dict in Hl. simpl in Hl. rewrite lookup_empty in Hl. discriminate.
  - rewrite dict_lookup_snoc in Hl. apply elem_of_app.
    destruct (decide (k = p.1)) as [->|Hne].
    + injection Hl as <-. right. destruct p. left.
    + left. now apply IH.
Qed.

Lemma invert_lookup {K V} `{Countable K} `{Countable V} (d : gmap K V) k v :
  (forall k', d !! k' = Some v -> k' = k) ->
  d !! k = Some v -> Py.invert d !! v = Some k.
Proof.
  intros Hinj Hk. unfold Py.invert.
  apply elem_of_list_to_map_1'.
  - intros k' Hin. apply list_elem_of_fmap in Hin as ([k'' v'] & Heq & Hin).
    simpl in Heq. injection Heq as <- <-.
    apply elem_of_map_to_list in Hin. symmetry. now apply Hinj.
  - apply list_elem_of_fmap. exists (k, v). split; [reflexivity|].
    now apply elem_of_map_to_list.
Qed.

(** ** The index tables (lines 426-451) *)

Section Tables.

Variable all_team_list : list string.
Variable teams : list nat.
Hypothesis Hall : NoDup all_team_list.
Hypothesis Hteams : NoDup teams.
Hypothesis Hrange : Forall (fun t => (t < length all_team_list)%nat) teams.

Lemma network_team_ids_total :
  exists ids, Main.network_team_ids all_team_list teams = Some ids /\
              length ids = length teams /\ NoDup ids /\
              forall i t, teams !! i = Some t -> ids !! i = all_team_list !! t.
Proof.
  unfold Main.network_team_ids.
  destruct (mapM (fun x => all_team_list !! x) teams) as [ids|] eqn:E.
  - exists ids. split; [reflexivity|].
    pose proof E as HF. apply mapM_Some in HF.
    split; [symmetry; eapply Forall2_length; eassumption|].
    assert (Hl : forall i t, teams !! i = Some t -> ids !! i = all_team_list !! t).
    { intros i t Ht. destruct (Forall2_lookup_l _ _ _ _ _ HF Ht) as (y & Hy & Hf).
      congruence. }
    split; [|assumption].
    apply NoDup_alt. intros i j x Hi Hj.
    assert (Hli : (i < length teams)%nat).
    { erewrite Forall2_length by eassumption. eapply lookup_lt_Some; eassumption. }
    assert (Hlj : (j < length teams)%nat).
    { erewrite Forall2_length by eassumption. eapply lookup_lt_Some; eassumption. }
    destruct (lookup_lt_is_Some_2 _ _ Hli) as [ti Hti].
    destruct (lookup_lt_is_Some_2 _ _ Hlj) as [tj Htj].
    rewrite (Hl _ _ Hti) in Hi. rewrite (Hl _ _ Htj) in Hj.
    assert (ti = tj) by exact (NoDup_lookup all_team_list ti tj x Hall Hi Hj).
    subst tj. exact (NoDup_lookup teams i j ti Hteams Hti Htj).
  - exfalso. assert (Hs : is_Some (mapM (fun x => all_team_list !! x) teams)).
    { apply mapM_is_Some. eapply Forall_impl; [exact Hrange|].
      intros t Ht. now apply lookup_lt_is_Some_2. }
    rewrite E in Hs. destruct Hs; discriminate.
Qed.


Lemma id_to_index_lookups :
  exists d, Main.id_to_index all_team_list teams = Some d /\
    (forall i t id, teams !! i = Some t -> all_team_list !! t = Some id ->
       d !! id = Some i) /\
    (forall id i, d !! id = Some i ->
       exists t, teams !! i = Some t /\ all_team_list !! t = Some id).
Proof.
  destruct network_team_ids_total as (ids & Hids & Hlen & Hnd & Hl).
  unfold Main.id_to_index. rewrite Hids. simpl. eexists. split; [reflexivity|].
  set (L := (fun y : nat * string => (y.2, y.1)) <$> Py.enumerate ids).
  assert (HL : forall i, L !! i = (fun id => (id, i)) <$> ids !! i).
  { intros i. unfold L, Py.enumerate. rewrite list_lookup_fmap, list_lookup_imap.
    destruct (ids !! i); reflexivity. }
  assert (HL1 : L.*1 = ids).
  { apply list_eq. intros i. rewrite list_lookup_fmap, HL.
    destruct (ids !! i); reflexivity. }
  split.
  - intros i t id Ht Hid. apply (dict_lookup L i).
    + rewrite HL1. exact Hnd.
    + rewrite HL, (Hl _ _ Ht), Hid. reflexivity.
  - intros id i Hd. apply dict_lookup_inv in Hd.
    apply list_elem_of_lookup_1 in Hd as [j Hj]. rewrite HL in Hj.
    destruct (ids !! j) as [id'|] eqn:Hid; [|discriminate].
    injection Hj as -> ->.
    assert (Hlt : (i < length teams)%nat).
    { rewrite <- Hlen. eapply lookup_lt_Some; eassumption. }
    destruct (lookup_lt_is_Some_2 _ _ Hlt) as [t Ht].
    exists t. split; [assumption|]. rewrite <- (Hl _ _ Ht). exact Hid.
Qed.

Lemma id_to_all_index_lookups :
  exists d, Main.id_to_all_index all_team_list teams = Some d /\
    (forall t id, t ∈ teams -> all_team_list !! t = Some id -> d !! id = Some t) /\
    (forall id t, d !! id = Some t -> t ∈ teams /\ all_team_list !! t = Some id).
Proof.
  destruct network_team_ids_total as (ids & Hids & Hlen & Hnd & Hl).
  unfold Main.id_to_all_index.
  destruct (mapM (fun x => id ← all_team_list !! x; Some (id, x)) teams)
    as [pairs|] eqn:E.
  - simpl. eexists. split; [reflexivity|].
    pose proof E as HF. apply mapM_Some in HF.
    assert (HP : forall i t, teams !! i = Some t ->
                   pairs !! i = (fun id => (id, t)) <$> all_team_list !! t).
    { intros i t Ht. destruct (Forall2_lookup_l _ _ _ _ _ HF Ht) as (y & Hy & Hf).
      rewrite Hy. destruct (all_team_list !! t); simpl in Hf; [|discriminate].
      now injection Hf as <-. }
    assert (HP1 : pairs.*1 = ids).
    { apply list_eq. intros i. rewrite list_lookup_fmap.
      destruct (teams !! i) as [t|] eqn:Ht.
      - rewrite (HP _ _ Ht), (Hl _ _ Ht). destruct (all_team_list !! t); reflexivity.
      - apply lookup_ge_None in Ht.
        rewrite (lookup_ge_None_2 pairs), (lookup_ge_None_2 ids); [reflexivity| |].
        + lia.
        + rewrite <- (Forall2_length _ _ _ HF). exact Ht. }
    split.
    + intros t id Ht Hid. apply list_elem_of_lookup_1 in Ht as [i Hi].
      apply (dict_lookup pairs i).
      * rewrite HP1. exact Hnd.
      * rewrite (HP _ _ Hi), Hid. reflexivity.
    + intros id t Hd. apply dict_lookup_inv in Hd.
      apply list_elem_of_lookup_1 in Hd as [j Hj].
      assert (Hlt : (j < length teams)%nat).
      { rewrite (Forall2_length _ _ _ HF). eapply lookup_lt_Some; eassumption. }
      destruct (lookup_lt_is_Some_2 _ _ Hlt) as [t' Ht'].
      rewrite (HP _ _ Ht') in Hj.
      destruct (all_team_list !! t') as [id'|] eqn:Hid; [|discriminate].
      injection Hj as <- <-. split; [|assumption].
      eapply list_elem_of_lookup_2; eassumption.
  - exfalso.
    assert (Hs : is_Some (mapM (fun x => id ← all_team_list !! x; Some (id, x)) teams)).
    { apply mapM_is_Some. eapply Forall_impl; [exact Hrange|].
      intros t Ht. simpl. destruct (lookup_lt_is_Some_2 _ _ Ht) as [id ->]. simpl. eauto. }
    rewrite E in Hs. destruct Hs; discriminate.
Qed.

Lemma reverse_loop l : forall rev0,
  (forall t, t ∈ l -> t ∈ teams) ->
  Forall (fun t => (t < length rev0)%nat) l ->
  exists rev,
    for_each (fun reverse cur_team =>
                idx ← Py.index cur_team teams;
                Py.set_item reverse cur_team (Some idx)) l rev0 = Some rev /\
    length rev = length rev0 /\
    forall t, (t ∈ l -> forall i, teams !! i = Some t -> rev !! t = Some (Some i)) /\
              (t ∉ l -> rev !! t = rev0 !! t).
Proof.
  induction l as [|t0 l IH]; intros rev0 Hsub Hlt.
  - exists rev0. split; [reflexivity|]. split; [reflexivity|].
    intros t. split; [inversion 1|reflexivity].
  - apply Forall_cons_1 in Hlt as [Hlt0 Hlt].
    assert (Hin0 : t0 ∈ teams) by (apply Hsub; left).
    apply list_elem_of_lookup_1 in Hin0 as [i0 Hi0].
    assert (Hidx := index_of_lookup teams i0 t0 Hteams Hi0).
    destruct (IH (<[t0 := Some i0]> rev0)) as (rev & Hrev & Hlen & Hspec).
    { intros t Ht. apply Hsub. now right. }
    { eapply Forall_impl; [exact Hlt|]. intros t Ht. now rewrite length_insert. }
    exists rev. split.
    { cbn [for_each]. rewrite Hidx. simpl. unfold Py.set_item.
      rewrite decide_True by assumption. simpl. exact Hrev. }
    split; [now rewrite Hlen, length_insert|].
    intros t. destruct (Hspec t) as [Hin Hout]. split.
    + intros Ht i Hi. destruct (decide (t ∈ l)) as [Hl|Hl]; [now apply Hin|].
      apply elem_of_cons in Ht as [->|Ht]; [|contradiction].
      rewrite (Hout Hl), list_lookup_insert_eq by assumption.
      now rewrite (NoDup_lookup teams i i0 t0 Hteams Hi Hi0).
    + intros Ht. apply not_elem_of_cons in Ht as [Hne Ht].
      rewrite (Hout Ht). apply list_lookup_insert_ne. congruence.
Qed.

Lemma teams_in_network_reverse_lookups :
  exists rev, Main.teams_in_network_reverse all_team_list teams = Some rev /\
    length rev = length all_team_list /\
    (forall i t, teams !! i = Some t -> rev !! t = Some (Some i)) /\
    (forall t, (t < length all_team_list)%nat -> t ∉ teams -> rev !! t = Some None).
Proof.
  destruct (reverse_loop teams (replicate (length all_team_list) None))
    as (rev & Hrev & Hlen & Hspec).
  { auto. }
  { eapply Forall_impl; [exact Hrange|]. intros t Ht. now rewrite length_replicate. }
  exists rev. split; [exact Hrev|]. rewrite length_replicate in Hlen.
  split; [assumption|]. split.
  - intros i t Ht. apply (Hspec t); [|assumption].
    eapply list_elem_of_lookup_2; eassumption.
  - intros t Hlt Hout. rewrite (proj2 (Hspec t) Hout).
    now apply lookup_replicate_2.
Qed.

End Tables.

Lemma network_game_loop (teams hl al xs : list nat) : forall acc acc',
  for_each (fun acc x =>
              home ← hl !! x;
              if (0 <? Py.count home teams)%nat then
                away ← al !! x;
                Some (if (0 <? Py.count away teams)%nat then acc ++ [x] else acc)
              else Some acc) xs acc = Some acc' ->
  forall x, x ∈ acc' <->
    x ∈ acc \/ (x ∈ xs /\ exists h w, hl !! x = Some h /\ al !! x = Some w /\
                                      h ∈ teams /\ w ∈ teams).
Proof.
  induction xs as [|x0 xs IH]; intros acc acc' H x; cbn [for_each] in H.
  - injection H as <-. split; [auto|]. intros [?|[Hx _]]; [assumption|inversion Hx].
  - destruct (hl !! x0) as [h|] eqn:Hh; [|discriminate]. simpl in H.
    destruct (Nat.ltb_spec 0 (Py.count h teams)) as [Hc|Hc].
    + destruct (al !! x0) as [w|] eqn:Hw; [|discriminate]. simpl in H.
      rewrite (IH _ _ H x). rewrite elem_of_cons.
      destruct (Nat.ltb_spec 0 (Py.count w teams)) as [Hd|Hd].
      * rewrite elem_of_app, list_elem_of_singleton. split.
        -- intros [[?| ->]|[? ?]]; auto.
           right. split; [auto|]. exists h, w. rewrite <- !count_pos. auto.
        -- intros [?|[[-> |?] ?]]; auto.
      * split.
        -- intros [?|[? ?]]; auto.
        -- intros [?|[[-> |?] Hex]]; auto.
           destruct Hex as (h' & w' & Hh' & Hw' & _ & Hin).
           rewrite Hw in Hw'. injection Hw' as <-. apply count_pos in Hin. lia.
    + rewrite (IH _ _ H x). rewrite elem_of_cons. split.
      * intros [?|[? ?]]; auto.
      * intros [?|[[-> |?] Hex]]; auto.
        destruct Hex as (h' & w' & Hh' & _ & Hin & _).
        rewrite Hh in Hh'. injection Hh' as <-. apply count_pos in Hin. lia.
Qed.

Lemma network_game_id_list_spec (teams : list nat) n hl al ids :
  Main.network_game_id_list teams n hl al = Some ids ->
  forall x, x ∈ ids <->
    (x < n)%nat /\ exists h w, hl !! x = Some h /\ al !! x = Some w /\
                               h ∈ teams /\ w ∈ teams.
Proof.
  unfold Main.network_game_id_list. intros H x.
  rewrite (network_game_loop _ _ _ _ _ _ H x), elem_of_seq. split.
  - intros [Hx|[Hx Hex]]; [inversion Hx|]. split; [lia|assumption].
  - intros [Hx Hex]. right. split; [lia|assumption].
Qed.

(** X18.  The index tables agree with one another.  For a list of all
    teams without a duplicate and network teams that are distinct positions
    of it, the three tables are built, and for the team at position [i] of
    the network, at position [t] of the list of all teams: [id_to_all_index]
    maps its id to [t], [id_to_index] maps its id to [i],
    [teams_in_network_reverse] maps [t] to [i], and [index_to_id] maps [i]
    back to its id.  A team outside the network is in no dict and has [None]
    in [teams_in_network_reverse]. *)
Theorem index_tables_agree all_team_list teams :
  NoDup all_team_list -> NoDup teams ->
  Forall (fun t => (t < length all_team_list)%nat) teams ->
  exists d_all d_idx rev,
    Main.id_to_all_index all_team_list teams = Some d_all /\
    Main.id_to_index all_team_list teams = Some d_idx /\
    Main.teams_in_network_reverse all_team_list teams = Some rev /\
    length rev = length all_team_list /\
    (forall i t id, teams !! i = Some t -> all_team_list !! t = Some id ->
       d_all !! id = Some t /\ d_idx !! id = Some i /\ rev !! t = Some (Some i) /\
       Main.index_to_id d_idx !! i = Some id) /\
    (forall t id, (t < length all_team_list)%nat -> t ∉ teams ->
       all_team_list !! t = Some id ->
       d_all !! id = None /\ d_idx !! id = None /\ rev !! t = Some None).
Proof.
  intros Hall Hteams Hrange.
  destruct (id_to_all_index_lookups _ _ Hall Hteams Hrange) as (d_all & Ha & Ha1 & Ha2).
  destruct (id_to_index_lookups _ _ Hall Hteams Hrange) as (d_idx & Hi & Hi1 & Hi2).
  destruct (teams_in_network_reverse_lookups _ _ Hteams Hrange) as (rev & Hr & Hlen & Hr1 & Hr2).
  exists d_all, d_idx, rev. repeat (split; [assumption|]). split.
  - intros i t id Ht Hid. split; [|split; [|split]].
    + apply Ha1; [eapply list_elem_of_lookup_2; eassumption|assumption].
    + eapply Hi1; eassumption.
    + now apply Hr1.
    + apply invert_lookup; [|eapply Hi1; eassumption].
      intros id' Hd. destruct (Hi2 _ _ Hd) as (t' & Ht' & Hid').
      rewrite Ht in Ht'. injection Ht' as <-. congruence.
  - intros t id Hlt Hout Hid. split; [|split].
    + destruct (d_all !! id) as [t'|] eqn:Hd; [|reflexivity].
      destruct (Ha2 _ _ Hd) as [Hin Hid'].
      rewrite (NoDup_lookup all_team_list t t' id Hall Hid Hid') in Hout. contradiction.
    + destruct (d_idx !! id) as [i|] eqn:Hd; [|reflexivity].
      destruct (Hi2 _ _ Hd) as (t' & Ht' & Hid').
      rewrite (NoDup_lookup all_team_list t t' id Hall Hid Hid') in Hout.
      exfalso. apply Hout. eapply list_elem_of_lookup_2; eassumption.
    + now apply Hr2.
Qed.

(** X19.  With the tables that [main] builds, every game that it hands to
    the attempts finds its teams: the four dict lookups of lines 72-75
    succeed, [id_to_all_index] gives the position of the team in the list of
    all teams, and the index that the optimizer reads from [id_to_index] is
    the index that the calibration reads from [teams_in_network_reverse], a
    position of the rating arrays. *)
Theorem network_games_find_their_teams all_team_list a m id :
  NoDup all_team_list -> NoDup (teams_in_network a) ->
  Forall (fun t => (t < length all_team_list)%nat) (teams_in_network a) ->
  built_by_main all_team_list a m ->
  id ∈ network_game_id_list a ->
  exists hid aid h w hi ai,
    input_games_home_id a !! id = Some hid /\
    input_games_away_id a !! id = Some aid /\
    input_games_home_listid a !! id = Some h /\
    input_games_away_listid a !! id = Some w /\
    id_to_all_index a !! hid = Some h /\ id_to_all_index a !! aid = Some w /\
    id_to_index a !! hid = Some hi /\ id_to_index a !! aid = Some ai /\
    teams_in_network_reverse m !! h = Some (Some hi) /\
    teams_in_network_reverse m !! w = Some (Some ai) /\
    (hi < length (teams_in_network a))%nat /\ (ai < length (teams_in_network a))%nat.
Proof.
  intros Hall Hteams Hrange (Hhl & Hal & Hda & Hdi & Hnet & Hrev) Hin.
  destruct (id_to_all_index_lookups _ _ Hall Hteams Hrange) as (d_all & Hda' & Ha1 & _).
  destruct (id_to_index_lookups _ _ Hall Hteams Hrange) as (d_idx & Hdi' & Hi1 & _).
  destruct (teams_in_network_reverse_lookups _ _ Hteams Hrange)
    as (rev & Hrev' & _ & Hr1 & _).
  rewrite Hda in Hda'. injection Hda' as <-.
  rewrite Hdi in Hdi'. injection Hdi' as <-.
  rewrite Hrev in Hrev'. injection Hrev' as <-.
  apply (network_game_id_list_spec _ _ _ _ _ Hnet) in Hin
    as (_ & h & w & Hh & Hw & Hhin & Hwin).
  apply mapM_Some in Hhl, Hal.
  destruct (Forall2_lookup_r _ _ _ _ _ Hhl Hh) as (hid & Hhid & Hhidx).
  destruct (Forall2_lookup_r _ _ _ _ _ Hal Hw) as (aid & Haid & Haidx).
  apply index_lookup in Hhidx, Haidx.
  pose proof (Ha1 _ _ Hhin Hhidx) as H1. pose proof (Ha1 _ _ Hwin Haidx) as H4.
  apply list_elem_of_lookup_1 in Hhin as [hi Hhi], Hwin as [ai Hai].
  exists hid, aid, h, w, hi, ai.
  repeat (split; [assumption|]).
  split; [eapply Hi1; eassumption|]. split; [eapply Hi1; eassumption|].
  split; [now apply Hr1|]. split; [now apply Hr1|].
  split; eapply lookup_lt_Some; eassumption.
Qed.

(** ** The list of all teams (line 371) *)

(** X20.  When teams are matched by name, the list of all teams is sorted,
    has no duplicate and holds exactly the teams of the loaded games; so
    [all_team_list.index] finds every home and away team, and the list id of
    a game points back to its team. *)
Theorem team_list_by_name_indexes_every_game home away :
  NoDup (Main.all_team_list home away) /\
  Sorted String.le (Main.all_team_list home away) /\
  (forall x, x ∈ Main.all_team_list home away <-> x ∈ home \/ x ∈ away) /\
  exists hl al,
    Main.input_games_listid (Main.all_team_list home away) home = Some hl /\
    Main.input_games_listid (Main.all_team_list home away) away = Some al /\
    (forall k h, hl !! k = Some h -> Main.all_team_list home away !! h = home !! k) /\
    (forall k w, al !! k = Some w -> Main.all_team_list home away !! w = away !! k).
Proof.
  set (all := Main.all_team_list home away).
  assert (Hperm : all ≡ₚ remove_dups (home ++ away))
    by apply merge_sort_Permutation.
  assert (Hnd : NoDup all) by (rewrite Hperm; apply NoDup_remove_dups).
  assert (Hin : forall x, x ∈ all <-> x ∈ home \/ x ∈ away).
  { intros x. rewrite Hperm, elem_of_remove_dups. apply elem_of_app. }
  assert (Hidx : forall ids, (forall x, x ∈ ids -> x ∈ all) ->
            exists l, Main.input_games_listid all ids = Some l /\
                      forall k h, l !! k = Some h -> all !! h = ids !! k).
  { intros ids Hsub. unfold Main.input_games_listid.
    destruct (mapM (fun x => Py.index x all) ids) as [l|] eqn:E.
    - exists l. split; [reflexivity|]. intros k h Hk.
      apply mapM_Some in E.
      destruct (Forall2_lookup_r _ _ _ _ _ E Hk) as (x & Hx & Hi).
      rewrite Hx. now apply index_lookup.
    - exfalso. assert (Hs : is_Some (mapM (fun x => Py.index x all) ids)).
      { apply mapM_is_Some. apply Forall_forall. intros x Hx.
        apply index_is_Some. now apply Hsub. }
      rewrite E in Hs. destruct Hs; discriminate. }
  split; [assumption|]. split; [apply Sorted_merge_sort; apply _|].
  split; [assumption|].
  destruct (Hidx home) as (hl & Hhl & Hh); [intros x Hx; apply Hin; now left|].
  destruct (Hidx away) as (al & Hal & Ha); [intros x Hx; apply Hin; now right|].
  exists hl, al. auto.
Qed.

Lemma insert_by_name_Permutation {A} (x : string * A) l :
  Py.insert_by_name x l ≡ₚ x :: l.
Proof.
  induction l as [|y l IH]; simpl; [reflexivity|].
  destruct (String.leb x.1 y.1); [reflexivity|].
  rewrite IH. apply Permutation_swap.
Qed.

Lemma sorted_by_name_Permutation {A} (l : list (string * A)) :
  Py.sorted_by_name l ≡ₚ l.
Proof.
  induction l as [|x l IH]; simpl; [reflexivity|].
  now rewrite insert_by_name_Permutation, IH.
Qed.

Lemma link_team_keys links id name :
  NoDup links.*1 ->
  NoDup (Main.link_team links id name).*1 /\
  id ∈ (Main.link_team links id name).*1 /\
  forall x, x ∈ links.*1 -> x ∈ (Main.link_team links id name).*1.
Proof.
  intros Hnd. unfold Main.link_team.
  destruct (decide (id ∈ links.*1)) as [Hin|Hout]; [auto|].
  rewrite fmap_app. simpl. split; [|split].
  - apply NoDup_app. split; [assumption|]. split; [|apply NoDup_singleton].
    intros x Hx Hx'. apply list_elem_of_singleton in Hx'. subst. contradiction.
  - apply elem_of_app. right. left.
  - intros x Hx. apply elem_of_app. now left.
Qed.

Lemma link_games_keys cur_season games : forall links,
  NoDup links.*1 ->
  NoDup (Main.link_games cur_season games links).*1 /\
  (forall x, x ∈ links.*1 -> x ∈ (Main.link_games cur_season games links).*1) /\
  forall g, g ∈ games -> game_season g = cur_season ->
    game_home_id g ∈ (Main.link_games cur_season games links).*1 /\
    game_away_id g ∈ (Main.link_games cur_season games links).*1.
Proof.
  unfold Main.link_games.
  induction games as [|g0 games IH]; intros links Hnd; simpl.
  - split; [assumption|]. split; [auto|]. intros g Hg. inversion Hg.
  - set (links1 := if (cur_season =? game_season g0)%Z
                   then Main.link_team
                          (Main.link_team links (game_home_id g0) (game_home_name g0))
                          (game_away_id g0) (game_away_name g0)
                   else links).
    assert (H1 : NoDup links1.*1 /\
                 (forall x, x ∈ links.*1 -> x ∈ links1.*1) /\
                 (game_season g0 = cur_season ->
                  game_home_id g0 ∈ links1.*1 /\ game_away_id g0 ∈ links1.*1)).
    { unfold links1. destruct (Z.eqb_spec cur_season (game_season g0)) as [E|E].
      - destruct (link_team_keys links (game_home_id g0) (game_home_name g0) Hnd)
          as (N1 & I1 & S1).
        destruct (link_team_keys _ (game_away_id g0) (game_away_name g0) N1)
          as (N2 & I2 & S2).
        split; [assumption|]. split; [auto|]. auto.
      - split; [assumption|]. split; [auto|]. intros E'. congruence. }
    destruct H1 as (N1 & S1 & G1).
    destruct (IH links1 N1) as (N & S & G).
    split; [assumption|]. split; [auto|].
    intros g Hg Hs. apply elem_of_cons in Hg as [->|Hg].
    + destruct (G1 Hs). auto.
    + now apply G.
Qed.

Lemma team_id_name_links_keys seasons played unplayed : forall links,
  NoDup links.*1 ->
  let result :=
    foldl (fun links cur_season =>
             Main.link_games cur_season unplayed
               (Main.link_games cur_season played links)) links seasons in
  NoDup result.*1 /\
  (forall x, x ∈ links.*1 -> x ∈ result.*1) /\
  forall g, g ∈ played -> game_season g ∈ seasons ->
    game_home_id g ∈ result.*1 /\ game_away_id g ∈ result.*1.
Proof.
  induction seasons as [|s seasons IH]; intros links Hnd; simpl.
  - split; [assumption|]. split; [auto|]. intros g _ Hs. inversion Hs.
  - destruct (link_games_keys s played links Hnd) as (N1 & S1 & G1).
    destruct (link_games_keys s unplayed _ N1) as (N2 & S2 & _).
    destruct (IH _ N2) as (N & S & G).
    split; [assumption|]. split; [auto|].
    intros g Hg Hs. apply elem_of_cons in Hs as [Hs|Hs].
    + destruct (G1 g Hg Hs). auto.
    + now apply G.
Qed.

Lemma range_down_elem start stop s :
  (stop <= s <= start)%Z -> s ∈ Py.range_down start stop.
Proof.
  intros Hs. unfold Py.range_down. apply list_elem_of_fmap.
  exists (Z.to_nat (start - s)). split; [lia|]. apply elem_of_seq. lia.
Qed.

(** X27.  When teams are matched by id, the list of all teams has no
    duplicate, and for played games whose seasons lie between the earliest
    season and the season to rank it holds the home and the away team of
    every game: [all_team_list.index] finds them, and the list id of a game
    points back to its team. *)
Theorem team_list_by_id_indexes_every_game season_to_rank earliest_season
    played unplayed :
  Forall (fun g => (earliest_season <= game_season g <= season_to_rank)%Z) played ->
  let all_team_list :=
    Main.all_team_list_by_id season_to_rank earliest_season played unplayed in
  NoDup all_team_list /\
  exists hl al,
    Main.input_games_listid all_team_list (game_home_id <$> played) = Some hl /\
    Main.input_games_listid all_team_list (game_away_id <$> played) = Some al /\
    (forall k h, hl !! k = Some h ->
       all_team_list !! h = game_home_id <$> played !! k) /\
    (forall k w, al !! k = Some w ->
       all_team_list !! w = game_away_id <$> played !! k).
Proof.
  intros Hwin all.
  set (links := Main.team_id_name_links season_to_rank earliest_season played unplayed).
  destruct (team_id_name_links_keys
              (Py.range_down season_to_rank earliest_season) played unplayed []
              (NoDup_nil_2)) as (Hnd & _ & Hg).
  fold (Main.team_id_name_links season_to_rank earliest_season played unplayed) in Hnd, Hg.
  fold links in Hnd, Hg.
  assert (Hperm : all ≡ₚ links.*1).
  { unfold all, Main.all_team_list_by_id. fold links.
    rewrite sorted_by_name_Permutation.
    apply eq_subrelation; [apply _|].
    rewrite <- list_fmap_compose. apply list_fmap_ext. now intros i [a b]. }
  assert (Hall : NoDup all) by (rewrite Hperm; exact Hnd).
  assert (Hin : forall g, g ∈ played -> game_home_id g ∈ all /\ game_away_id g ∈ all).
  { intros g Hgp. rewrite Hperm. apply Hg; [assumption|].
    apply range_down_elem. exact (proj1 (Forall_forall _ _) Hwin g Hgp). }
  assert (Hidx : forall ids, (forall x, x ∈ ids -> x ∈ all) ->
            exists l, Main.input_games_listid all ids = Some l /\
                      forall k h, l !! k = Some h -> all !! h = ids !! k).
  { intros ids Hsub. unfold Main.input_games_listid.
    destruct (mapM (fun x => Py.index x all) ids) as [l|] eqn:E.
    - exists l. split; [reflexivity|]. intros k h Hk.
      apply mapM_Some in E.
      destruct (Forall2_lookup_r _ _ _ _ _ E Hk) as (x & Hx & Hi).
      rewrite Hx. now apply index_lookup.
    - exfalso. assert (Hs : is_Some (mapM (fun x => Py.index x all) ids)).
      { apply mapM_is_Some. apply Forall_forall. intros x Hx.
        apply index_is_Some. now apply Hsub. }
      rewrite E in Hs. destruct Hs; discriminate. }
  split; [assumption|].
  destruct (Hidx (game_home_id <$> played)) as (hl & Hhl & Hh).
  { intros x Hx. apply list_elem_of_fmap in Hx as (g & -> & Hgp). now apply Hin. }
  destruct (Hidx (game_away_id <$> played)) as (al & Hal & Ha).
  { intros x Hx. apply list_elem_of_fmap in Hx as (g & -> & Hgp). now apply Hin. }
  exists hl, al. split; [assumption|]. split; [assumption|]. split.
  - intros k h Hk. rewrite (Hh k h Hk). apply list_lookup_fmap.
  - intros k w Hk. rewrite (Ha k w Hk). apply list_lookup_fmap.
Qed.

(** ** The adjustment scale (lines 444-446) *)

(** X21.  For a standard deviation of the margins that is not negative the
    adjustment scale is positive and at most 100, so the attempts never
    divide by a scale of 0; the cap of 100 applies exactly up to a standard
    deviation of 27/5, beyond which the scale is 540 over the standard
    deviation. *)
Theorem adjustment_scale_is_positive_and_capped stdev :
  0 <= stdev ->
  0 < Main.rating_adjustment_scale stdev /\
  Main.rating_adjustment_scale stdev <= 100 /\
  (stdev <= 27 # 5 -> Main.rating_adjustment_scale stdev == 100) /\
  (27 # 5 <= stdev -> Main.rating_adjustment_scale stdev == 540 / stdev).
Proof.
  intros Hs. unfold Main.rating_adjustment_scale.
  destruct (Qeq_bool_reflect stdev 0) as [H0|H0].
  - repeat split; try reflexivity; try discriminate. intros H. lra.
  - assert (Hpos : 0 < stdev) by lra.
    assert (Hsc : 20 * (27 / stdev) == 540 / stdev) by (field; lra).
    assert (Hsp : 0 < 540 / stdev) by (apply Qlt_shift_div_l; lra).
    destruct (Qlt_bool 100 (20 * (27 / stdev))) eqn:Hlt.
    + apply Qlt_bool_iff in Hlt. rewrite Hsc in Hlt.
      repeat split; try reflexivity; try discriminate.
      intros Hge. exfalso.
      assert (540 / stdev <= 100); [|lra].
      apply Qle_shift_div_r; lra.
    + apply Qlt_bool_false in Hlt. rewrite Hsc in *.
      split; [assumption|]. split; [lra|]. split; [|reflexivity].
      intros Hle. assert (100 <= 540 / stdev); [|lra].
      apply Qle_shift_div_l; lra.
Qed.

(** ** The medians over the attempts (lines 470-476) *)

Lemma insert_number_Permutation x l : Py.insert_number x l ≡ₚ x :: l.
Proof.
  induction l as [|y l IH]; simpl; [reflexivity|].
  destruct (Qle_bool x y); [reflexivity|].
  rewrite IH. apply Permutation_swap.
Qed.

Lemma np_sort_Permutation l : Py.np_sort l ≡ₚ l.
Proof.
  induction l as [|x l IH]; simpl; [reflexivity|].
  now rewrite insert_number_Permutation, IH.
Qed.

Lemma np_median_between l lo hi :
  l <> [] -> Forall (fun x => lo <= x /\ x <= hi) l ->
  exists med, Py.np_median l = Some med /\ lo <= med /\ med <= hi.
Proof.
  intros Hne Hall. unfold Py.np_median.
  assert (Hlen : length (Py.np_sort l) = length l)
    by (apply Permutation_length, np_sort_Permutation).
  assert (Hs : Forall (fun x => lo <= x /\ x <= hi) (Py.np_sort l))
    by (rewrite np_sort_Permutation; exact Hall).
  assert (Hpos : (0 < length l)%nat) by (destruct l; [contradiction|simpl; lia]).
  destruct (Nat.eqb_spec (length l) 0) as [H0|_]; [lia|].
  assert (Hhalf : (length l / 2 < length l)%nat) by (apply Nat.div_lt; lia).
  destruct (Nat.odd (length l)) eqn:Hodd.
  - destruct (lookup_lt_is_Some_2 (Py.np_sort l) (length l / 2)) as [x Hx]; [lia|].
    exists x. split; [assumption|]. exact (Forall_lookup_1 _ _ _ _ Hs Hx).
  - destruct (lookup_lt_is_Some_2 (Py.np_sort l) (length l / 2 - 1)) as [x Hx]; [lia|].
    destruct (lookup_lt_is_Some_2 (Py.np_sort l) (length l / 2)) as [y Hy]; [lia|].
    rewrite Hx, Hy. simpl. eexists. split; [reflexivity|].
    pose proof (Forall_lookup_1 _ _ _ _ Hs Hx) as [H1 H2].
    pose proof (Forall_lookup_1 _ _ _ _ Hs Hy) as [H3 H4].
    split.
    + apply Qle_shift_div_l; lra.
    + apply Qle_shift_div_r; lra.
Qed.

Lemma np_median_is_Some l : l <> [] -> is_Some (Py.np_median l).
Proof.
  intros Hne. unfold Py.np_median.
  assert (Hlen : length (Py.np_sort l) = length l)
    by (apply Permutation_length, np_sort_Permutation).
  assert (Hpos : (0 < length l)%nat) by (destruct l; [contradiction|simpl; lia]).
  destruct (Nat.eqb_spec (length l) 0) as [H0|_]; [lia|].
  assert (Hhalf : (length l / 2 < length l)%nat) by (apply Nat.div_lt; lia).
  destruct (Nat.odd (length l)).
  - apply lookup_lt_is_Some_2. lia.
  - destruct (lookup_lt_is_Some_2 (Py.np_sort l) (length l / 2 - 1)) as [x Hx]; [lia|].
    destruct (lookup_lt_is_Some_2 (Py.np_sort l) (length l / 2)) as [y Hy]; [lia|].
    rewrite Hx, Hy. simpl. eauto.
Qed.

Lemma mapM_seq_lookup {A} (f : nat -> option A) (l : list A) :
  (forall j, (j < length l)%nat -> f j = l !! j) ->
  mapM f (seq 0 (length l)) = Some l.
Proof.
  intros Hf. apply mapM_Some. apply Forall2_same_length_lookup. split.
  - now rewrite length_seq.
  - intros i j y Hj Hy. apply lookup_seq in Hj as [-> Hlt]. simpl.
    rewrite Hf by assumption. exact Hy.
Qed.

(** X22.  With a single rating attempt the medians are the ratings of
    that attempt. *)
Theorem median_of_one_attempt_is_the_attempt r :
  Py.np_median_axis0 [r] = Some r.
Proof.
  unfold Py.np_median_axis0. simpl. rewrite Nat.eqb_refl. simpl.
  apply mapM_seq_lookup. intros j Hj.
  destruct (lookup_lt_is_Some_2 r j Hj) as [x Hx]. rewrite Hx. reflexivity.
Qed.

(** X23.  For attempts that return arrays of one length the medians
    exist, one per team, and the median of a team lies between every lower
    and every upper bound of the ratings that the attempts gave to it. *)
Theorem median_lies_between_the_attempts row0 rows :
  Forall (fun row => length row = length row0) rows ->
  exists med,
    Py.np_median_axis0 (row0 :: rows) = Some med /\
    length med = length row0 /\
    forall j mj lo hi,
      med !! j = Some mj ->
      (forall row x, row ∈ row0 :: rows -> row !! j = Some x -> lo <= x /\ x <= hi) ->
      lo <= mj /\ mj <= hi.
Proof.
  intros Hlen.
  assert (Hlen' : Forall (fun row => length row = length row0) (row0 :: rows))
    by (constructor; [reflexivity|assumption]).
  assert (Hcol : forall j, (j < length row0)%nat ->
            exists col, mapM (fun row => row !! j) (row0 :: rows) = Some col /\
                        col <> [] /\
                        forall x, x ∈ col -> exists row, row ∈ row0 :: rows /\ row !! j = Some x).
  { intros j Hj.
    destruct (mapM (fun row => row !! j) (row0 :: rows)) as [col|] eqn:E.
    - exists col. split; [reflexivity|]. apply mapM_Some in E. split.
      + intros ->. inversion E.
      + intros x Hx. apply list_elem_of_lookup_1 in Hx as [i Hi].
        destruct (Forall2_lookup_r _ _ _ _ _ E Hi) as (row & Hrow & Hr).
        exists row. split; [|assumption]. eapply list_elem_of_lookup_2; eassumption.
    - exfalso. assert (Hs : is_Some (mapM (fun row : list Q => row !! j) (row0 :: rows))).
      { apply mapM_is_Some. eapply Forall_impl; [exact Hlen'|].
        intros row Hr. simpl in *. apply lookup_lt_is_Some_2. lia. }
      rewrite E in Hs. destruct Hs; discriminate. }
  unfold Py.np_median_axis0.
  assert (Hall : forallb (fun row => (length row =? length row0)%nat) (row0 :: rows) = true).
  { apply forallb_forall. intros row Hin. apply Nat.eqb_eq.
    apply list_elem_of_In in Hin. exact (proj1 (Forall_forall _ _) Hlen' row Hin). }
  rewrite Hall.
  destruct (mapM _ (seq 0 (length row0))) as [med|] eqn:E.
  - exists med. split; [reflexivity|]. apply mapM_Some in E.
    split; [rewrite <- (Forall2_length _ _ _ E); apply length_seq|].
    intros j mj lo hi Hmj Hb.
    destruct (Forall2_lookup_r _ _ _ _ _ E Hmj) as (j' & Hj' & Hm).
    apply lookup_seq in Hj' as [-> Hlt]. cbv beta in Hm. rewrite Nat.add_0_l in Hm.
    destruct (Hcol j Hlt) as (col & Hc & Hne & Hin). rewrite Hc in Hm. simpl in Hm.
    destruct (np_median_between col lo hi Hne) as (med' & Hmed & Hbounds).
    { apply Forall_forall. intros x Hx. destruct (Hin x Hx) as (row & Hrow & Hr).
      eapply Hb; eassumption. }
    rewrite Hm in Hmed. injection Hmed as <-. exact Hbounds.
  - exfalso.
    assert (Hs : is_Some (mapM (fun j => column ← mapM (fun row : list Q => row !! j) (row0 :: rows);
                                         Py.np_median column) (seq 0 (length row0)))).
    { apply mapM_is_Some. apply Forall_forall. intros j Hj.
      apply elem_of_seq in Hj. unfold compose.
      destruct (Hcol j) as (col & Hc & Hne & Hin); [lia|]. rewrite Hc. simpl.
      now apply np_median_is_Some. }
    rewrite E in Hs. destruct Hs; discriminate.
Qed.

(** ** The ranking (lines 598-610) *)

Lemma insert_by_key_Permutation {A} (x : A * Q) l :
  Py.insert_by_key_reverse x l ≡ₚ x :: l.
Proof.
  induction l as [|y l IH]; simpl; [reflexivity|].
  destruct (Qlt_bool x.2 y.2); [|reflexivity].
  rewrite IH. apply Permutation_swap.
Qed.

Lemma sorted_by_key_Permutation {A} (l : list (A * Q)) :
  Py.sorted_by_key_reverse l ≡ₚ l.
Proof.
  induction l as [|x l IH]; simpl; [reflexivity|].
  now rewrite insert_by_key_Permutation, IH.
Qed.

Lemma insert_by_key_sorted {A} (x : A * Q) l :
  StronglySorted (fun u v : A * Q => v.2 <= u.2) l ->
  StronglySorted (fun u v : A * Q => v.2 <= u.2) (Py.insert_by_key_reverse x l).
Proof.
  induction 1 as [|y l Hs IH Hy]; simpl.
  - repeat constructor.
  - destruct (Qlt_bool x.2 y.2) eqn:Hlt.
    + apply Qlt_bool_iff in Hlt. constructor; [assumption|].
      rewrite insert_by_key_Permutation. constructor; [lra|assumption].
    + apply Qlt_bool_false in Hlt. constructor; [now constructor|].
      constructor; [lra|].
      eapply Forall_impl; [exact Hy|]. intros z Hz. simpl in *. lra.
Qed.

Lemma sorted_by_key_sorted {A} (l : list (A * Q)) :
  StronglySorted (fun u v : A * Q => v.2 <= u.2) (Py.sorted_by_key_reverse l).
Proof.
  induction l as [|x l IH]; simpl; [constructor|now apply insert_by_key_sorted].
Qed.

Lemma StronglySorted_lookup {A} (R : A -> A -> Prop) l :
  StronglySorted R l ->
  forall i j x y, (i < j)%nat -> l !! i = Some x -> l !! j = Some y -> R x y.
Proof.
  induction 1 as [|z l Hs IH Hz]; intros i j x y Hlt Hi Hj; [destruct i; discriminate|].
  destruct j as [|j]; [lia|]. simpl in Hj.
  destruct i as [|i]; simpl in Hi.
  - injection Hi as <-. eapply Forall_lookup_1; eassumption.
  - eapply (IH i j); [lia|eassumption..].
Qed.

(** X24.  The rows that are written for the teams: the ranks are 1 to the
    number of teams in this order, every index of the rating arrays occurs
    once and no team id twice, the id of a row is the id of the team at its
    index, the rating of a row is the median rating at its index, and a team
    with a better rank never has a lower rating. *)
Theorem ranked_output_is_ordered_and_complete all_team_list teams ratings rev d_idx :
  NoDup all_team_list -> NoDup teams ->
  Forall (fun t => (t < length all_team_list)%nat) teams ->
  length teams = length ratings ->
  Main.teams_in_network_reverse all_team_list teams = Some rev ->
  Main.id_to_index all_team_list teams = Some d_idx ->
  exists out,
    Main.team_ratings_output rev (Main.index_to_id d_idx) ratings
      (Main.team_rating_list teams ratings) = Some out /\
    out.*1.*1.*1 = seq 1 (length teams) /\
    out.*1.*2 ≡ₚ seq 0 (length teams) /\
    NoDup out.*1.*1.*2 /\
    (forall k rank id idx rating, out !! k = Some (rank, id, idx, rating) ->
       ratings !! idx = Some rating /\
       exists t, teams !! idx = Some t /\ all_team_list !! t = Some id) /\
    (forall i j rank_i rank_j id_i id_j idx_i idx_j rating_i rating_j,
       out !! i = Some (rank_i, id_i, idx_i, rating_i) ->
       out !! j = Some (rank_j, id_j, idx_j, rating_j) ->
       (rank_i < rank_j)%nat -> rating_j <= rating_i).
Proof.
  intros Hall Hnd Hrange Hlen Hrev Hdi.
  destruct (teams_in_network_reverse_lookups all_team_list teams Hnd Hrange)
    as (rev' & Hrev' & _ & Hpos & _).
  rewrite Hrev in Hrev'. injection Hrev' as <-.
  destruct (id_to_index_lookups all_team_list teams Hall Hnd Hrange)
    as (d & Hd & Hi1 & Hi2).
  rewrite Hdi in Hd. injection Hd as <-.
  assert (Hname : forall p t, teams !! p = Some t ->
            exists id, all_team_list !! t = Some id /\
                       Main.index_to_id d_idx !! p = Some id).
  { intros p t Hp.
    assert (Hlt : (t < length all_team_list)%nat)
      by exact (Forall_lookup_1 _ _ _ _ Hrange Hp).
    destruct (lookup_lt_is_Some_2 _ _ Hlt) as [id Hid].
    exists id. split; [assumption|].
    apply invert_lookup; [|eapply Hi1; eassumption].
    intros id' Hd. destruct (Hi2 _ _ Hd) as (t' & Ht' & Hid').
    rewrite Hp in Ht'. injection Ht' as <-. congruence. }
  set (S0 := Py.sorted_by_key_reverse (zip teams ratings)).
  assert (Hperm : S0 ≡ₚ zip teams ratings) by apply sorted_by_key_Permutation.
  assert (HlenS : length S0 = length teams) by (rewrite Hperm, length_zip; lia).
  set (L := Main.team_rating_list teams ratings).
  assert (HL : forall i, L !! i = (fun p : nat * Q => (S i, p.1)) <$> S0 !! i).
  { intros i. unfold L, Main.team_rating_list, Py.enumerate.
    rewrite list_lookup_fmap, list_lookup_imap. fold S0.
    destruct (S0 !! i); reflexivity. }
  assert (Hrow : forall i t q, S0 !! i = Some (t, q) ->
            exists p, teams !! p = Some t /\ ratings !! p = Some q /\
                      rev !! t = Some (Some p)).
  { intros i t q Hi. apply list_elem_of_lookup_2 in Hi. rewrite Hperm in Hi.
    apply list_elem_of_lookup_1 in Hi as [p Hp].
    apply lookup_zip_with_Some in Hp as (t' & q' & Heq & Ht' & Hq').
    injection Heq as <- <-. exists p. auto. }
  set (body := fun team_rank_row : nat * nat =>
                 team_idx ← mjoin (rev !! team_rank_row.2);
                 team_id ← Main.index_to_id d_idx !! team_idx;
                 rating ← ratings !! team_idx;
                 Some (team_rank_row.1, team_id, team_idx, rating)).
  assert (Hbody : forall i t q p id, S0 !! i = Some (t, q) -> teams !! p = Some t ->
            all_team_list !! t = Some id ->
            body (S i, t) = Some (S i, id, p, q)).
  { intros i t q p id Hi Hp Hid. destruct (Hrow _ _ _ Hi) as (p' & Hp' & Hq' & Hr').
    rewrite (NoDup_lookup teams p p' t Hnd Hp Hp').
    destruct (Hname _ _ Hp') as (id' & Hid' & Hinv).
    rewrite Hid in Hid'. injection Hid' as <-.
    unfold body. simpl. rewrite Hr'. simpl. rewrite Hinv. simpl.
    rewrite Hq'. reflexivity. }
  unfold Main.team_ratings_output. fold L. fold body.
  destruct (mapM body L) as [out|] eqn:E.
  - exists out. split; [reflexivity|]. apply mapM_Some in E.
    assert (Hout : forall k row, out !! k = Some row ->
              exists t q p id, S0 !! k = Some (t, q) /\ teams !! p = Some t /\
                ratings !! p = Some q /\ all_team_list !! t = Some id /\
                row = (S k, id, p, q)).
    { intros k row Hk. destruct (Forall2_lookup_r _ _ _ _ _ E Hk) as (r & Hr & Hb).
      rewrite HL in Hr. destruct (S0 !! k) as [[t q]|] eqn:Sk; [|discriminate].
      injection Hr as <-. destruct (Hrow _ _ _ Sk) as (p & Hp & Hq & _).
      destruct (Hname _ _ Hp) as (id & Hid & _).
      simpl in Hb. rewrite (Hbody _ _ _ _ _ Sk Hp Hid) in Hb. injection Hb as <-.
      exists t, q, p, id. auto. }
    assert (HlenO : length out = length teams).
    { rewrite <- (Forall2_length _ _ _ E). unfold L, Main.team_rating_list.
      rewrite length_fmap. unfold Py.enumerate. rewrite length_imap. exact HlenS. }
    assert (Hidx : out.*1.*2 ≡ₚ seq 0 (length teams)).
    { set (pos := fun t : nat => default 0%nat (mjoin (rev !! t))).
      assert (E1 : out.*1.*2 = pos <$> S0.*1).
      { apply list_eq. intros k. rewrite !list_lookup_fmap.
        destruct (out !! k) as [row|] eqn:Hk; simpl.
        - destruct (Hout _ _ Hk) as (t & q & p & id & Sk & Hp & _ & _ & ->).
          rewrite Sk. simpl. unfold pos. rewrite (Hpos _ _ Hp). reflexivity.
        - apply lookup_ge_None in Hk. rewrite HlenO, <- HlenS in Hk.
          apply lookup_ge_None in Hk. rewrite Hk. reflexivity. }
      assert (E2 : pos <$> teams = seq 0 (length teams)).
      { apply list_eq. intros k. rewrite list_lookup_fmap.
        destruct (teams !! k) as [t|] eqn:Hk; simpl.
        - unfold pos. rewrite (Hpos _ _ Hk). simpl. symmetry.
          apply lookup_seq. split; [reflexivity|]. eapply lookup_lt_Some; eassumption.
        - symmetry. apply lookup_ge_None. rewrite length_seq.
          now apply lookup_ge_None. }
      rewrite E1, <- E2, Hperm, fst_zip by lia. reflexivity. }
    split; [|split; [exact Hidx|split; [|split]]].
    + apply list_eq. intros k. rewrite !list_lookup_fmap.
      destruct (out !! k) as [row|] eqn:Hk; simpl.
      * destruct (Hout _ _ Hk) as (t & q & p & id & _ & _ & _ & _ & ->). simpl.
        symmetry. apply lookup_seq. split; [lia|].
        rewrite <- HlenO. eapply lookup_lt_Some; eassumption.
      * symmetry. apply lookup_ge_None. rewrite length_seq, <- HlenO.
        now apply lookup_ge_None.
    + assert (Hndi : NoDup out.*1.*2) by (rewrite Hidx; apply NoDup_seq).
      apply NoDup_alt. intros i j id Hi Hj.
      rewrite !list_lookup_fmap in Hi, Hj.
      destruct (out !! i) as [ri|] eqn:Oi; [|discriminate].
      destruct (out !! j) as [rj|] eqn:Oj; [|discriminate].
      destruct (Hout _ _ Oi) as (ti & qi & pi & idi & _ & Hpi & _ & Hidi & ->).
      destruct (Hout _ _ Oj) as (tj & qj & pj & idj & _ & Hpj & _ & Hidj & ->).
      simpl in Hi, Hj. injection Hi as ->. injection Hj as ->.
      assert (ti = tj) by exact (NoDup_lookup all_team_list ti tj id Hall Hidi Hidj).
      subst tj.
      assert (pi = pj) by exact (NoDup_lookup teams pi pj ti Hnd Hpi Hpj).
      subst pj.
      apply (NoDup_lookup (out.*1.*2) i j pi Hndi);
        rewrite !list_lookup_fmap; [rewrite Oi|rewrite Oj]; reflexivity.
    + intros k rank id idx rating Hk.
      destruct (Hout _ _ Hk) as (t & q & p & id' & _ & Hp & Hq & Hid & Heq).
      injection Heq as -> -> -> ->. split; [exact Hq|]. exists t. auto.
    + intros i j rank_i rank_j id_i id_j idx_i idx_j rating_i rating_j Hi Hj Hlt.
      destruct (Hout _ _ Hi) as (ti & qi & pi & idi & Si & _ & _ & _ & Ei).
      destruct (Hout _ _ Hj) as (tj & qj & pj & idj & Sj & _ & _ & _ & Ej).
      injection Ei as -> -> -> ->. injection Ej as -> -> -> ->.
      apply (StronglySorted_lookup _ _ (sorted_by_key_sorted (zip teams ratings))
               i j _ _ ltac:(lia) Si Sj).
  - exfalso. assert (Hs : is_Some (mapM body L)).
    { apply mapM_is_Some. apply Forall_lookup. intros i row Hi.
      rewrite HL in Hi. destruct (S0 !! i) as [[t q]|] eqn:Si; [|discriminate].
      injection Hi as <-. destruct (Hrow _ _ _ Si) as (p & Hp & _).
      destruct (Hname _ _ Hp) as (id & Hid & _).
      unfold compose. simpl. rewrite (Hbody _ _ _ _ _ Si Hp Hid). eauto. }
    rewrite E in Hs. destruct Hs; discriminate.
Qed.

(** ** The filters (lines 237-259) *)

Lemma refine_filter_implies has_preseason_key has_postponed_key use_team_id r passes :
  Main.refine_filter has_preseason_key has_postponed_key use_team_id r passes = true ->
  passes = true.
Proof.
  unfold Main.refine_filter.
  destruct has_preseason_key, has_postponed_key, use_team_id, passes; simpl;
    rewrite ?andb_false_r; congruence.
Qed.

Lemma game_filter_true date_not_after_final season_to_rank earliest_season
    has_preseason_key has_postponed_key use_team_id r :
  Main.game_filter date_not_after_final season_to_rank earliest_season
    has_preseason_key has_postponed_key use_team_id r = Some true ->
  IsCompleted r = true /\
  exists home away neutral season,
    HomeScore r = Some home /\ AwayScore r = Some away /\
    IsNeutralSite r = Some neutral /\ Season r = Some season /\
    (earliest_season <= season <= season_to_rank)%Z /\
    (has_preseason_key = true -> exists pre, IsPreseason r = Some pre).
Proof.
  unfold Main.game_filter. intros H.
  destruct (match Year r with Some _ => _ | None => _ end) as [date_test|];
    [|discriminate].
  simpl in H. injection H as H.
  assert (Hpre : has_preseason_key = true -> exists pre, IsPreseason r = Some pre).
  { intros ->. unfold Main.refine_filter in H.
    destruct (IsPreseason r); [eauto|].
    simpl in H. destruct has_postponed_key, use_team_id; simpl in H;
      rewrite ?andb_false_r in H; discriminate. }
  apply refine_filter_implies in H.
  destruct (IsCompleted r), (HomeScore r), (AwayScore r), (IsNeutralSite r),
    (Season r) as [season|]; simpl in H; try discriminate.
  split; [reflexivity|]. eexists _, _, _, _. repeat (split; [reflexivity|]).
  split; [|assumption].
  destruct date_test; simpl in H; [|discriminate]. lia.
Qed.

Lemma unplayed_game_filter_true season_to_rank has_preseason_key has_postponed_key
    use_team_id r :
  Main.unplayed_game_filter season_to_rank has_preseason_key has_postponed_key
    use_team_id r = true ->
  IsCompleted r = false /\
  exists season, Season r = Some season /\ (season_to_rank <= season)%Z.
Proof.
  unfold Main.unplayed_game_filter. intros H. apply refine_filter_implies in H.
  destruct (IsCompleted r), (IsNeutralSite r), (Season r) as [season|];
    simpl in H; try discriminate.
  split; [reflexivity|]. exists season. split; [reflexivity|].
  destruct (Year r), (Month r), (Day r); simpl in H; try discriminate. lia.
Qed.

Lemma column_props {A} (field : input_game -> option A) (P : input_game -> Prop)
    (Q0 : A -> Prop) rows col :
  (forall r, (r, true) ∈ rows -> P r) ->
  (forall r x, P r -> field r = Some x -> Q0 x) ->
  Main.column field rows = Some col ->
  length col = length (filter (fun x : input_game * bool => x.2 = true) rows) /\
  Forall Q0 col.
Proof.
  intros HP HQ Hc. unfold Main.column in Hc. apply mapM_Some in Hc.
  split; [symmetry; eapply Forall2_length; eassumption|].
  apply Forall_lookup. intros i x Hx.
  destruct (Forall2_lookup_r _ _ _ _ _ Hc Hx) as ([r b] & Hr & Hf).
  apply list_elem_of_lookup_2, list_elem_of_filter in Hr as [Hb Hr].
  simpl in Hb, Hf. subst b. eapply HQ; [|exact Hf]. now apply HP.
Qed.

(** X25.  Loading succeeds only for an input that has the key
    [IsPreseason]: then [use_preseason_var] is set, the five columns of the
    played games have one length, the seasons of the played games lie between
    the earliest season and the season to rank, and the seasons of the
    unplayed games are not before the season to rank.  So [rating_attempt]
    never gets a game of a later season, nor a false [use_preseason_var]. *)
Theorem loading_needs_the_preseason_key_and_keeps_the_window
    date_not_after_final season_to_rank earliest_season
    has_preseason_key has_postponed_key use_team_id input_data g :
  Main.load_games date_not_after_final season_to_rank earliest_season
    has_preseason_key has_postponed_key use_team_id input_data = Some g ->
  has_preseason_key = true /\
  loaded_use_preseason_var g = true /\
  length (loaded_home_score g) = length (loaded_season g) /\
  length (loaded_away_score g) = length (loaded_season g) /\
  length (loaded_is_neutral_site g) = length (loaded_season g) /\
  length (loaded_is_preseason g) = length (loaded_season g) /\
  Forall (fun s => (earliest_season <= s <= season_to_rank)%Z) (loaded_season g) /\
  Forall (fun s => (season_to_rank <= s)%Z) (loaded_unplayed_season g).
Proof.
  intros H. unfold Main.load_games in H.
  destruct (mapM _ input_data) as [passes|] eqn:Hp; [|discriminate]. simpl in H.
  destruct has_preseason_key eqn:Hkey; [|discriminate].
  apply mapM_Some in Hp.
  assert (Hrows : forall r, (r, true) ∈ zip input_data passes ->
            Main.game_filter date_not_after_final season_to_rank earliest_season
              true has_postponed_key use_team_id r = Some true).
  { intros r Hin. apply list_elem_of_lookup_1 in Hin as [i Hi].
    apply lookup_zip_with_Some in Hi as (r' & b & Heq & Hr & Hb).
    injection Heq as <- <-.
    destruct (Forall2_lookup_l _ _ _ _ _ Hp Hr) as (b' & Hb' & Hf). congruence. }
  assert (Hun : forall r,
            (r, true) ∈ zip input_data
              (Main.unplayed_game_filter season_to_rank true has_postponed_key
                 use_team_id <$> input_data) ->
            Main.unplayed_game_filter season_to_rank true has_postponed_key
              use_team_id r = true).
  { intros r Hin. apply list_elem_of_lookup_1 in Hin as [i Hi].
    apply lookup_zip_with_Some in Hi as (r' & b & Heq & Hr & Hb).
    injection Heq as <- <-. rewrite list_lookup_fmap, Hr in Hb.
    simpl in Hb. congruence. }
  destruct (Main.column HomeScore _) as [hs|] eqn:E1; [|discriminate]. simpl in H.
  destruct (Main.column AwayScore _) as [aws|] eqn:E2; [|discriminate]. simpl in H.
  destruct (Main.column IsNeutralSite _) as [ns|] eqn:E3; [|discriminate]. simpl in H.
  destruct (Main.column Season (zip input_data passes)) as [ss|] eqn:E4;
    [|discriminate]. simpl in H.
  destruct (Main.column IsPreseason _) as [ps|] eqn:E5; [|discriminate]. simpl in H.
  destruct (Main.column (fun r => _) _) as [ud|]; [|discriminate]. simpl in H.
  destruct (Main.column Season (zip input_data (_ <$> input_data)))
    as [us|] eqn:E6; [|discriminate]. simpl in H.
  injection H as <-. simpl.
  destruct (column_props _ _ (fun _ => True) _ _ Hrows (fun _ _ _ _ => I) E1) as [L1 _].
  destruct (column_props _ _ (fun _ => True) _ _ Hrows (fun _ _ _ _ => I) E2) as [L2 _].
  destruct (column_props _ _ (fun _ => True) _ _ Hrows (fun _ _ _ _ => I) E3) as [L3 _].
  destruct (column_props _ _ (fun _ => True) _ _ Hrows (fun _ _ _ _ => I) E5) as [L5 _].
  destruct (column_props Season _
              (fun s => (earliest_season <= s <= season_to_rank)%Z) _ _ Hrows
              ltac:(intros r x Hr Hx; apply game_filter_true in Hr
                      as (_ & ? & ? & ? & s & _ & _ & _ & Hs & Hw & _);
                    assert (s = x) by congruence; subst; assumption) E4) as [L4 W4].
  destruct (column_props Season _ (fun s => (season_to_rank <= s)%Z) _ _ Hun
              ltac:(intros r x Hr Hx; apply unplayed_game_filter_true in Hr
                      as (_ & s & Hs & Hw);
                    assert (s = x) by congruence; subst; assumption) E6) as [_ W6].
  repeat split; try congruence; assumption.
Qed.


(** ** The past schedule (lines 692-708) *)

(** X26.  For a game of the team that is not a preseason game and not of a
    later season, the past schedule decides on the season of the game itself
    and agrees with the optimizer: the game is listed exactly when its
    policy weight is not 0, whatever season the variable held before, and
    the variable then holds the season of the game. *)
Theorem past_schedule_lists_regular_games_with_weight all_team_list a team_id stale id
    h w season weight :
  input_games_home_listid a !! id = Some h ->
  input_games_away_listid a !! id = Some w ->
  all_team_list !! h = Some team_id \/ all_team_list !! w = Some team_id ->
  is_Some (all_team_list !! h) -> is_Some (all_team_list !! w) ->
  input_games_is_preseason a !! id = Some false ->
  input_games_season a !! id = Some season ->
  (season <= season_to_rank a)%Z ->
  cur_game_weight a id season = Some weight ->
  Main.past_schedule_include all_team_list a team_id stale id
  = Some (negb (Qeq_bool weight 0), season).
Proof.
  intros Hh Hw Hteam [hid Hhid] [aid Haid] Hpre Hs Hle Hweight.
  assert (Hinc : (if bool_decide (hid <> team_id) && bool_decide (aid <> team_id)
                  then false else true) = true).
  { destruct Hteam as [Ht|Ht]; rewrite Ht in *.
    - injection Hhid as <-. rewrite bool_decide_eq_false_2; [reflexivity|].
      intros Hn. now apply Hn.
    - injection Haid as <-.
      rewrite (bool_decide_eq_false_2 (team_id <> team_id)) by (intros Hn; now apply Hn).
      now rewrite andb_false_r. }
  unfold Main.past_schedule_include.
  rewrite Hh. cbn [mbind option_bind]. rewrite Hhid. cbn [mbind option_bind].
  rewrite Hw. cbn [mbind option_bind]. rewrite Haid. cbn [mbind option_bind].
  rewrite Hinc, Hpre, Hs.
  unfold cur_game_weight in Hweight. rewrite Hpre in Hweight.
  destruct (use_preseason_var a); cbn [mbind option_bind] in *;
    rewrite ?andb_false_r;
    (destruct (Z.eqb_spec season (season_to_rank a)) as [->|Hne];
     [rewrite Z.ltb_irrefl; injection Hweight as <-; reflexivity|]);
    (destruct (Z.ltb_spec season (season_to_rank a)) as [Hlt|Hge]; [|lia]);
    injection Hweight as <-; simpl;
    destruct (Qeq_bool (prior_season_weight a) 0); reflexivity.
Qed.

(** * The further properties on the examples *)

Section OnMoreExamples.

Import Example.
Import MoreExamples.

Lemma ex_cdfs_in_unit_interval m : cdfs_in_unit_interval ex_uniform_cdf ex_t_cdf m.
Proof.
  assert (H : forall x loc scale,
            0 <= ex_uniform_cdf x loc scale /\ ex_uniform_cdf x loc scale <= 1).
  { intros x loc scale. unfold ex_uniform_cdf. split.
    - apply Q.le_max_l.
    - apply Q.max_lub; [discriminate|apply Q.le_min_l]. }
  split; intros x loc; apply H.
Qed.

Lemma ex_cdfs_monotone_negative :
  cdfs_monotone ex_uniform_cdf ex_t_cdf medians_negative.
Proof.
  split; intros x y loc Hxy; apply ex_uniform_cdf_monotone;
    assumption || discriminate.
Qed.

Lemma league_centralities_inside k c :
  game_network_edge_centrality league !! k = Some c -> 0 < c /\ c < 1.
Proof.
  revert k c.
  change (map_Forall (fun (_ : nat * nat * nat) c => 0 < c /\ c < 1)
            (game_network_edge_centrality league)).
  apply map_Forall_to_list. vm_compute. repeat constructor.
Qed.

(** X1 on [league_pair], which returns in its fourth iteration. *)
Lemma overall_is_offense_plus_defense_witness :
  exists r,
    rating_attempt ex_log ex_norm_cdf ex_rng 4 league_pair = Returned _ r /\
    team_ratings r = np_add (team_off_ratings r) (team_def_ratings r).
Proof.
  destruct (rating_attempt ex_log ex_norm_cdf ex_rng 4 league_pair) as [r| |] eqn:E;
    [|vm_compute in E; discriminate E..].
  exists r. split; [reflexivity|].
  exact (proj1 (overall_is_offense_plus_defense ex_log ex_norm_cdf ex_rng
                  league_pair 4 r E)).
Defined.

(** X2 on the third iteration of [league_pair]. *)
Lemma best_error_never_increases_witness :
  exists s s' b b',
    after 2 league_pair = Some s /\ first_iteration s = false /\
    best_abs_total_error s = Some b /\
    iteration ex_log ex_norm_cdf ex_rng league_pair s = Some s' /\
    best_abs_total_error s' = Some b' /\ b' <= b.
Proof.
  destruct (after 2 league_pair) as [s|] eqn:E; [|vm_compute in E; discriminate E].
  destruct (iteration ex_log ex_norm_cdf ex_rng league_pair s) as [s'|] eqn:E';
    [|vm_compute in E; injection E as <-; vm_compute in E'; discriminate E'].
  destruct (best_abs_total_error s) as [b|] eqn:Eb;
    [|vm_compute in E; injection E as <-; discriminate Eb].
  assert (Hf : first_iteration s = false)
    by (vm_compute in E; injection E as <-; reflexivity).
  destruct (best_error_never_increases ex_log ex_norm_cdf ex_rng league_pair s s' b
              Hf Eb E') as (b' & Hb' & Hle & _).
  exists s, s', b, b'. repeat split; assumption || reflexivity.
Defined.

(** X3 on [league_pair]. *)
Lemma returned_ratings_have_one_entry_per_team_witness :
  exists r,
    rating_attempt ex_log ex_norm_cdf ex_rng 4 league_pair = Returned _ r /\
    length (team_off_ratings r) = 2%nat /\ length (team_def_ratings r) = 2%nat /\
    length (team_ratings r) = 2%nat.
Proof.
  destruct (rating_attempt ex_log ex_norm_cdf ex_rng 4 league_pair) as [r| |] eqn:E;
    [|vm_compute in E; discriminate E..].
  exists r. split; [reflexivity|].
  exact (returned_ratings_have_one_entry_per_team ex_log ex_norm_cdf ex_rng
           league_pair 4 r E).
Defined.

(** X6 on the first pass over the four games of [league]. *)
Lemma lists_have_one_entry_per_game_witness :
  exists sums fid,
    game_loop ex_log league (initial_state league) = Some (sums, fid) /\
    predicted_per_game 4 sums /\ stored_per_game 4 fid.
Proof.
  destruct (game_loop ex_log league (initial_state league)) as [[sums fid]|] eqn:E;
    [|vm_compute in E; discriminate E].
  exists sums, fid. split; [reflexivity|].
  destruct (lists_have_one_entry_per_game ex_log league (initial_state league)
              sums fid E) as [Hp Hs].
  exact (conj Hp (Hs eq_refl)).
Defined.

(** X7 on the second iteration of [league_pair]. *)
Lemma stored_data_is_fixed_after_first_iteration_witness :
  exists s s',
    after 1 league_pair = Some s /\ first_iteration s = false /\
    iteration ex_log ex_norm_cdf ex_rng league_pair s = Some s' /\
    stored s' = stored s.
Proof.
  destruct (after 1 league_pair) as [s|] eqn:E; [|vm_compute in E; discriminate E].
  destruct (iteration ex_log ex_norm_cdf ex_rng league_pair s) as [s'|] eqn:E';
    [|vm_compute in E; injection E as <-; vm_compute in E'; discriminate E'].
  assert (Hf : first_iteration s = false)
    by (vm_compute in E; injection E as <-; reflexivity).
  exists s, s'. split; [reflexivity|]. split; [exact Hf|]. split; [exact E'|].
  exact (proj1 (stored_data_is_fixed_after_first_iteration ex_log ex_norm_cdf ex_rng
                  league_pair s s' Hf E')).
Defined.

(** X8 on [league_neutral]. *)
Lemma all_neutral_sites_attempt_fails_witness :
  (forall id, In id (network_game_id_list league_neutral) ->
     input_games_is_neutral_site league_neutral !! id = Some true) /\
  (0 < iterations_before_stop league_neutral)%nat /\
  rating_attempt ex_log ex_norm_cdf ex_rng 1 league_neutral = Failed _.
Proof.
  assert (H1 : forall id, In id (network_game_id_list league_neutral) ->
                 input_games_is_neutral_site league_neutral !! id = Some true).
  { intros id [<-|[<-|[]]]; reflexivity. }
  assert (H2 : (0 < iterations_before_stop league_neutral)%nat) by (simpl; lia).
  exact (conj H1 (conj H2 (all_neutral_sites_attempt_fails ex_log ex_norm_cdf ex_rng
                             league_neutral 0 H1 H2))).
Defined.

(** X9 on [league_pair]: the count at the exit is 2. *)
Lemma attempt_stops_at_exactly_the_threshold_witness :
  exists r s,
    rating_attempt ex_log ex_norm_cdf ex_rng 4 league_pair = Returned _ r /\
    r = best s /\ iterations_since_last_update s = 2%nat.
Proof.
  destruct (rating_attempt ex_log ex_norm_cdf ex_rng 4 league_pair) as [r| |] eqn:E;
    [|vm_compute in E; discriminate E..].
  destruct (attempt_stops_at_exactly_the_threshold ex_log ex_norm_cdf ex_rng
              league_pair 4 r E) as (s & _ & Hr & Hc).
  exists r, s. split; [reflexivity|]. exact (conj Hr Hc).
Defined.

(** X10 on the only game of [league_single], of weight 1. *)
Lemma centrality_one_gives_no_finite_weight_witness :
  game_network_edge_centrality league_single !! centrality_key 0 1 = Some 1 /\
  ex_log (1 / 1) == 0 /\
  np_divide 1 (ex_log (1 / 1)) = Infinity false /\
  read_game ex_log league_single 0 = None /\
  game_loop ex_log league_single (initial_state league_single) = None.
Proof.
  split; [reflexivity|]. split; [reflexivity|].
  destruct (centrality_one_gives_no_finite_weight ex_log league_single
              (initial_state league_single) 0%nat
              "A"%string "B"%string 0%nat 1%nat 2024%Z 1
              (or_introl eq_refl) eq_refl eq_refl eq_refl eq_refl eq_refl eq_refl
              eq_refl (Qeq_refl 0)) as (Hd & _ & Hr & Hl).
  split; [exact Hd|]. exact (conj Hr Hl).
Defined.

(** X11 on [league], whose weights 1/4, 1/2 and 1/8 are left as they are by
    the clipping. *)
Lemma weights_and_error_are_never_negative_witness :
  exists sums fid,
    game_loop ex_log league (initial_state league) = Some (sums, fid) /\
    Forall (fun w => 0 <= w) (gt_game_weight_list fid) /\
    0 <= abs_total_error ex_norm_cdf league fid sums.
Proof.
  destruct (game_loop ex_log league (initial_state league)) as [[sums fid]|] eqn:E;
    [|vm_compute in E; discriminate E].
  exists sums, fid. split; [reflexivity|].
  destruct (weights_and_error_are_never_negative ex_log ex_norm_cdf league sums fid
              (1 # 4) (1 # 2) (1 # 8) ex_log_positive league_centralities_inside
              eq_refl eq_refl eq_refl E) as [Hw He].
  exact (conj Hw (He sums)).
Defined.

(** X12 on [league] and [medians3]. *)
Lemma calibration_samples_are_aligned_witness :
  exists e,
    calibration_errors league medians3 = Some e /\ samples_aligned e /\
    (length (prediction_errors e) <= 4)%nat.
Proof.
  destruct (calibration_errors league medians3) as [e|] eqn:E;
    [|vm_compute in E; discriminate E].
  exists e. split; [reflexivity|].
  exact (calibration_samples_are_aligned league medians3 e E).
Defined.

(** X13 on the preseason game of [league]. *)
Lemma tie_search_includes_more_games_witness :
  input_games_is_preseason league !! 3%nat = Some true /\
  (include_game league 2024 3 = Some true ->
   include_game_tie league 2024 3 = Some true).
Proof.
  exact (conj eq_refl (proj1 (tie_search_includes_more_games league 2024 3 true eq_refl))).
Defined.

(** X14 on [league] with an unplayed game of 2024. *)
Lemma unplayed_game_disables_prior_season_tests_witness :
  unplayed_games_season medians3_unplayed <> [] /\
  Forall (fun s => (season_to_rank league <= s)%Z)
    (unplayed_games_season medians3_unplayed) /\
  exists season,
    cur_game_season_at_calibration league medians3_unplayed = Some season /\
    forall id pre,
      input_games_is_preseason league !! id = Some pre ->
      (include_game league season id = Some false <->
       use_preseason_var league = true /\ pre = true /\ preseason_weight league == 0).
Proof.
  assert (H1 : unplayed_games_season medians3_unplayed <> []) by discriminate.
  assert (H2 : Forall (fun s => (season_to_rank league <= s)%Z)
                 (unplayed_games_season medians3_unplayed)).
  { repeat constructor. simpl. lia. }
  exact (conj H1 (conj H2 (unplayed_game_disables_prior_season_tests
                             league medians3_unplayed H1 H2))).
Defined.

(** X15 on [league_pair] with the target 3/2. *)
Lemma target_above_one_is_never_reached_witness :
  cdfs_in_unit_interval ex_uniform_cdf ex_t_cdf medians_high /\
  1 < tie_probability medians_high /\
  (tie_cdf_bound ex_uniform_cdf ex_t_cdf 5 league_pair medians_high 2024
   = OutOfFuel _ \/
   tie_cdf_bound ex_uniform_cdf ex_t_cdf 5 league_pair medians_high 2024
   = Failed _).
Proof.
  assert (H1 : 1 < tie_probability medians_high) by reflexivity.
  exact (conj (ex_cdfs_in_unit_interval medians_high)
           (conj H1 (target_above_one_is_never_reached ex_uniform_cdf ex_t_cdf
                       league_pair medians_high 2024 5
                       (ex_cdfs_in_unit_interval medians_high) H1))).
Defined.

(** X16 on [league_pair] with the target -1/10 and steps of 4. *)
Lemma target_not_above_zero_gives_bound_not_above_zero_witness :
  cdfs_monotone ex_uniform_cdf ex_t_cdf medians_negative /\
  tie_probability medians_negative <= 0 /\
  0 <= tie_cdf_search_interval medians_negative /\
  exists b,
    tie_cdf_bound ex_uniform_cdf ex_t_cdf 1 league_pair medians_negative 2024
    = Returned _ b /\ b <= 0.
Proof.
  assert (H1 : tie_probability medians_negative <= 0) by discriminate.
  assert (H2 : 0 <= tie_cdf_search_interval medians_negative) by discriminate.
  destruct (cur_cdf_tie_probability ex_uniform_cdf ex_t_cdf league_pair
              medians_negative 2024 (0 + tie_cdf_search_interval medians_negative))
    as [cp|] eqn:E; [|vm_compute in E; discriminate E].
  assert (Hne : ~ cp == 0).
  { vm_compute in E. injection E as <-. discriminate. }
  destruct (target_not_above_zero_gives_bound_not_above_zero ex_uniform_cdf ex_t_cdf
              league_pair medians_negative 2024 0 cp ex_cdfs_monotone_negative
              H1 H2 E Hne) as (b & Hb & _ & Hle).
  split; [exact ex_cdfs_monotone_negative|]. split; [exact H1|]. split; [exact H2|].
  exists b. exact (conj Hb Hle).
Defined.

(** X17 on [league_late], whose last game is of 2023: the fit of the empty
    sample of margin errors raises. *)
Lemma earlier_stale_season_excludes_every_game_witness :
  cur_game_season_at_calibration league_late medians3 = Some 2023%Z /\
  (2023 < season_to_rank league_late)%Z /\
  prior_season_weight league_late == 0 /\
  prediction_errors <$> calibration_errors league_late medians3 = Some [] /\
  fit_prediction_errors ex_np_std ex_t_fit league_late medians3 = None /\
  main_tie_cdf_bound ex_uniform_cdf ex_t_cdf ex_np_std ex_t_fit 1
    league_late medians3 = Failed _.
Proof.
  assert (H1 : cur_game_season_at_calibration league_late medians3 = Some 2023%Z)
    by reflexivity.
  assert (H2 : (2023 < season_to_rank league_late)%Z) by (simpl; lia).
  assert (H3 : prior_season_weight league_late == 0) by reflexivity.
  assert (H4 : forall id, In id (network_game_id_list league_late) ->
                 is_Some (input_games_is_preseason league_late !! id)).
  { intros id [<-|[<-|[<-|[]]]]; eexists; reflexivity. }
  destruct (earlier_stale_season_excludes_every_game ex_uniform_cdf ex_t_cdf
              ex_np_std ex_t_fit league_late medians3 2023 H1 H2 H3 H4)
    as [He Ht].
  split; [exact H1|]. split; [exact H2|]. split; [exact H3|].
  split; [rewrite He; reflexivity|].
  split; [unfold fit_prediction_errors; rewrite He; reflexivity|exact (Ht 0%nat)].
Defined.

(** X18 on the three teams. *)
Lemma index_tables_agree_witness :
  NoDup all_teams /\ NoDup [0; 1; 2]%nat /\
  Forall (fun t => (t < length all_teams)%nat) [0; 1; 2]%nat /\
  exists d_all d_idx rev,
    Main.id_to_all_index all_teams [0; 1; 2]%nat = Some d_all /\
    Main.id_to_index all_teams [0; 1; 2]%nat = Some d_idx /\
    Main.teams_in_network_reverse all_teams [0; 1; 2]%nat = Some rev /\
    d_all !! "B"%string = Some 1%nat /\ d_idx !! "B"%string = Some 1%nat /\
    rev !! 1%nat = Some (Some 1%nat) /\
    Main.index_to_id d_idx !! 1%nat = Some "B"%string.
Proof.
  assert (H1 : NoDup all_teams) by (refine (bool_decide_unpack _ _); vm_compute; exact I).
  assert (H2 : NoDup [0; 1; 2]%nat) by (refine (bool_decide_unpack _ _); vm_compute; exact I).
  assert (H3 : Forall (fun t => (t < length all_teams)%nat) [0; 1; 2]%nat)
    by (repeat constructor; simpl; lia).
  destruct (index_tables_agree all_teams [0; 1; 2]%nat H1 H2 H3)
    as (d_all & d_idx & rev & Ha & Hi & Hr & _ & Hspec & _).
  destruct (Hspec 1%nat 1%nat "B"%string eq_refl eq_refl) as (Q1 & Q2 & Q3 & Q4).
  split; [exact H1|]. split; [exact H2|]. split; [exact H3|].
  exists d_all, d_idx, rev. repeat split; assumption.
Defined.

(** X19 on [league]: its tables are the ones that [main] builds. *)
Lemma network_games_find_their_teams_witness :
  NoDup all_teams /\ NoDup (teams_in_network league) /\
  Forall (fun t => (t < length all_teams)%nat) (teams_in_network league) /\
  built_by_main all_teams league medians3 /\
  exists hi ai,
    id_to_index league !! "A"%string = Some hi /\
    id_to_index league !! "B"%string = Some ai /\
    teams_in_network_reverse medians3 !! 0%nat = Some (Some hi) /\
    teams_in_network_reverse medians3 !! 1%nat = Some (Some ai).
Proof.
  assert (H1 : NoDup all_teams) by (refine (bool_decide_unpack _ _); vm_compute; exact I).
  assert (H2 : NoDup (teams_in_network league))
    by (refine (bool_decide_unpack _ _); vm_compute; exact I).
  assert (H3 : Forall (fun t => (t < length all_teams)%nat) (teams_in_network league))
    by (repeat constructor; simpl; lia).
  assert (H4 : built_by_main all_teams league medians3).
  { repeat split; vm_compute; reflexivity. }
  assert (H5 : 1%nat ∈ network_game_id_list league).
  { apply list_elem_of_In. simpl. auto. }
  destruct (network_games_find_their_teams all_teams league medians3 1%nat
              H1 H2 H3 H4 H5)
    as (hid & aid & h & w & hi & ai & Hh & Ha & Hhl & Hal & _ & _ & Q1 & Q2 & Q3 & Q4 & _).
  injection Hh as <-. injection Ha as <-. injection Hhl as <-. injection Hal as <-.
  split; [exact H1|]. split; [exact H2|]. split; [exact H3|]. split; [exact H4|].
  exists hi, ai. repeat split; assumption.
Defined.

(** X21 on the standard deviation 28/5 of [league]. *)
Lemma adjustment_scale_is_positive_and_capped_witness :
  0 <= 28 # 5 /\
  0 < Main.rating_adjustment_scale (28 # 5) /\
  Main.rating_adjustment_scale (28 # 5) <= 100.
Proof.
  assert (H : 0 <= 28 # 5) by discriminate.
  destruct (adjustment_scale_is_positive_and_capped (28 # 5) H) as (H1 & H2 & _).
  exact (conj H (conj H1 H2)).
Defined.

(** X23 on three attempts for two teams. *)
Lemma median_lies_between_the_attempts_witness :
  Forall (fun row : list Q => length row = 2%nat) [[3; 0]; [2; 5]] /\
  exists med,
    Py.np_median_axis0 ex_attempts = Some med /\ length med = 2%nat.
Proof.
  assert (H : Forall (fun row : list Q => length row = length [1; 2])
                [[3; 0]; [2; 5]]) by (repeat constructor).
  destruct (median_lies_between_the_attempts [1; 2] [[3; 0]; [2; 5]] H)
    as (med & Hm & Hl & _).
  split; [exact H|]. exists med. exact (conj Hm Hl).
Defined.

(** X24 on the three teams with the median ratings 0, 3 and -3. *)
Lemma ranked_output_is_ordered_and_complete_witness :
  NoDup all_teams /\ NoDup [0; 1; 2]%nat /\
  Forall (fun t => (t < length all_teams)%nat) [0; 1; 2]%nat /\
  Main.teams_in_network_reverse all_teams [0; 1; 2]%nat
  = Some [Some 0; Some 1; Some 2]%nat /\
  exists d_idx out,
    Main.id_to_index all_teams [0; 1; 2]%nat = Some d_idx /\
    Main.team_ratings_output [Some 0; Some 1; Some 2]%nat (Main.index_to_id d_idx)
      [0; 3; -3] (Main.team_rating_list [0; 1; 2]%nat [0; 3; -3]) = Some out /\
    out.*1.*1.*1 = [1; 2; 3]%nat /\ NoDup out.*1.*1.*2.
Proof.
  assert (H0 : NoDup all_teams) by (refine (bool_decide_unpack _ _); vm_compute; exact I).
  assert (H1 : NoDup [0; 1; 2]%nat) by (refine (bool_decide_unpack _ _); vm_compute; exact I).
  assert (H2 : Forall (fun t => (t < length all_teams)%nat) [0; 1; 2]%nat)
    by (repeat constructor; simpl; lia).
  assert (H3 : Main.teams_in_network_reverse all_teams [0; 1; 2]%nat
               = Some [Some 0; Some 1; Some 2]%nat) by reflexivity.
  destruct (Main.id_to_index all_teams [0; 1; 2]%nat) as [d_idx|] eqn:E;
    [|vm_compute in E; discriminate E].
  destruct (ranked_output_is_ordered_and_complete all_teams [0; 1; 2]%nat [0; 3; -3]
              [Some 0; Some 1; Some 2]%nat d_idx H0 H1 H2 eq_refl H3 E)
    as (out & Ho & Hr & _ & Hn & _).
  split; [exact H0|]. split; [exact H1|]. split; [exact H2|]. split; [exact H3|].
  exists d_idx, out. split; [reflexivity|]. exact (conj Ho (conj Hr Hn)).
Defined.

(** X25 on an input file of five games. *)
Lemma loading_needs_the_preseason_key_and_keeps_the_window_witness :
  exists g,
    Main.load_games ex_date_not_after_final 2024 2023 true false true ex_input_data
    = Some g /\
    loaded_season g = [2023; 2024]%Z /\ loaded_unplayed_season g = [2024]%Z /\
    Forall (fun s => (2023 <= s <= 2024)%Z) (loaded_season g).
Proof.
  destruct (Main.load_games ex_date_not_after_final 2024 2023 true false true
              ex_input_data) as [g|] eqn:E; [|vm_compute in E; discriminate E].
  destruct (loading_needs_the_preseason_key_and_keeps_the_window
              ex_date_not_after_final 2024 2023 true false true ex_input_data g E)
    as (_ & _ & _ & _ & _ & _ & Hw & _).
  exists g. split; [reflexivity|].
  split; [vm_compute in E; injection E as <-; reflexivity|].
  split; [vm_compute in E; injection E as <-; reflexivity|exact Hw].
Defined.

(** X26 on the game of A against B of 2024 in [league], for team A, after a
    game of 2023. *)
Lemma past_schedule_lists_regular_games_with_weight_witness :
  cur_game_weight league 1 2024 = Some 1 /\
  Main.past_schedule_include all_teams league "A"%string 2023 1
  = Some (true, 2024%Z).
Proof.
  split; [reflexivity|].
  exact (past_schedule_lists_regular_games_with_weight all_teams league "A"%string
           2023 1%nat 0%nat 1%nat 2024 1 eq_refl eq_refl (or_introl eq_refl)
           (ex_intro _ "A"%string eq_refl) (ex_intro _ "B"%string eq_refl)
           eq_refl eq_refl ltac:(simpl; lia) eq_refl).
Defined.

(** X27 on three teams matched by id: the list is in the order of the
    names Ajax, Bears, Cubs. *)
Lemma team_list_by_id_indexes_every_game_witness :
  Forall (fun g => (2023 <= game_season g <= 2024)%Z) ex_played /\
  Main.all_team_list_by_id 2024 2023 ex_played [] = ["t2"; "t1"; "t3"]%string /\
  NoDup (Main.all_team_list_by_id 2024 2023 ex_played []) /\
  Main.input_games_listid (Main.all_team_list_by_id 2024 2023 ex_played [])
    (game_home_id <$> ex_played) = Some [1; 0; 1]%nat.
Proof.
  assert (H : Forall (fun g => (2023 <= game_season g <= 2024)%Z) ex_played)
    by (repeat constructor; simpl; lia).
  destruct (team_list_by_id_indexes_every_game 2024 2023 ex_played [] H)
    as (Hnd & _).
  split; [exact H|]. split; [reflexivity|]. split; [exact Hnd|reflexivity].
Defined.

End OnMoreExamples.
